(** * generate_pdf.py: the three-stage proposal pipeline

    A shallow embedding of [generate_pdf.py]: the render stage (a browser
    loads the HTML, the DOM is mutated and exported as a PDF), the footer
    stage [add_branded_footer] and the screenshot stage [screenshot_pages],
    with the properties the specification states about them.

    Modelling conventions.
    - Python and JavaScript integers are [Z]; Python's [str] on an integer is
      stdpp's [pretty].
    - Floating-point quantities (points, zoom factors, colours) are exact
      rationals [Q]; comparisons between them are [Qlt], [Qle] and [Qeq].
    - A string is a [string] whose characters are the code points below 256
      (the footer's middle dot U+00B7 is character 183).
    - A path is the list of its components; the file system is a finite map
      from paths to file contents together with the set of existing
      directories; the stages run in a state-and-error monad over it that
      also records each file-system call in a log.
    - What the browser, the PDF library and the font do (layout, JavaScript
      [eval], glyph advances) is a section variable. *)

From Stdlib Require Import Ascii String QArith Lqa.
From stdpp Require Import gmap strings list fin_maps pretty.

Local Open Scope Z_scope.

(** ** Text formatting *)

Module Fmt.

(** [f"{n:02d}"] and [strftime]'s zero-padded fields: pad on the left with
    the character 0 up to [width] characters. *)
Fixpoint zeros (k : nat) : string :=
  match k with
  | O => ""
  | S k' => String "0"%char (zeros k')
  end.

Definition zfill (width : nat) (s : string) : string :=
  zeros (width - String.length s) +:+ s.

Definition fmt_02d (n : Z) : string := zfill 2 (pretty n).

Definition is_digit (c : ascii) : bool :=
  let n := nat_of_ascii c in (48 <=? n)%nat && (n <=? 57)%nat.

Fixpoint all_chars (p : ascii → bool) (s : string) : bool :=
  match s with
  | EmptyString => true
  | String c s' => p c && all_chars p s'
  end.


Definition is_alpha (c : ascii) : bool :=
  let n := nat_of_ascii c in
  ((65 <=? n) && (n <=? 90) || (97 <=? n) && (n <=? 122))%nat.

(** The characters the footer's right-hand text is made of: letters,
    digits, space, comma, colon and the middle dot. *)
Definition footer_char (c : ascii) : bool :=
  is_digit c || is_alpha c ||
  bool_decide (nat_of_ascii c ∈ [32; 44; 58; 183]%nat).

End Fmt.

(** ** Wall-clock readings *)

Module Clock.

(** What [datetime.now()] returns. *)
Record datetime := mkDatetime {
  year : Z; month : Z; day : Z;
  hour : Z; minute : Z; second : Z; microsecond : Z
}.

(** The ranges the [datetime] type enforces. *)
Definition valid (d : datetime) : Prop :=
  1 <= year d <= 9999 ∧ 1 <= month d <= 12 ∧ 1 <= day d <= 31 ∧
  0 <= hour d <= 23 ∧ 0 <= minute d <= 59 ∧ 0 <= second d <= 59 ∧
  0 <= microsecond d <= 999999.

(** [%B] in the C locale, which Python starts in. *)
Definition month_name (m : Z) : string :=
  match m with
  | 1 => "January" | 2 => "February" | 3 => "March" | 4 => "April"
  | 5 => "May" | 6 => "June" | 7 => "July" | 8 => "August"
  | 9 => "September" | 10 => "October" | 11 => "November" | 12 => "December"
  | _ => ""
  end.

(** [%I]: the hour on a 12-hour clock. *)
Definition hour12 (h : Z) : Z :=
  if h mod 12 =? 0 then 12 else h mod 12.

(** [%p] *)
Definition am_pm (h : Z) : string := if h <? 12 then "AM" else "PM".


(** [strftime("%B %d, %Y at %I:%M %p")].  [%Y] is the year zero-padded to
    four digits, as the Python documentation gives it. *)
Definition strftime_version (d : datetime) : string :=
  month_name (month d) +:+ " " +:+ Fmt.fmt_02d (day d) +:+ ", " +:+
  Fmt.zfill 4 (pretty (year d)) +:+ " at " +:+
  Fmt.fmt_02d (hour12 (hour d)) +:+ ":" +:+ Fmt.fmt_02d (minute d) +:+ " " +:+
  am_pm (hour d).

(** The text after the month name has 21 characters. *)
Definition stamp_tail (d : datetime) : string :=
  " " +:+ Fmt.fmt_02d (day d) +:+ ", " +:+
  Fmt.zfill 4 (pretty (year d)) +:+ " at " +:+
  Fmt.fmt_02d (hour12 (hour d)) +:+ ":" +:+ Fmt.fmt_02d (minute d) +:+ " " +:+
  am_pm (hour d).

End Clock.

(** ** Pages, drawing operations and the footer *)

Module Pdf.

Local Open Scope Q_scope.

(** [fitz.Rect]: two corners; [width] and [height] are derived. *)
Record rect := mkRect { x0 : Q; y0 : Q; x1 : Q; y1 : Q }.
Definition width (r : rect) : Q := x1 r - x0 r.
Definition height (r : rect) : Q := y1 r - y0 r.

Record point := mkPoint { px : Q; py : Q }.

Definition colour : Type := Q * Q * Q.

(** What a page's content stream holds: what the browser rendered, and what
    [draw_rect] and [insert_text] append to it. *)
Inductive draw_op :=
| Rendered (stream : string)
| DrawRect (r : rect) (stroke fill : option colour)
| InsertText (at_ : point) (text fontname : string) (fontsize : Q)
    (col : colour).

Record page := mkPage { page_rect : rect; contents : list draw_op }.

(** [len(doc)] and [doc[i]] are the length of and the lookup in the list. *)
Definition document : Type := list page.

(** [fitz.Matrix(a, d)] is the scaling matrix. *)
Record matrix := mkMatrix { ma : Q; mb : Q; mc : Q; md : Q; me : Q; mf : Q }.
Definition Matrix (zx zy : Q) : matrix := mkMatrix zx 0 0 zy 0 0.

(** [page.get_pixmap(matrix=mat)]: the rasterization is kept symbolic. *)
Inductive pixmap := Pixmap (mat : matrix) (pg : page).

(** Constants of the script. *)
Definition FOOTER_H_MM : Z := 10.
Definition FOOTER_H_PT : Q := inject_Z FOOTER_H_MM * 72 / 25.4.

Definition COBALT : colour := (0 / 255, 87 / 255, 184 / 255).
Definition GREY_MED : colour := (142 / 255, 142 / 255, 142 / 255).
Definition CERULEAN : colour := (19 / 255, 153 / 255, 204 / 255).
Definition BLACK : colour := (16 / 255, 16 / 255, 16 / 255).

(** U+00B7, the middle dot. *)
Definition middot : string := String "183"%char "".

Definition left_txt : string :=
  "Inkline + Attention Strategy  " +:+ middot +:+
  "  Rideau Hall Foundation Website Consolidation  " +:+ middot +:+
  "  Confidential".

Section Footer.

(** The advance of each glyph of the built-in font [helv], in units of the
    font size. *)
Variable helv_advance : ascii → Q.

Fixpoint advance_sum (s : string) : Q :=
  match s with
  | EmptyString => 0
  | String c s' => helv_advance c + advance_sum s'
  end.

(** [fitz.get_text_length(text, fontname="helv", fontsize=fontsize)] *)
Definition get_text_length (text : string) (fontsize : Q) : Q :=
  advance_sum text * fontsize.

(** The values the loop body of [add_branded_footer] computes. *)
Definition footer_rect (r : rect) : rect :=
  mkRect 0 (height r - FOOTER_H_PT) (width r) (height r).

Definition footer_cy (r : rect) : Q := height r - FOOTER_H_PT / 2 + 2.

Definition footer_prefix (now : Clock.datetime) : string :=
  "Version: " +:+ Clock.strftime_version now +:+ "  " +:+ middot +:+ "  ".

Definition footer_pgtxt (i total : Z) : string :=
  "Page " +:+ pretty (i + 1)%Z +:+ " of " +:+ pretty total.

Definition footer_pw (now : Clock.datetime) : Q :=
  get_text_length (footer_prefix now) 6.5.

Definition footer_gw (i total : Z) : Q :=
  get_text_length (footer_pgtxt i total) 6.5.

Definition footer_rx (r : rect) (now : Clock.datetime) (i total : Z) : Q :=
  width r - 28 - footer_pw now - footer_gw i total.

(** The four drawing calls of one iteration, in the order they are made. *)
Definition footer_ops (r : rect) (now : Clock.datetime) (i total : Z)
  : list draw_op :=
  let cy := footer_cy r in
  let rx := footer_rx r now i total in
  [ DrawRect (footer_rect r) None (Some BLACK);
    InsertText (mkPoint 28 cy) left_txt "helv" 6.5 GREY_MED;
    InsertText (mkPoint rx cy) (footer_prefix now) "helv" 6.5 GREY_MED;
    InsertText (mkPoint (rx + footer_pw now) cy) (footer_pgtxt i total)
      "helv" 6.5 CERULEAN ].

(** One iteration of the loop: page [i] with the clock reading [now]. *)
Definition footer_page (now : Clock.datetime) (i total : Z) (pg : page)
  : page :=
  mkPage (page_rect pg)
         (contents pg ++ footer_ops (page_rect pg) now i total).

End Footer.

End Pdf.

(** ** The document tree the browser exposes to the injected scripts *)

Module Dom.

(** An element has a lower-case tag name, its attributes other than [class],
    its class list and its children; the rest of the tree is text. *)
#[local] Unset Elimination Schemes.
Inductive node :=
| Elem (tag : string) (attrs : list (string * string))
    (classes : list string) (kids : list node)
| Text (data : string).
#[local] Set Elimination Schemes.

(** A node is addressed by the child indices leading to it from the root.
    The scripts only ever add classes and append children, so an address
    taken before a mutation still names the same node after it. *)
Definition path : Type := list nat.

Definition get_attr (name : string) (attrs : list (string * string))
  : option string :=
  snd <$> List.find (λ kv, bool_decide (kv.1 = name)) attrs.

Definition tag_of (n : node) : option string :=
  match n with Elem t _ _ _ => Some t | Text _ => None end.

Definition attr_of (name : string) (n : node) : option string :=
  match n with Elem _ a _ _ => get_attr name a | Text _ => None end.

Definition classes_of (n : node) : list string :=
  match n with Elem _ _ c _ => c | Text _ => [] end.

Definition kids_of (n : node) : list node :=
  match n with Elem _ _ _ k => k | Text _ => [] end.

(** [el.classList.contains(c)] *)
Definition has_class (c : string) (n : node) : bool :=
  bool_decide (c ∈ classes_of n).

(** [el.classList.add(c)]: a token already present is not added again. *)
Definition add_class (c : string) (n : node) : node :=
  match n with
  | Elem t a cs k => Elem t a (if bool_decide (c ∈ cs) then cs else cs ++ [c]) k
  | Text s => Text s
  end.

(** [el.appendChild] for each of [new], in order. *)
Definition append_children (new : list node) (n : node) : node :=
  match n with
  | Elem t a cs k => Elem t a cs (k ++ new)
  | Text s => Text s
  end.

(** [el.textContent] as read: the text of all descendants in tree order. *)
Fixpoint text_content (n : node) : string :=
  match n with
  | Text s => s
  | Elem _ _ _ kids =>
      (fix go (ks : list node) : string :=
         match ks with
         | [] => ""
         | k :: ks' => text_content k +:+ go ks'
         end) kids
  end.

(** [el.textContent = s] on a fresh element: one text child, or none when
    [s] is empty. *)
Definition text_kids (s : string) : list node :=
  if bool_decide (s = "") then [] else [Text s].

(** [document.createElement(tag)] with [className] and [textContent] set. *)
Definition new_elem (tag cls text : string) : node :=
  Elem tag [] [cls] (text_kids text).

Fixpoint lookup (n : node) (p : path) : option node :=
  match p with
  | [] => Some n
  | i :: p' => kids_of n !! i ≫= λ k, lookup k p'
  end.

(** Apply [f] to the node at [p]; nothing changes when [p] names no node. *)
Fixpoint update (p : path) (f : node → node) (n : node) : node :=
  match p with
  | [] => f n
  | i :: p' =>
      match n with
      | Elem t a cs k => Elem t a cs (alter (update p' f) i k)
      | Text s => Text s
      end
  end.

(** The addresses of the elements satisfying [sel], in tree order; the
    node itself comes first when it matches. *)
Fixpoint select (sel : node → bool) (n : node) : list path :=
  match n with
  | Text _ => []
  | Elem _ _ _ kids =>
      (if sel n then [[]] else []) ++
      (fix go (i : nat) (ks : list node) : list path :=
         match ks with
         | [] => []
         | k :: ks' => (cons i <$> select sel k) ++ go (S i) ks'
         end) 0%nat kids
  end.

(** The same over a list of siblings, the first of which has index [i]. *)
Fixpoint select_kids (sel : node → bool) (i : nat) (ks : list node)
  : list path :=
  match ks with
  | [] => []
  | k :: ks' => (cons i <$> select sel k) ++ select_kids sel (S i) ks'
  end.

(** [document.querySelectorAll] and [document.querySelector] *)
Definition query_selector_all (sel : node → bool) (root : node) : list path :=
  select sel root.
Definition query_selector (sel : node → bool) (root : node) : option path :=
  head (select sel root).

(** [el.querySelector]: among the descendants of [el], not [el] itself;
    the result is relative to [el]. *)
Definition query_selector_in (sel : node → bool) (el : node) : option path :=
  head (select_kids sel 0 (kids_of el)).

(** Selectors used by the script. *)
Definition sel_id (id : string) (n : node) : bool :=
  bool_decide (attr_of "id" n = Some id).

Definition contains (needle hay : string) : bool :=
  bool_decide (is_Some (String.index 0 needle hay)).

(** [section[style*="linear-gradient"]] *)
Definition sel_gradient_section (n : node) : bool :=
  bool_decide (tag_of n = Some "section") &&
  match attr_of "style" n with
  | Some st => contains "linear-gradient" st
  | None => false
  end.

(** [script:not([src])] *)
Definition sel_inline_script (n : node) : bool :=
  bool_decide (tag_of n = Some "script") &&
  bool_decide (attr_of "src" n = None).

Definition sel_class (c : string) (n : node) : bool := has_class c n.

(** [document.getElementById(id)] *)
Definition get_element_by_id (id : string) (root : node) : option path :=
  query_selector (sel_id id) root.

(** Neither address leads through the other: the two nodes are in
    different subtrees. *)
Definition apart (p q : path) : bool :=
  negb (bool_decide (p `prefix_of` q)) && negb (bool_decide (q `prefix_of` p)).

(** No two of the addresses, at different positions of the list, lead
    through one another. *)
Fixpoint all_apart (ps : list path) : bool :=
  match ps with
  | [] => true
  | p :: ps' => forallb (apart p) ps' && all_apart ps'
  end.

(** A selector that reads the tag and the attributes only. *)
Definition attr_only (sel : node → bool) : Prop :=
  ∀ t a cs cs' k k', sel (Elem t a cs k) = sel (Elem t a cs' k').

End Dom.

(** ** The file system, the clock and the monad the stages run in *)

Module Fs.

(** A [pathlib.Path] is the list of its components from the root. *)
Definition path : Type := list string.

Inductive file :=
| FHtml (root : Dom.node)
| FPdf (d : Pdf.document)
| FPng (pix : Pdf.pixmap)
| FData (bytes : string).

(** The calls that change the file system. *)
Inductive op :=
| OpMkdir (d : path)
| OpUnlink (p : path)
| OpSave (p : path) (f : file)
| OpReplace (src dst : path).

Inductive exn :=
| FileNotFoundError (p : path)
| FileExistsError (p : path)
| IsADirectoryError (p : path)
| FileDataError (p : path)
| JsError (msg : string).

Inductive result (A : Type) :=
| Ok (a : A)
| Raise (e : exn).
Arguments Ok {A} a.
Arguments Raise {A} e.

(** [clock k] is what the [k]-th call of [datetime.now()] returns; [ticks]
    counts the calls made so far, [log] the file-system calls, oldest
    first. *)
Record world := mkWorld {
  dirs : gset path;
  files : gmap path file;
  clock : nat → Clock.datetime;
  ticks : nat;
  log : list op
}.

Definition M (A : Type) : Type := world → result (A * world).

Definition ret {A} (a : A) : M A := λ w, Ok (a, w).

Definition bind {A B} (m : M A) (k : A → M B) : M B :=
  λ w, match m w with
       | Ok (a, w') => k a w'
       | Raise e => Raise e
       end.

Definition raise {A} (e : exn) : M A := λ _, Raise e.

#[global] Instance M_ret : MRet M := @ret.
#[global] Instance M_bind : MBind M := λ A B k m, bind m k.

Definition parent (p : path) : path := removelast p.

(** The root directory always exists. *)
Definition is_dir (w : world) (d : path) : bool :=
  bool_decide (d = [] ∨ d ∈ dirs w).

Definition set_files (fs : gmap path file) (o : op) (w : world) : world :=
  mkWorld (dirs w) fs (clock w) (ticks w) (log w ++ [o]).

(** [datetime.now()] *)
Definition now : M Clock.datetime :=
  λ w, Ok (clock w (ticks w),
           mkWorld (dirs w) (files w) (clock w) (S (ticks w)) (log w)).

(** [fitz.open(str(p))].  Every file that is not a PDF is refused. *)
Definition open_pdf (p : path) : M Pdf.document :=
  λ w, match files w !! p with
       | Some (FPdf d) => Ok (d, w)
       | Some _ => Raise (FileDataError p)
       | None => Raise (FileNotFoundError p)
       end.

(** Writing a file ([doc.save], [pix.save], [page.pdf(path=...)]) creates or
    overwrites it; the directory it goes to has to exist. *)
Definition save (p : path) (f : file) : M unit :=
  λ w, if negb (is_dir w (parent p)) then Raise (FileNotFoundError p)
       else if is_dir w p then Raise (IsADirectoryError p)
       else Ok (tt, set_files (<[p := f]> (files w)) (OpSave p f) w).

(** [Path(src).replace(dst)]: rename, overwriting [dst]. *)
Definition replace (src dst : path) : M unit :=
  λ w, match files w !! src with
       | None => Raise (FileNotFoundError src)
       | Some f =>
           if is_dir w dst then Raise (IsADirectoryError dst)
           else Ok (tt, set_files (<[dst := f]> (delete src (files w)))
                                  (OpReplace src dst) w)
       end.

(** [p.unlink()] *)
Definition unlink (p : path) : M unit :=
  λ w, if is_dir w p then Raise (IsADirectoryError p)
       else match files w !! p with
            | None => Raise (FileNotFoundError p)
            | Some _ => Ok (tt, set_files (delete p (files w)) (OpUnlink p) w)
            end.

(** The directory itself and its ancestors, outermost first. *)
Definition prefixes (d : path) : list path :=
  (λ k, take k d) <$> seq 1 (length d).

(** [d.mkdir(parents=True, exist_ok=True)] *)
Definition mkdir_parents (d : path) : M unit :=
  λ w, match List.find (λ q, bool_decide (is_Some (files w !! q))) (prefixes d) with
       | Some q => Raise (FileExistsError q)
       | None =>
           Ok (tt, mkWorld (dirs w ∪ list_to_set (prefixes d)) (files w)
                           (clock w) (ticks w) (log w ++ [OpMkdir d]))
       end.

(** The pattern [page_*.png] on a file name. *)
Definition glob_page_png (name : string) : bool :=
  String.prefix "page_" name &&
  (9 <=? String.length name)%nat &&
  String.eqb (String.substring (String.length name - 4) 4 name) ".png".

(** Is [p] an entry of the directory [d] whose name matches the pattern? *)
Definition page_png_in (d p : path) : bool :=
  match last p with
  | Some name => bool_decide (parent p = d) && glob_page_png name
  | None => false
  end.

(** [d.glob("page_*.png")]: the matching entries of [d], files and
    directories alike. *)
Definition glob (d : path) : M (list path) :=
  λ w, Ok (filter (λ p, page_png_in d p = true) (map_to_list (files w)).*1 ++
           filter (λ p, page_png_in d p = true) (elements (dirs w)), w).

(** [for x in xs: body(x)] *)
Fixpoint for_each {A} (body : A → M unit) (xs : list A) : M unit :=
  match xs with
  | [] => ret tt
  | x :: xs' => body x;; for_each body xs'
  end.



End Fs.

(** ** The scripts the render stage evaluates in the page *)

Module Script.

Import Dom.

(** *** Marking the sections that start a new page *)

Definition breakIds : list string :=
  ["approach"; "ia"; "seo"; "considerations"; "scope"; "effort"; "company";
   "next-steps"].

Definition BREAK : string := "pdf-section-break".

(** The body of [breakIds.forEach]: the state is the document and the
    counter [marked]. *)
Definition mark_id (st : node * Z) (id : string) : node * Z :=
  match get_element_by_id id st.1 with
  | Some p => (update p (add_class BREAK) st.1, st.2 + 1)
  | None => st
  end.

(** The gradient section is marked unless it already carries the class. *)
Definition mark_gradient (st : node * Z) : node * Z :=
  match query_selector sel_gradient_section st.1 with
  | Some p =>
      match lookup st.1 p with
      | Some el =>
          if has_class BREAK el then st
          else (update p (add_class BREAK) st.1, st.2 + 1)
      | None => st
      end
  | None => st
  end.

Definition mark_sections (root : node) : node * Z :=
  mark_gradient (foldl mark_id (root, 0) breakIds).

(** *** Recovering the data table from the script text *)

(** One entry of [portfolioData], as the input document writes them: an
    object holding the strings [narrative] and [relevance] and, when it has
    the property, the array of strings [refs] ([None] when it has not). *)
Record entry := mkEntry {
  narrative : string;
  relevance : string;
  refs : option (list string)
}.

Definition marker : string := "const portfolioData = {".

Definition string_drop (n : nat) (s : string) : string :=
  String.substring n (String.length s - n) s.

(** The brace-counting loop, started at index [i] with the text from [i]
    on: the index at which the count returns to zero, if it does. *)
Fixpoint scan_braces (rest : string) (i : nat) (braceCount : Z) : option nat :=
  match rest with
  | EmptyString => None
  | String c rest' =>
      let bc1 := if Ascii.eqb c "{" then braceCount + 1 else braceCount in
      let bc2 := if Ascii.eqb c "}" then bc1 - 1 else bc1 in
      if bc2 =? 0 then Some i else scan_braces rest' (S i) bc2
  end.

(** [endIdx] keeps its initial value [startIdx] when the loop ends without
    a [break]. *)
Definition end_index (txt : string) (startIdx : nat) : nat :=
  default startIdx (scan_braces (string_drop startIdx txt) startIdx 0).

(** [objStr], for [idx] the position of the marker in [txt]. *)
Definition object_source (txt : string) (idx : nat) : string :=
  match String.index idx "{" txt with
  | Some startIdx =>
      String.substring startIdx (end_index txt startIdx + 1 - startIdx) txt
  | None => ""
  end.

(** JavaScript's [trim] on code points below 256: tab, line feed, vertical
    tab, form feed, carriage return, space and no-break space. *)
Definition is_space (c : ascii) : bool :=
  let n := nat_of_ascii c in
  ((9 <=? n) && (n <=? 13) || (n =? 32) || (n =? 160))%nat.

Fixpoint trim_start (s : string) : string :=
  match s with
  | EmptyString => ""
  | String c s' => if is_space c then trim_start s' else s
  end.

Fixpoint trim_end (s : string) : string :=
  match s with
  | EmptyString => ""
  | String c s' =>
      let r := trim_end s' in
      if is_space c && bool_decide (r = "") then "" else String c r
  end.

Definition trim (s : string) : string := trim_end (trim_start s).

(** What the script appends to a card's [.portfolio-info]. *)
Definition ref_tags (rs : list string) : list node :=
  (λ r, new_elem "span" "pdf-ref-tag" r) <$> rs.

Definition refs_block (d : entry) : list node :=
  match refs d with
  | Some (r :: rs) => [Elem "div" [] ["pdf-refs"] (ref_tags (r :: rs))]
  | _ => []
  end.

Definition RELEVANCE_LABEL : string := "Relevance to RHF Project".

Definition info_children (d : entry) : list node :=
  [ new_elem "div" "pdf-narrative" (narrative d);
    new_elem "div" "pdf-relevance-label" RELEVANCE_LABEL;
    new_elem "div" "pdf-relevance" (relevance d) ] ++ refs_block d.

Section Expand.

(** [eval('(' + objStr + ')')] inside [try]: [None] when it throws, the
    table when it yields the object.  The table is looked up by its own
    keys. *)
Variable js_eval : string → option (gmap string entry).

(** The [for (const s of scripts)] loop over the script texts: [continue]
    while the marker is absent, [break] after the first text that has it,
    whatever [eval] made of it. *)
Fixpoint find_table (scripts : list string) : option (gmap string entry) :=
  match scripts with
  | [] => None
  | txt :: rest =>
      match String.index 0 marker txt with
      | None => find_table rest
      | Some idx => js_eval ("(" +:+ object_source txt idx +:+ ")")
      end
  end.

Definition script_texts (root : node) : list string :=
  omap (λ p, text_content <$> lookup root p)
       (query_selector_all sel_inline_script root).

(** The body of [cards.forEach], for the card at address [cp]: the state
    is the document and the counter [count].  Adding a class to the card
    leaves its descendants as they are, so both queries are made on the
    card as it was read. *)
Definition expand_card (tbl : gmap string entry) (st : node * Z) (cp : path)
  : node * Z :=
  match lookup st.1 cp with
  | None => st
  | Some card =>
      match query_selector_in (sel_class "portfolio-name") card with
      | None => st
      | Some np =>
          let name := trim (default "" (text_content <$> lookup card np)) in
          match tbl !! name with
          | None => st
          | Some data =>
              let root1 := update cp (add_class "pdf-expanded") st.1 in
              match query_selector_in (sel_class "portfolio-info") card with
              | None => (root1, st.2)
              | Some ip =>
                  (update (cp ++ ip) (append_children (info_children data))
                          root1,
                   st.2 + 1)
              end
          end
      end
  end.

Definition expand_cards (root : node) : node * Z :=
  match find_table (script_texts root) with
  | None => (root, 0)
  | Some tbl =>
      foldl (expand_card tbl) (root, 0)
            (query_selector_all (sel_class "portfolio-card") root)
  end.

End Expand.

(** The callback seen from the card: the entry its name selects, and what
    the callback makes of the card's own subtree. *)
Definition card_entry (tbl : gmap string entry) (card : node) : option entry :=
  np ← query_selector_in (sel_class "portfolio-name") card;
  tbl !! trim (default "" (text_content <$> lookup card np)).

Definition enrich_card (tbl : gmap string entry) (card : node) : node :=
  match card_entry tbl card with
  | None => card
  | Some data =>
      let card1 := add_class "pdf-expanded" card in
      match query_selector_in (sel_class "portfolio-info") card with
      | None => card1
      | Some ip => update ip (append_children (info_children data)) card1
      end
  end.

Definition enrich_count (tbl : gmap string entry) (card : node) : Z :=
  match card_entry tbl card,
        query_selector_in (sel_class "portfolio-info") card with
  | Some _, Some _ => 1
  | _, _ => 0
  end.

(** How many cards the callback counts, over the cards at [cards]. *)
Definition expanded_total (tbl : gmap string entry) (root : node)
    (cards : list path) : Z :=
  foldr (λ cp acc, from_option (enrich_count tbl) 0 (lookup root cp) + acc)
        0 cards.

End Script.

(** ** The three stages *)

Module Stage.

Import Fs.

(** Arguments of [page.pdf]. *)
Record pdf_options := mkPdfOptions {
  opt_path : path;
  opt_width : string;
  opt_height : string;
  opt_print_background : bool;
  opt_display_header_footer : bool;
  opt_margin_top : string;
  opt_margin_right : string;
  opt_margin_bottom : string;
  opt_margin_left : string;
  opt_prefer_css_page_size : bool
}.

(** Page setup constants. *)
Definition PAGE_WIDTH : string := "8.5in".
Definition PAGE_HEIGHT : string := "14in".
Definition MARGIN_TOP : string := "14mm".
Definition MARGIN_RIGHT : string := "0mm".
Definition MARGIN_BOTTOM : string := pretty (Pdf.FOOTER_H_MM + 4) +:+ "mm".
Definition MARGIN_LEFT : string := "0mm".

Definition SCREENSHOT_DIR : path :=
  ["sessions"; "hopeful-focused-feynman"; "pdf_pages"].

(** [str(pdf_path) + suffix] as a path *)
Definition with_suffix (p : path) (suffix : string) : path :=
  match last p with
  | Some name => parent p ++ [name +:+ suffix]
  | None => [suffix]
  end.

(** [f"page_{i + 1:02d}.png"] *)
Definition page_file_name (i : Z) : string :=
  "page_" +:+ Fmt.fmt_02d (i + 1) +:+ ".png".

Section Pipeline.

(** The directory of the script, [Path(__file__).resolve().parent]. *)
Variable BASE_DIR : path.

(** Glyph advances of the built-in font. *)
Variable helv_advance : ascii → Q.

(** The browser: what the first two scripts (lazy-loading removal and
    style-sheet injection) make of the document, what [eval] returns, and
    the pages the print layout produces.  Nothing below depends on which
    functions these are. *)
Variable prepare : Dom.node → Dom.node.
Variable js_eval : string → option (gmap string Script.entry).
Variable render : Dom.node → pdf_options → Pdf.document.

Definition HTML_PATH : path := BASE_DIR ++ ["index.html"].
Definition OUTPUT_PATH : path :=
  BASE_DIR ++ ["Inkline-RHF-Website-Consolidation-Proposal.pdf"].

(** *** Stage 2: [add_branded_footer] *)

(** [for i in range(total)], over the pages from index [i] on. *)
Fixpoint footer_loop (i total : Z) (pages : list Pdf.page)
  : M (list Pdf.page) :=
  match pages with
  | [] => mret []
  | pg :: rest =>
      t ← now;
      rest' ← footer_loop (i + 1) total rest;
      mret (Pdf.footer_page helv_advance t i total pg :: rest')
  end.

Definition add_branded_footer (pdf_path : path) : M unit :=
  doc ← open_pdf pdf_path;
  let total := Z.of_nat (length doc) in
  doc' ← footer_loop 0 total doc;
  let tmp_out := with_suffix pdf_path ".tmp" in
  save tmp_out (FPdf doc');;
  replace tmp_out pdf_path.

(** *** Stage 3: [screenshot_pages] *)

Fixpoint screenshot_loop (mat : Pdf.matrix) (out_dir : path) (i : Z)
    (pages : list Pdf.page) : M unit :=
  match pages with
  | [] => mret tt
  | pg :: rest =>
      save (out_dir ++ [page_file_name i]) (FPng (Pdf.Pixmap mat pg));;
      screenshot_loop mat out_dir (i + 1) rest
  end.

Definition screenshot_pages (pdf_path out_dir : path) (dpi : Z) : M unit :=
  mkdir_parents out_dir;;
  stale ← glob out_dir;
  for_each unlink stale;;
  doc ← open_pdf pdf_path;
  let zoom := (inject_Z dpi / 72)%Q in
  let mat := Pdf.Matrix zoom zoom in
  screenshot_loop mat out_dir 0 doc.

Definition DEFAULT_DPI : Z := 110.

(** *** Stage 1: the render stage of [generate_pdf] *)

(** [page.goto(file_url)]: the document of the file, which has to be
    there and to be an HTML file. *)
Definition goto (p : path) : M Dom.node :=
  λ w, match files w !! p with
       | Some (FHtml root) => Ok (root, w)
       | Some _ => Raise (FileDataError p)
       | None => Raise (FileNotFoundError p)
       end.

Definition render_options : pdf_options :=
  {| opt_path := OUTPUT_PATH;
     opt_width := PAGE_WIDTH;
     opt_height := PAGE_HEIGHT;
     opt_print_background := true;
     opt_display_header_footer := false;
     opt_margin_top := MARGIN_TOP;
     opt_margin_right := MARGIN_RIGHT;
     opt_margin_bottom := MARGIN_BOTTOM;
     opt_margin_left := MARGIN_LEFT;
     opt_prefer_css_page_size := false |}.

(** [page.pdf(path=..., ...)] *)
Definition page_pdf (root : Dom.node) (o : pdf_options) : M unit :=
  save (opt_path o) (FPdf (render root o)).

(** The render stage returns the two counters it prints. *)
Definition render_stage : M (Z * Z) :=
  root ← goto HTML_PATH;
  let root0 := prepare root in
  let '(root1, marked) := Script.mark_sections root0 in
  let '(root2, expanded) := Script.expand_cards js_eval root1 in
  page_pdf root2 render_options;;
  mret (marked, expanded).

(** The document the export prints: the loaded one after the scripts. *)
Definition printed_dom (root : Dom.node) : Dom.node :=
  (Script.expand_cards js_eval (Script.mark_sections (prepare root)).1).1.

Definition render_counts (root : Dom.node) : Z * Z :=
  ((Script.mark_sections (prepare root)).2,
   (Script.expand_cards js_eval (Script.mark_sections (prepare root)).1).2).

Definition generate_pdf : M unit :=
  render_stage;;
  add_branded_footer OUTPUT_PATH;;
  screenshot_pages OUTPUT_PATH SCREENSHOT_DIR DEFAULT_DPI.

End Pipeline.

End Stage.

(** ** Views used to state the properties *)

Module View.

Import Fs Stage.

Section Footer.

Variable helv_advance : ascii → Q.

(** The pages the loop of [add_branded_footer] produces when the clock
    has been read [t] times before, written without the monad. *)
Fixpoint footer_pages (clk : nat → Clock.datetime) (t : nat) (i total : Z)
    (pages : list Pdf.page) : list Pdf.page :=
  match pages with
  | [] => []
  | pg :: rest =>
      Pdf.footer_page helv_advance (clk t) i total pg ::
      footer_pages clk (S t) (i + 1) total rest
  end.

End Footer.

Definition is_rect_op (o : Pdf.draw_op) : bool :=
  match o with Pdf.DrawRect _ _ _ => true | _ => false end.

Definition is_text_op (o : Pdf.draw_op) : bool :=
  match o with Pdf.InsertText _ _ _ _ _ => true | _ => false end.

Definition count_ops (f : Pdf.draw_op → bool) (ops : list Pdf.draw_op) : nat :=
  length (List.filter f ops).

Definition is_replace (o : op) : bool :=
  match o with OpReplace _ _ => true | _ => false end.

Definition is_save (o : op) : bool :=
  match o with OpSave _ _ => true | _ => false end.

(** The world after [n] further readings of the clock. *)
Definition tick (n : nat) (w : world) : world :=
  mkWorld (dirs w) (files w) (clock w) (ticks w + n) (log w).

(** What [add_branded_footer] needs besides the PDF itself: the directory
    of the file exists, and neither the file's path nor the temporary
    path is a directory. *)
Definition footer_ready (w : world) (pdf_path : path) : bool :=
  is_dir w (parent pdf_path) && negb (is_dir w pdf_path) &&
  negb (is_dir w (with_suffix pdf_path ".tmp")).

(** What [screenshot_pages] needs besides the PDF itself: the PDF is not
    one of the files the stage deletes, no ancestor of the output directory
    is a file, and no directory matches the pattern. *)
Definition screenshot_ready (w : world) (pdf_path out_dir : path) : bool :=
  negb (page_png_in out_dir pdf_path) &&
  forallb (λ q, bool_decide (files w !! q = None)) (prefixes out_dir) &&
  forallb (λ q, negb (page_png_in out_dir q)) (elements (dirs w)).

(** The files [glob] finds in [out_dir]. *)
Definition stale_files (w : world) (out_dir : path) : list path :=
  filter (λ p, page_png_in out_dir p = true) (map_to_list (files w)).*1.

(** The files after the loop of [screenshot_pages] has saved [pages], the
    first of which has index [i], and the calls it logs. *)
Fixpoint shots_files (mat : Pdf.matrix) (out_dir : path) (i : Z)
    (pages : list Pdf.page) (fs : gmap path file) : gmap path file :=
  match pages with
  | [] => fs
  | pg :: rest =>
      shots_files mat out_dir (i + 1) rest
        (<[out_dir ++ [page_file_name i] := FPng (Pdf.Pixmap mat pg)]> fs)
  end.

Fixpoint shots_log (mat : Pdf.matrix) (out_dir : path) (i : Z)
    (pages : list Pdf.page) : list op :=
  match pages with
  | [] => []
  | pg :: rest =>
      OpSave (out_dir ++ [page_file_name i]) (FPng (Pdf.Pixmap mat pg)) ::
      shots_log mat out_dir (i + 1) rest
  end.

Definition delete_all (ps : list path) (fs : gmap path file) : gmap path file :=
  foldl (λ m p, delete p m) fs ps.


(** The world [screenshot_pages] ends in. *)
Definition screenshot_result (w : world) (out_dir : path) (dpi : Z)
    (d : Pdf.document) : world :=
  let zoom := (inject_Z dpi / 72)%Q in
  let mat := Pdf.Matrix zoom zoom in
  let stale := stale_files w out_dir in
  mkWorld (dirs w ∪ list_to_set (prefixes out_dir))
          (shots_files mat out_dir 0 d (delete_all stale (files w)))
          (clock w) (ticks w)
          (log w ++ [OpMkdir out_dir] ++ (OpUnlink <$> stale) ++
           shots_log mat out_dir 0 d).

(** Opening braces minus closing braces in a text. *)
Fixpoint brace_balance (s : string) : Z :=
  match s with
  | EmptyString => 0
  | String c s' =>
      (if Ascii.eqb c "{" then 1 else 0) - (if Ascii.eqb c "}" then 1 else 0) +
      brace_balance s'
  end.

(** The text from index [a] up to and including index [b]. *)
Definition slice (txt : string) (a b : nat) : string :=
  String.substring a (b + 1 - a) txt.

(** The break-section IDs that name an element of the document. *)
Definition present_ids (root : Dom.node) : list string :=
  filter (λ id, is_Some (Dom.get_element_by_id id root)) Script.breakIds.

Section FooterResult.

Variable helv_advance : ascii → Q.

(** The world [add_branded_footer] ends in. *)
Definition footer_result (w : world) (pdf_path : path) (d : Pdf.document)
  : world :=
  let d' := footer_pages helv_advance (clock w) (ticks w) 0
                         (Z.of_nat (length d)) d in
  let tmp := with_suffix pdf_path ".tmp" in
  mkWorld (dirs w)
          (<[pdf_path := FPdf d']> (delete tmp (<[tmp := FPdf d']> (files w))))
          (clock w) (ticks w + length d)
          (log w ++ [OpSave tmp (FPdf d'); OpReplace tmp pdf_path]).

End FooterResult.

End View.

(** ** Sample inputs *)

Module Sample.

Import Fs.

(** Every glyph as wide as a Helvetica digit. *)
Definition adv (c : ascii) : Q := (556 # 1000)%Q.

(** A clock that advances one minute per reading. *)
Definition clk (k : nat) : Clock.datetime :=
  Clock.mkDatetime 2026 11 4 15 (7 + Z.of_nat k) 59 123.

Definition t0 : Clock.datetime := clk 0.

(** A US Legal page, 612 by 1008 points. *)
Definition r0 : Pdf.rect := Pdf.mkRect 0 0 612 1008.
Definition pg0 : Pdf.page := Pdf.mkPage r0 [Pdf.Rendered "q 1 0 0 1 0 0 cm Q"].

Definition base : path := ["home"; "rhf"].
Definition pdf : path := Stage.OUTPUT_PATH base.

(** A world holding a two-page PDF and a stale screenshot. *)
Definition w0 : world :=
  mkWorld {[ ["home"]; base; ["out"] ]}
          {[ pdf := FPdf [pg0; pg0];
             ["out"; "page_07.png"] := FData "stale" ]}
          clk 0 [].

Definition out : path := ["out"].

(** A document with one of the eight break sections, the gradient section,
    one card in the table, one card without [.portfolio-info], and the
    script that carries the table. *)
Definition table_text : string :=
  "{ 'Brock': { narrative: 'A university site.', " +:+
  "relevance: 'Same scale.', refs: ['R1', 'R2'] } }".

Definition script_text : string :=
  "(function(){ const portfolioData = " +:+ table_text +:+ "; })()".

Definition html : Dom.node :=
  Dom.Elem "html" [] []
    [ Dom.Elem "head" [] [] [];
      Dom.Elem "body" [] []
        [ Dom.Elem "section" [("id", "ia")] [] [];
          Dom.Elem "section" [("style", "background: linear-gradient(135deg)")]
                   [] [];
          Dom.Elem "div" [] ["portfolio-card"]
            [ Dom.Elem "h3" [] ["portfolio-name"] [Dom.Text " Brock "];
              Dom.Elem "div" [] ["portfolio-info"] [Dom.Text "About"] ];
          Dom.Elem "div" [] ["portfolio-card"]
            [ Dom.Elem "h3" [] ["portfolio-name"] [Dom.Text "Brock"] ];
          Dom.Elem "script" [] [] [Dom.Text script_text] ] ].

Definition brock : Script.entry :=
  Script.mkEntry "A university site." "Same scale." (Some ["R1"; "R2"]).

(** An [eval] that knows the one object literal of [script_text]. *)
Definition js_eval (src : string) : option (gmap string Script.entry) :=
  if bool_decide (src = "(" +:+ table_text +:+ ")")
  then Some {[ "Brock" := brock ]} else None.

Definition prepare (root : Dom.node) : Dom.node := root.

(** A layout that puts everything on two pages. *)
Definition render (root : Dom.node) (o : Stage.pdf_options) : Pdf.document :=
  [pg0; pg0].

(** A world holding only the HTML source. *)
Definition w_src : world :=
  mkWorld {[ ["home"]; base ]}
          {[ Stage.HTML_PATH base := FHtml html ]}
          clk 0 [].



(** A document with none of the elements the scripts look for, except a
    card that has neither name nor info. *)
Definition bare : Dom.node :=
  Dom.Elem "html" [] []
    [ Dom.Elem "head" [] [] [];
      Dom.Elem "body" [] [] [ Dom.Elem "div" [] ["portfolio-card"] [] ] ].

Definition w_bare : world :=
  mkWorld {[ ["home"]; base ]}
             {[ Stage.HTML_PATH base := FHtml bare ]}
             clk 0 [].

End Sample.

(** ** Views of the whole pipeline *)

Module Whole.

Import Fs Stage View.

(** What [generate_pdf] needs besides the HTML file: what its second and
    third stage need, for the output path and the screenshot directory. *)
Definition pipeline_ready (BASE_DIR : path) (w : world) : bool :=
  footer_ready w (OUTPUT_PATH BASE_DIR) &&
  screenshot_ready w (OUTPUT_PATH BASE_DIR) SCREENSHOT_DIR.

Section Result.

Variable BASE_DIR : path.
Variable helv_advance : ascii → Q.
Variable prepare : Dom.node → Dom.node.
Variable js_eval : string → option (gmap string Script.entry).
Variable render : Dom.node → pdf_options → Pdf.document.

(** The pages the export produces from the document of the HTML file. *)
Definition rendered (root : Dom.node) : Pdf.document :=
  render (printed_dom prepare js_eval root) (render_options BASE_DIR).

(** The same pages after the footer stage, run in the world [w]. *)
Definition footered (w : world) (root : Dom.node) : Pdf.document :=
  footer_pages helv_advance (clock w) (ticks w) 0
               (Z.of_nat (length (rendered root))) (rendered root).

(** The worlds after the first, the second and the third stage. *)
Definition after_render (w : world) (root : Dom.node) : world :=
  set_files (<[OUTPUT_PATH BASE_DIR := FPdf (rendered root)]> (files w))
            (OpSave (OUTPUT_PATH BASE_DIR) (FPdf (rendered root))) w.

Definition after_footer (w : world) (root : Dom.node) : world :=
  footer_result helv_advance (after_render w root) (OUTPUT_PATH BASE_DIR)
                (rendered root).

Definition after_screenshots (w : world) (root : Dom.node) : world :=
  screenshot_result (after_footer w root) SCREENSHOT_DIR DEFAULT_DPI
                    (footered w root).

End Result.

(** How many of the logged calls satisfy [f]. *)
(** What the first three steps of [screenshot_pages] need: no ancestor of
    the output directory is a file and no directory matches the pattern. *)
Definition cleanup_ready (w : world) (out_dir : path) : bool :=
  forallb (λ q, bool_decide (files w !! q = None)) (prefixes out_dir) &&
  forallb (λ q, negb (page_png_in out_dir q)) (elements (dirs w)).

Definition count_ops_log (f : op → bool) (ops : list op) : nat :=
  length (List.filter f ops).

End Whole.

Module SampleRun.

Import Fs.

(** The HTML source together with what an earlier run left behind: a PDF,
    a temporary file and a screenshot of a page the document no longer has. *)
Definition w_old : world :=
  mkWorld {[ ["home"]; Sample.base; ["sessions"];
             ["sessions"; "hopeful-focused-feynman"]; Stage.SCREENSHOT_DIR ]}
          {[ Stage.HTML_PATH Sample.base := FHtml Sample.html;
             Stage.OUTPUT_PATH Sample.base := FData "old";
             Stage.with_suffix (Stage.OUTPUT_PATH Sample.base) ".tmp" :=
               FData "partial";
             Stage.SCREENSHOT_DIR ++ ["page_09.png"] := FData "stale" ]}
          Sample.clk 0 [].

(** The PDF stored under a name the screenshot stage deletes. *)
Definition w_self : world :=
  mkWorld {[ ["out"] ]} {[ ["out"; "page_00.png"] := FPdf [Sample.pg0] ]}
          Sample.clk 0 [].

(** A directory whose name matches the pattern. *)
Definition w_dir : world :=
  mkWorld {[ ["home"]; Sample.base; ["out"]; ["out"; "page_old.png"] ]}
          {[ Sample.pdf := FPdf [Sample.pg0] ]} Sample.clk 0 [].

(** A file where the output directory should be. *)
Definition w_file : world :=
  mkWorld {[ ["home"]; Sample.base ]}
          {[ Sample.pdf := FPdf [Sample.pg0]; ["out"] := FData "notes" ]}
          Sample.clk 0 [].

End SampleRun.

(** ** Views of the document scripts *)

Module Tree.

Import Dom Script.

(** [grows n n'] holds when [n'] is [n] with classes added at the end of
    class lists and nodes added at the end of child lists, and nothing
    else. *)
Fixpoint grows (n n' : node) : bool :=
  match n, n' with
  | Text s, Text s' => bool_decide (s = s')
  | Elem t a cs k, Elem t' a' cs' k' =>
      bool_decide (t = t') && bool_decide (a = a') &&
      bool_decide (cs `prefix_of` cs') &&
      (fix go (ks ks' : list node) : bool :=
         match ks, ks' with
         | [], _ => true
         | x :: r, x' :: r' => grows x x' && go r r'
         | _ :: _, [] => false
         end) k k'
  | _, _ => false
  end.

Fixpoint grows_kids (ks ks' : list node) : bool :=
  match ks, ks' with
  | [], _ => true
  | x :: r, x' :: r' => grows x x' && grows_kids r r'
  | _ :: _, [] => false
  end.

(** The document without the class [c]. *)
Fixpoint erase (c : string) (n : node) : node :=
  match n with
  | Text s => Text s
  | Elem t a cs k =>
      Elem t a (filter (λ x, x ≠ c) cs) (erase c <$> k)
  end.

(** The elements [mark_sections] looks up: one per break-section ID that
    names an element, and the first gradient section. *)
Definition id_targets (root : node) : list path :=
  omap (λ id, get_element_by_id id root) breakIds.

Definition gradient_target (root : node) : option path :=
  query_selector sel_gradient_section root.

Definition targets (root : node) : list path :=
  id_targets root ++ option_list (gradient_target root).

(** Adding the page-break class at one address. *)
Definition mark_at (n : node) (p : path) : node :=
  update p (add_class BREAK) n.

(** Does the second part of the script count the gradient section?  It
    does when the section exists, is none of the elements the loop marked
    and did not carry the class before. *)
Definition gradient_counted (root : node) : bool :=
  match gradient_target root with
  | Some p =>
      negb (bool_decide (p ∈ id_targets root)) &&
      negb (from_option (has_class BREAK) false (lookup root p))
  | None => false
  end.

(** Does the card at [cp] get the blocks, and is it counted?  It is when
    its name is a key of the table and it has a [.portfolio-info]. *)
Definition card_counted (tbl : gmap string entry) (root : node) (cp : path)
  : bool :=
  from_option
    (λ card,
       bool_decide (is_Some (card_entry tbl card)) &&
       bool_decide (is_Some (query_selector_in (sel_class "portfolio-info") card)))
    false (lookup root cp).

(** A document with all eight break sections and a gradient section. *)
Definition all_sections : node :=
  Elem "body" [] []
    (((λ id, Elem "section" [("id", id)] [] []) <$> breakIds) ++
     [Elem "section" [("style", "background: linear-gradient(90deg)")] [] []]).

End Tree.

(** ** The two preparatory scripts *)

Module Prep.

Import Dom.

(** [img[loading="lazy"]] *)
Definition sel_lazy_img (n : node) : bool :=
  bool_decide (tag_of n = Some "img") &&
  bool_decide (attr_of "loading" n = Some "lazy").

(** [el.removeAttribute(name)] *)
Definition remove_attr (name : string) (attrs : list (string * string))
  : list (string * string) :=
  filter (λ kv, kv.1 ≠ name) attrs.

(** [el.setAttribute(name, v)]: the value is replaced where the attribute
    stands, or the attribute is added after the others. *)
Definition set_attr (name v : string) (attrs : list (string * string))
  : list (string * string) :=
  if bool_decide (is_Some (get_attr name attrs))
  then (λ kv, if bool_decide (kv.1 = name) then (name, v) else kv) <$> attrs
  else attrs ++ [(name, v)].

Section Lazy.

(** The getter [img.src]: the URL the browser makes of the content
    attribute, given the attribute's value if it is there. *)
Variable img_src : option string → string.

(** The body of the [forEach]: [removeAttribute('loading')], then [src]
    read, cleared and set again. *)
Definition fix_img (n : node) : node :=
  match n with
  | Elem t a cs k =>
      let a1 := remove_attr "loading" a in
      let src := img_src (get_attr "src" a1) in
      Elem t (set_attr "src" src (set_attr "src" "" a1)) cs k
  | Text s => Text s
  end.

(** The same in one pass over the tree. *)
Fixpoint fix_all (n : node) : node :=
  match n with
  | Elem t a cs k =>
      let n' := Elem t a cs (fix_all <$> k) in
      if sel_lazy_img n then fix_img n' else n'
  | Text s => Text s
  end.

Definition fix_step (st : node * Z) (p : path) : node * Z :=
  (update p fix_img st.1, st.2 + 1).

(** The first script: the document after it and the count it returns. *)
Definition remove_lazy (root : node) : node * Z :=
  foldl fix_step (root, 0) (query_selector_all sel_lazy_img root).

End Lazy.

Section Inject.

(** The browser's parser of HTML fragments, in the context of [head]. *)
Variable parse_fragment : string → list node.

(** [document.head]: the first [head] child of the [html] root element. *)
Definition document_head (root : node) : option path :=
  match root with
  | Elem t _ _ kids =>
      if bool_decide (t = "html")
      then (λ ik, [ik.1]) <$> list_find (λ k, tag_of k = Some "head") kids
      else None
  | Text _ => None
  end.

(** The second script, [document.head.insertAdjacentHTML('beforeend', css)]:
    [None] when there is no head, and the call throws. *)
Definition inject_css (css : string) (root : node) : option node :=
  p ← document_head root;
  Some (update p (append_children (parse_fragment css)) root).

End Inject.

(** The attributes the first script does not touch. *)
Definition other_attrs (attrs : list (string * string))
  : list (string * string) :=
  remove_attr "loading" (remove_attr "src" attrs).

(** Two documents that differ at most in the [loading] and [src]
    attributes of their [img] elements. *)
Fixpoint img_equiv (n n' : node) : bool :=
  match n, n' with
  | Text s, Text s' => bool_decide (s = s')
  | Elem t a cs k, Elem t' a' cs' k' =>
      bool_decide (t = t') && bool_decide (cs = cs') &&
      (if bool_decide (t = "img")
       then bool_decide (other_attrs a = other_attrs a')
       else bool_decide (a = a')) &&
      (fix go (ks ks' : list node) : bool :=
         match ks, ks' with
         | [], [] => true
         | x :: r, x' :: r' => img_equiv x x' && go r r'
         | _, _ => false
         end) k k'
  | _, _ => false
  end.

Fixpoint img_equiv_kids (ks ks' : list node) : bool :=
  match ks, ks' with
  | [], [] => true
  | x :: r, x' :: r' => img_equiv x x' && img_equiv_kids r r'
  | _, _ => false
  end.

(** A selector that does not look at the children of the element. *)
Definition kid_blind (sel : node → bool) : Prop :=
  ∀ t a cs k k', sel (Elem t a cs k) = sel (Elem t a cs k').

(** A selector that cannot tell two such elements apart. *)
Definition img_blind (sel : node → bool) : Prop :=
  ∀ m m', img_equiv m m' = true → sel m = sel m'.

End Prep.

Module PrepSample.

Import Dom.

(** A document with two lazy images, one of them without [src]. *)
Definition gallery : node :=
  Elem "html" [] []
    [ Elem "head" [] [] [];
      Elem "body" [] []
        [ Elem "img" [("src", "logo.png"); ("loading", "lazy"); ("alt", "Logo")]
               ["logo"] [];
          Elem "section" [("id", "scope")] []
            [ Elem "img" [("loading", "lazy")] [] [];
              Elem "img" [("src", "b.png"); ("loading", "eager")] [] [] ] ] ].

Definition file_url (v : option string) : string :=
  match v with
  | Some s => "file:///home/rhf/" +:+ s
  | None => ""
  end.

Definition one_style (css : string) : list node :=
  [Elem "style" [("id", "pdf-print-styles")] [] [Text css]].

End PrepSample.

(** * Properties *)

Example strftime_example :
  Clock.strftime_version (Clock.mkDatetime 2026 11 4 15 7 59 123) =
  "November 04, 2026 at 03:07 PM".
Proof. vm_compute. reflexivity. Qed.

(** ** Paths *)

Section PathFacts.

Import Fs Stage.

Lemma last_parent (p : path) (name : string) :
  last p = Some name → p = parent p ++ [name].
Proof.
  intros H. apply last_Some in H as [l ->].
  unfold parent. by rewrite removelast_last.
Qed.

Lemma parent_snoc (d : path) (name : string) : parent (d ++ [name]) = d.
Proof. unfold parent. apply removelast_last. Qed.

Lemma last_nonempty (p : path) : p ≠ [] → is_Some (last p).
Proof.
  destruct p as [|x p] using rev_ind; [done|].
  intros _. rewrite last_snoc. eauto.
Qed.

Lemma with_suffix_parent (p : path) (s : string) :
  p ≠ [] → parent (with_suffix p s) = parent p.
Proof.
  intros Hp. destruct (last_nonempty p Hp) as [name Hn].
  unfold with_suffix. rewrite Hn. apply parent_snoc.
Qed.

Lemma string_app_length (a b : string) :
  String.length (a +:+ b) = (String.length a + String.length b)%nat.
Proof. induction a as [|c a IH]; simpl; [done|]. by rewrite IH. Qed.

Lemma with_suffix_ne (p : path) (s : string) :
  s ≠ "" → with_suffix p s ≠ p.
Proof.
  intros Hs Heq. unfold with_suffix in Heq.
  destruct (last p) as [name|] eqn:Hn.
  - rewrite (last_parent p name Hn) in Heq at 2.
    apply app_inv_head in Heq. injection Heq as Heq.
    apply (f_equal String.length) in Heq.
    rewrite string_app_length in Heq.
    destruct s; [done|]. simpl in Heq. lia.
  - apply last_None in Hn. by subst.
Qed.

Lemma is_dir_root (w : world) : is_dir w [] = true.
Proof. unfold is_dir. apply bool_decide_eq_true. by left. Qed.

End PathFacts.

(** ** Stage 2 *)

Section FooterFacts.

Import Fs Stage View.

Variable helv_advance : ascii → Q.

Lemma footer_loop_run (pages : list Pdf.page) (i total : Z) (w : world) :
  footer_loop helv_advance i total pages w =
  Ok (footer_pages helv_advance (clock w) (ticks w) i total pages,
      tick (length pages) w).
Proof.
  revert i w. induction pages as [|pg rest IH]; intros i w.
  - simpl. unfold mret, M_ret, ret, tick. destruct w; simpl.
    by rewrite Nat.add_0_r.
  - cbn [footer_loop footer_pages].
    unfold mbind, M_bind, bind, now at 1. cbn.
    unfold mbind, M_bind, bind. rewrite IH. cbn.
    unfold mret, M_ret, ret, tick. cbn.
    do 3 f_equal. lia.
Qed.

Lemma footer_pages_length clk t i total pages :
  length (footer_pages helv_advance clk t i total pages) = length pages.
Proof.
  revert t i. induction pages as [|pg rest IH]; intros t i; simpl; [done|].
  by rewrite IH.
Qed.

Lemma footer_pages_lookup clk t i total pages (k : nat) (pg : Pdf.page) :
  pages !! k = Some pg →
  footer_pages helv_advance clk t i total pages !! k =
  Some (Pdf.footer_page helv_advance (clk (t + k)%nat) (i + Z.of_nat k)
                        total pg).
Proof.
  revert t i k. induction pages as [|p0 rest IH]; intros t i k Hk; [done|].
  destruct k as [|k]; simpl in *.
  - injection Hk as ->. by rewrite Nat.add_0_r, Z.add_0_r.
  - rewrite (IH _ _ _ Hk).
    replace (S t + k)%nat with (t + S k)%nat by lia.
    by replace (i + 1 + Z.of_nat k) with (i + Z.of_nat (S k)) by lia.
Qed.

Lemma add_branded_footer_run (w : world) (pdf_path : path) (d : Pdf.document) :
  files w !! pdf_path = Some (FPdf d) →
  footer_ready w pdf_path = true →
  add_branded_footer helv_advance pdf_path w =
  Ok (tt, footer_result helv_advance w pdf_path d).
Proof.
  intros Hf Hr. unfold footer_ready in Hr.
  apply andb_true_iff in Hr as [Hr Htmp].
  apply andb_true_iff in Hr as [Hpar Hnd].
  apply negb_true_iff in Hnd, Htmp.
  assert (pdf_path ≠ []) as Hne.
  { intros ->. by rewrite is_dir_root in Hnd. }
  unfold add_branded_footer, mbind, M_bind, bind, open_pdf at 1.
  rewrite Hf, footer_loop_run. cbn.
  unfold save at 1, is_dir at 1 2. cbn.
  fold (is_dir w (parent (with_suffix pdf_path ".tmp"))).
  fold (is_dir w (with_suffix pdf_path ".tmp")).
  rewrite (with_suffix_parent _ _ Hne), Hpar, Htmp. cbn.
  unfold replace, set_files, is_dir. cbn.
  rewrite lookup_insert_eq. fold (is_dir w pdf_path). rewrite Hnd.
  unfold footer_result. do 2 f_equal.
  f_equal. by rewrite <- app_assoc.
Qed.

End FooterFacts.

Section FooterClaims.

Import Fs Stage View.

Variable helv_advance : ascii → Q.



End FooterClaims.




(** ** Stage 1: the export *)

Section RenderClaims.

Import Fs Stage View.

Variable BASE_DIR : path.
Variable prepare : Dom.node → Dom.node.
Variable js_eval : string → option (gmap string Script.entry).
Variable render : Dom.node → pdf_options → Pdf.document.

Lemma render_stage_run (w : world) (root : Dom.node) :
  files w !! HTML_PATH BASE_DIR = Some (FHtml root) →
  is_dir w BASE_DIR = true →
  is_dir w (OUTPUT_PATH BASE_DIR) = false →
  render_stage BASE_DIR prepare js_eval render w =
  Ok (render_counts prepare js_eval root,
      set_files
        (<[OUTPUT_PATH BASE_DIR :=
             FPdf (render (printed_dom prepare js_eval root) (render_options BASE_DIR))]>
           (files w))
        (OpSave (OUTPUT_PATH BASE_DIR)
           (FPdf (render (printed_dom prepare js_eval root) (render_options BASE_DIR))))
        w).
Proof.
  intros Hf Hd Ho.
  unfold render_stage, mbind, M_bind, bind, goto at 1. rewrite Hf.
  unfold printed_dom, render_counts.
  destruct (Script.mark_sections (prepare root)) as [root1 marked]. cbn.
  destruct (Script.expand_cards js_eval root1) as [root2 expanded]. cbn.
  unfold page_pdf, save. cbn [opt_path render_options].
  unfold OUTPUT_PATH at 1. rewrite parent_snoc, Hd. cbn.
  by rewrite Ho.
Qed.

(** C7.  Whenever the render stage runs (the HTML file is there and its
    directory can be written to), it exports the PDF to [OUTPUT_PATH] with
    the page 8.5in wide and 14in tall, margins 14mm, 0mm, 14mm and 0mm (top,
    right, bottom, left; the bottom one is the footer's 10mm plus 4mm) and
    [prefer_css_page_size] off, whatever the document holds. *)
Theorem C7_fixed_export_options (w : world) (root : Dom.node) :
  files w !! HTML_PATH BASE_DIR = Some (FHtml root) →
  is_dir w BASE_DIR = true →
  is_dir w (OUTPUT_PATH BASE_DIR) = false →
  ∃ (counts : Z * Z) (w' : world) (printed : Dom.node) (o : pdf_options),
    render_stage BASE_DIR prepare js_eval render w = Ok (counts, w') ∧
    log w' = log w ++ [OpSave (OUTPUT_PATH BASE_DIR) (FPdf (render printed o))] ∧
    files w' !! OUTPUT_PATH BASE_DIR = Some (FPdf (render printed o)) ∧
    o = render_options BASE_DIR ∧
    o = {| opt_path :=
             BASE_DIR ++ ["Inkline-RHF-Website-Consolidation-Proposal.pdf"];
           opt_width := "8.5in";
           opt_height := "14in";
           opt_print_background := true;
           opt_display_header_footer := false;
           opt_margin_top := "14mm";
           opt_margin_right := "0mm";
           opt_margin_bottom := "14mm";
           opt_margin_left := "0mm";
           opt_prefer_css_page_size := false |} ∧
    MARGIN_BOTTOM = pretty (Pdf.FOOTER_H_MM + 4) +:+ "mm" ∧
    Pdf.FOOTER_H_MM = 10.
Proof.
  intros Hf Hd Ho.
  eexists _, _, _, _. split; [by apply render_stage_run|].
  split; [done|]. split; [apply lookup_insert_eq|].
  split; [done|]. split; [|done].
  unfold render_options, OUTPUT_PATH. f_equal.
Qed.

End RenderClaims.

(** ** Decimal numerals *)

Section NumeralFacts.

Import Fmt.

Lemma pretty_Z_nonneg (n : Z) : 0 <= n → pretty n = pretty (Z.to_N n).
Proof. intros Hn. destruct n as [|p|p]; [done|done|lia]. Qed.

Lemma pretty_N_pos (n : N) : (0 < n)%N → pretty n = pretty_N_go n "".
Proof.
  intros Hn. unfold pretty, pretty_N. case_decide; [lia|done].
Qed.

Lemma pretty_N_char_digit (x : N) : is_digit (pretty_N_char x) = true.
Proof. unfold pretty_N_char. by repeat case_match. Qed.

Lemma pretty_N_go_digits (n : N) (s : string) :
  all_chars is_digit s = true → all_chars is_digit (pretty_N_go n s) = true.
Proof.
  revert s. induction (N.lt_wf_0 n) as [n _ IH]; intros s Hs.
  destruct (decide (n = 0%N)) as [->|Hn]; [by rewrite pretty_N_go_0|].
  rewrite pretty_N_go_step by lia. apply IH.
  - apply N.div_lt; lia.
  - simpl. by rewrite pretty_N_char_digit.
Qed.

Lemma pretty_digits (n : Z) : 0 <= n → all_chars is_digit (pretty n) = true.
Proof.
  intros Hn. rewrite pretty_Z_nonneg by done.
  destruct (decide (Z.to_N n = 0%N)) as [->|H0]; [done|].
  rewrite pretty_N_pos by lia. by apply pretty_N_go_digits.
Qed.

(** A number below [10 ^ k] prints with at most [k] digits. *)
Lemma pretty_N_go_length_le (k : nat) (n : N) (s : string) :
  (n < 10 ^ N.of_nat k)%N →
  (String.length (pretty_N_go n s) ≤ k + String.length s)%nat.
Proof.
  revert n s. induction k as [|k IH]; intros n s Hn.
  - assert (n = 0%N) as -> by (simpl in Hn; lia).
    rewrite pretty_N_go_0. lia.
  - destruct (decide (n = 0%N)) as [->|H0].
    { rewrite pretty_N_go_0. lia. }
    rewrite pretty_N_go_step by lia.
    etrans; [apply IH|simpl; lia].
    rewrite Nat2N.inj_succ, N.pow_succ_r' in Hn.
    apply N.Div0.div_lt_upper_bound. lia.
Qed.

Lemma pretty_length_le (k : nat) (n : Z) :
  (1 ≤ k)%nat → 0 <= n < 10 ^ Z.of_nat k →
  (String.length (pretty n) ≤ k)%nat.
Proof.
  intros Hk Hn. rewrite pretty_Z_nonneg by lia.
  destruct (decide (Z.to_N n = 0%N)) as [->|H0]; [simpl; lia|].
  rewrite pretty_N_pos by lia.
  etrans; [apply (pretty_N_go_length_le k)|simpl; lia].
  apply N2Z.inj_lt. rewrite Z2N.id, N2Z.inj_pow, nat_N_Z by lia. lia.
Qed.

(** The numeral of a positive number starts with a non-zero digit. *)
Lemma pretty_N_go_head (n : N) (s : string) :
  (0 < n)%N →
  ∃ c rest, pretty_N_go n s = String c rest ∧ c ≠ "0"%char ∧
            (String.length s ≤ String.length rest)%nat.
Proof.
  revert s. induction (N.lt_wf_0 n) as [n _ IH]; intros s Hn.
  rewrite pretty_N_go_step by done.
  destruct (decide (n `div` 10 = 0)%N) as [Hd|Hd].
  - rewrite Hd, pretty_N_go_0. eexists _, _. split; [done|]. split; [|done].
    assert (n < 10)%N as Hlt.
    { destruct (decide (n < 10)%N) as [|Hge]; [done|].
      assert (1 <= n `div` 10)%N by (apply N.div_le_lower_bound; lia). lia. }
    rewrite N.mod_small by done.
    assert (n = 1 ∨ n = 2 ∨ n = 3 ∨ n = 4 ∨ n = 5 ∨ n = 6 ∨ n = 7 ∨ n = 8
            ∨ n = 9)%N as Hc by lia.
    repeat (destruct Hc as [->|Hc]; [done|]). by subst.
  - destruct (IH (n `div` 10)%N) with (s := String (pretty_N_char (n `mod` 10)) s)
      as (c & rest & Heq & Hc & Hlen).
    + apply N.div_lt; lia.
    + by apply N.neq_0_lt_0.
    + exists c, rest. split; [done|]. split; [done|]. simpl in Hlen. lia.
Qed.

Lemma pretty_head (n : Z) :
  0 < n → ∃ c rest, pretty n = String c rest ∧ c ≠ "0"%char.
Proof.
  intros Hn. rewrite pretty_Z_nonneg, pretty_N_pos by lia.
  destruct (pretty_N_go_head (Z.to_N n) "") as (c & rest & ? & ? & _); [lia|].
  eauto.
Qed.

Lemma zfill_short (s : string) :
  (String.length s = 1)%nat → zfill 2 s = String "0" s.
Proof. intros H. unfold zfill. by rewrite H. Qed.

Lemma zfill_long (k : nat) (s : string) :
  (k ≤ String.length s)%nat → zfill k s = s.
Proof.
  intros H. unfold zfill.
  by replace (k - String.length s)%nat with 0%nat by lia.
Qed.

(** [f"{n:02d}"] tells positive numbers apart. *)
Lemma fmt_02d_inj (a b : Z) : 0 < a → 0 < b → fmt_02d a = fmt_02d b → a = b.
Proof.
  intros Ha Hb. unfold fmt_02d.
  destruct (pretty_head a Ha) as (ca & ra & Hpa & Hca).
  destruct (pretty_head b Hb) as (cb & rb & Hpb & Hcb).
  intros Heq. apply (inj pretty).
  destruct ra as [|ca' ra], rb as [|cb' rb].
  - rewrite !zfill_short in Heq by (by rewrite ?Hpa, ?Hpb). congruence.
  - rewrite zfill_short in Heq by (by rewrite Hpa).
    rewrite zfill_long in Heq by (rewrite Hpb; simpl; lia).
    rewrite Hpb in Heq. congruence.
  - rewrite (zfill_short (pretty b)) in Heq by (by rewrite Hpb).
    rewrite zfill_long in Heq by (rewrite Hpa; simpl; lia).
    rewrite Hpa in Heq. congruence.
  - rewrite !zfill_long in Heq by (rewrite ?Hpa, ?Hpb; simpl; lia). done.
Qed.

End NumeralFacts.

(** ** Stage 3 *)

Section ScreenshotFacts.

Import Fs Stage View.

Lemma find_none_all {A} (f : A → bool) (l : list A) :
  (∀ x, x ∈ l → f x = false) → List.find f l = None.
Proof.
  induction l as [|x l IH]; intros H; [done|]. simpl.
  rewrite (H x) by left. apply IH. intros y Hy. apply H. by right.
Qed.

Lemma forallb_elem_of {A} (f : A → bool) (l : list A) :
  forallb f l = true ↔ ∀ x, x ∈ l → f x = true.
Proof.
  rewrite forallb_forall. split; intros H x Hx; apply H;
    by apply list_elem_of_In.
Qed.

Lemma mkdir_parents_run (d : path) (w : world) :
  forallb (λ q, bool_decide (files w !! q = None)) (prefixes d) = true →
  mkdir_parents d w =
  Ok (tt, mkWorld (dirs w ∪ list_to_set (prefixes d)) (files w) (clock w)
                  (ticks w) (log w ++ [OpMkdir d])).
Proof.
  intros H. unfold mkdir_parents. rewrite find_none_all; [done|].
  intros q Hq. rewrite forallb_elem_of in H.
  apply H, bool_decide_eq_true in Hq. rewrite Hq.
  apply bool_decide_eq_false. by intros [? ?].
Qed.

Lemma prefixes_length (d q : path) :
  q ∈ prefixes d → (length q ≤ length d)%nat.
Proof.
  unfold prefixes. intros (k & -> & _)%list_elem_of_fmap.
  rewrite length_take. lia.
Qed.

Lemma prefixes_self (d : path) : d ≠ [] → d ∈ prefixes d.
Proof.
  intros Hd. unfold prefixes. apply list_elem_of_fmap.
  exists (length d). split; [by rewrite firstn_all|].
  apply elem_of_seq. destruct d; [done|]. simpl. lia.
Qed.

Lemma page_png_in_inv (d p : path) :
  page_png_in d p = true →
  ∃ name, p = d ++ [name] ∧ glob_page_png name = true.
Proof.
  unfold page_png_in. destruct (last p) as [name|] eqn:Hl; [|done].
  intros [Hp Hg]%andb_true_iff. apply bool_decide_eq_true in Hp.
  exists name. split; [|done]. rewrite <- Hp. by apply last_parent.
Qed.

Lemma page_png_in_snoc (d : path) (name : string) :
  page_png_in d (d ++ [name]) = glob_page_png name.
Proof.
  unfold page_png_in. rewrite last_snoc, parent_snoc.
  by rewrite bool_decide_eq_true_2.
Qed.

(** After [mkdir], the output directory is a directory and nothing the
    pattern matches in it is one. *)
Lemma is_dir_after_mkdir_self (w : world) (d : path) :
  bool_decide (d = [] ∨ d ∈ dirs w ∪ list_to_set (prefixes d)) = true.
Proof.
  apply bool_decide_eq_true. destruct (decide (d = [])) as [|Hd]; [by left|].
  right. apply elem_of_union_r, elem_of_list_to_set. by apply prefixes_self.
Qed.

Lemma is_dir_after_mkdir_png (w : world) (d p : path) :
  (∀ q, q ∈ dirs w → page_png_in d q = false) →
  page_png_in d p = true →
  bool_decide (p = [] ∨ p ∈ dirs w ∪ list_to_set (prefixes d)) = false.
Proof.
  intros Hnd Hp. apply bool_decide_eq_false.
  destruct (page_png_in_inv d p Hp) as (name & -> & _).
  intros [Hnil|[Hin|Hin%elem_of_list_to_set]%elem_of_union].
  - by destruct d.
  - apply Hnd in Hin. congruence.
  - apply prefixes_length in Hin. rewrite length_app in Hin. simpl in Hin. lia.
Qed.

Lemma stale_files_spec (w : world) (d p : path) :
  p ∈ stale_files w d ↔ is_Some (files w !! p) ∧ page_png_in d p = true.
Proof.
  unfold stale_files. rewrite list_elem_of_filter, list_elem_of_fmap.
  split.
  - intros (Hp & [q f] & -> & Hin). apply elem_of_map_to_list in Hin. eauto.
  - intros ([f Hf] & Hp). split; [done|]. exists (p, f).
    split; [done|]. by apply elem_of_map_to_list.
Qed.

Lemma stale_files_NoDup (w : world) (d : path) : NoDup (stale_files w d).
Proof. apply NoDup_filter, NoDup_fst_map_to_list. Qed.

Lemma glob_run (d : path) (w : world) :
  (∀ q, q ∈ dirs w → page_png_in d q = false) →
  glob d w = Ok (stale_files w d, w).
Proof.
  intros Hnd. unfold glob, stale_files.
  replace (filter (λ p, page_png_in d p = true) (elements (dirs w)))
    with (@nil path); [by rewrite app_nil_r|].
  symmetry. apply elem_of_nil_inv. intros q [Hq Hin]%list_elem_of_filter.
  apply elem_of_elements, Hnd in Hin. congruence.
Qed.

Lemma delete_all_lookup (ps : list path) (fs : gmap path file) (q : path) :
  delete_all ps fs !! q = if decide (q ∈ ps) then None else fs !! q.
Proof.
  unfold delete_all. revert fs. induction ps as [|p ps IH]; intros fs.
  - destruct (decide (q ∈ [])) as [H|]; [by apply not_elem_of_nil in H|done].
  - cbn [foldl]. rewrite IH. destruct (decide (q = p)) as [->|Hne].
    + rewrite lookup_delete_eq.
      destruct (decide (p ∈ p :: ps)) as [|H]; [by case_decide|].
      exfalso. apply H. by left.
    + rewrite lookup_delete_ne by done.
      destruct (decide (q ∈ ps)) as [Hin|Hin];
        destruct (decide (q ∈ p :: ps)) as [Hin'|Hin']; try done.
      * exfalso. apply Hin'. by right.
      * by apply elem_of_cons in Hin' as [?|?].
Qed.

Lemma for_each_unlink_run (ps : list path) (w : world) :
  NoDup ps →
  (∀ p, p ∈ ps → is_Some (files w !! p) ∧ is_dir w p = false) →
  for_each unlink ps w =
  Ok (tt, mkWorld (dirs w) (delete_all ps (files w)) (clock w) (ticks w)
                  (log w ++ (OpUnlink <$> ps))).
Proof.
  revert w. induction ps as [|p ps IH]; intros w Hnd H.
  - simpl. unfold ret. destruct w. simpl. by rewrite app_nil_r.
  - apply NoDup_cons in Hnd as [Hp Hnd].
    cbn [for_each]. unfold mbind, M_bind, bind, unlink at 1.
    destruct (H p) as [[f Hf] Hd]; [by left|]. rewrite Hd, Hf.
    rewrite IH; [|done|].
    + unfold set_files, delete_all. simpl. by rewrite <- app_assoc.
    + intros q Hq. destruct (H q) as [Hs Hq']; [by right|].
      unfold is_dir, set_files in *. simpl. split; [|done].
      rewrite lookup_delete_ne; [done|]. by intros ->.
Qed.

End ScreenshotFacts.

Section PageNameFacts.

Import Fs Stage View.

Lemma string_app_assoc (a b c : string) : (a +:+ b) +:+ c = a +:+ (b +:+ c).
Proof.
  induction a as [|x a IH]; [done|].
  change (String x ((a +:+ b) +:+ c) = String x (a +:+ (b +:+ c))).
  by f_equal.
Qed.

Lemma string_app_inv_tail (a b c : string) : a +:+ c = b +:+ c → a = b.
Proof.
  revert b. induction a as [|x a IH]; intros [|y b] H.
  - done.
  - apply (f_equal String.length) in H.
    rewrite !string_app_length in H. simpl in H. lia.
  - apply (f_equal String.length) in H.
    rewrite !string_app_length in H. simpl in H. lia.
  - injection H as -> H. f_equal. by apply IH.
Qed.

Lemma substring_all (b : string) : String.substring 0 (String.length b) b = b.
Proof. induction b as [|x b IH]; simpl; [done|]. by rewrite IH. Qed.

Lemma substring_app_tail (a b : string) :
  String.substring (String.length a) (String.length b) (a +:+ b) = b.
Proof. induction a as [|x a IH]; simpl; [apply substring_all|done]. Qed.

Lemma snoc_name_inj (d : path) (a b : string) : d ++ [a] = d ++ [b] → a = b.
Proof. intros H%app_inv_head. by injection H. Qed.

Lemma page_file_name_inj (i j : Z) :
  0 <= i → 0 <= j → page_file_name i = page_file_name j → i = j.
Proof.
  intros Hi Hj. unfold page_file_name. intros H.
  injection H as H.
  apply (string_app_inv_tail (Fmt.fmt_02d (i + 1)) (Fmt.fmt_02d (j + 1))) in H.
  apply fmt_02d_inj in H; lia.
Qed.

Lemma page_file_name_glob (i : Z) : glob_page_png (page_file_name i) = true.
Proof.
  unfold glob_page_png, page_file_name.
  generalize (Fmt.fmt_02d (i + 1)). intros x.
  assert (String.length ("page_" +:+ x +:+ ".png") =
          (String.length ("page_" +:+ x) + 4)%nat) as Hlen.
  { rewrite <- string_app_assoc. by rewrite string_app_length. }
  apply andb_true_iff. split; [apply andb_true_iff; split|].
  - by destruct x.
  - apply Nat.leb_le. rewrite Hlen. simpl. lia.
  - rewrite Hlen. replace (String.length ("page_" +:+ x) + 4 - 4)%nat
      with (String.length ("page_" +:+ x)) by lia.
    rewrite <- string_app_assoc.
    change 4%nat with (String.length ".png") at 1.
    by rewrite substring_app_tail.
Qed.

Lemma screenshot_loop_run (mat : Pdf.matrix) (d : path) (pages : list Pdf.page)
    (i : Z) (w : world) :
  is_dir w d = true →
  (∀ j, is_dir w (d ++ [page_file_name j]) = false) →
  screenshot_loop mat d i pages w =
  Ok (tt, mkWorld (dirs w) (shots_files mat d i pages (files w)) (clock w)
                  (ticks w) (log w ++ shots_log mat d i pages)).
Proof.
  intros Hd Hn. revert i w Hd Hn.
  induction pages as [|pg rest IH]; intros i w Hd Hn.
  - simpl. unfold mret, M_ret, ret. destruct w. simpl. by rewrite app_nil_r.
  - cbn [screenshot_loop shots_files shots_log].
    unfold mbind, M_bind, bind, save at 1.
    rewrite parent_snoc, Hd, Hn. cbn [negb].
    rewrite IH; [|done..].
    unfold set_files. simpl. by rewrite <- app_assoc.
Qed.

(** The loop leaves every other file alone, and page [i + k] sits under
    its own name. *)
Lemma shots_files_other (mat : Pdf.matrix) (d q : path) (pages : list Pdf.page)
    (i : Z) (fs : gmap path file) :
  (∀ k : nat, (k < length pages)%nat → q ≠ d ++ [page_file_name (i + Z.of_nat k)]) →
  shots_files mat d i pages fs !! q = fs !! q.
Proof.
  revert i fs. induction pages as [|pg rest IH]; intros i fs H; [done|].
  simpl. rewrite IH.
  - apply lookup_insert_ne. specialize (H 0%nat). rewrite Z.add_0_r in H.
    intros Heq. apply H; [simpl; lia|done].
  - intros k Hk. specialize (H (S k)).
    replace (i + 1 + Z.of_nat k) with (i + Z.of_nat (S k)) by lia.
    apply H. simpl. lia.
Qed.

Lemma shots_files_page (mat : Pdf.matrix) (d : path) (pages : list Pdf.page)
    (i : Z) (fs : gmap path file) (k : nat) (pg : Pdf.page) :
  0 <= i → pages !! k = Some pg →
  shots_files mat d i pages fs !! (d ++ [page_file_name (i + Z.of_nat k)]) =
  Some (FPng (Pdf.Pixmap mat pg)).
Proof.
  revert i fs k. induction pages as [|p0 rest IH]; intros i fs k Hi Hk; [done|].
  destruct k as [|k]; simpl in Hk |- *.
  - injection Hk as ->. rewrite Z.add_0_r, shots_files_other.
    + apply lookup_insert_eq.
    + intros k _ Heq%snoc_name_inj.
      apply page_file_name_inj in Heq; lia.
  - replace (i + Z.of_nat (S k)) with (i + 1 + Z.of_nat k) by lia.
    apply IH; [lia|done].
Qed.

Lemma shots_log_length mat d i pages :
  length (shots_log mat d i pages) = length pages.
Proof.
  revert i. induction pages as [|pg rest IH]; intros i; simpl; [done|].
  by rewrite IH.
Qed.

Lemma shots_log_saves mat d i pages :
  Forall (λ o, is_save o = true) (shots_log mat d i pages).
Proof.
  revert i. induction pages as [|pg rest IH]; intros i; simpl; [done|].
  constructor; [done|]. apply IH.
Qed.

Lemma shots_log_lookup mat d i pages (k : nat) (pg : Pdf.page) :
  pages !! k = Some pg →
  shots_log mat d i pages !! k =
  Some (OpSave (d ++ [page_file_name (i + Z.of_nat k)])
               (FPng (Pdf.Pixmap mat pg))).
Proof.
  revert i k. induction pages as [|p0 rest IH]; intros i k Hk; [done|].
  destruct k as [|k]; simpl in Hk |- *.
  - injection Hk as ->. by rewrite Z.add_0_r.
  - rewrite (IH _ _ Hk).
    by replace (i + 1 + Z.of_nat k) with (i + Z.of_nat (S k)) by lia.
Qed.

Lemma screenshot_pages_run (w : world) (pdf_path out_dir : path) (dpi : Z)
    (d : Pdf.document) :
  files w !! pdf_path = Some (FPdf d) →
  screenshot_ready w pdf_path out_dir = true →
  screenshot_pages pdf_path out_dir dpi w =
  Ok (tt, screenshot_result w out_dir dpi d).
Proof.
  intros Hf Hr. unfold screenshot_ready in Hr.
  apply andb_true_iff in Hr as [Hr Hdirs].
  apply andb_true_iff in Hr as [Hpdf Hpre].
  apply negb_true_iff in Hpdf.
  assert (∀ q, q ∈ dirs w → page_png_in out_dir q = false) as Hnd.
  { intros q Hq. rewrite forallb_elem_of in Hdirs.
    apply negb_true_iff, Hdirs. by apply elem_of_elements. }
  unfold screenshot_pages, mbind, M_bind, bind.
  rewrite (mkdir_parents_run _ _ Hpre).
  set (w1 := mkWorld _ _ _ _ _).
  assert (∀ p, page_png_in out_dir p = true → is_dir w1 p = false) as Hpng.
  { intros p Hp. by apply is_dir_after_mkdir_png. }
  assert (∀ q, q ∈ dirs w1 → page_png_in out_dir q = false) as Hnd1.
  { intros q Hq. destruct (page_png_in out_dir q) eqn:Hp; [|done].
    apply Hpng in Hp. unfold is_dir in Hp.
    apply bool_decide_eq_false in Hp. exfalso. apply Hp. by right. }
  rewrite (glob_run _ _ Hnd1).
  change (stale_files w1 out_dir) with (stale_files w out_dir).
  rewrite for_each_unlink_run.
  - set (w2 := mkWorld _ _ _ _ _).
    unfold open_pdf at 1. cbn [files w2].
    rewrite delete_all_lookup.
    destruct (decide (pdf_path ∈ stale_files w out_dir)) as [Hin|_].
    { apply stale_files_spec in Hin as [_ Hin]. congruence. }
    cbn [w1 files]. rewrite Hf.
    rewrite screenshot_loop_run.
    + unfold screenshot_result. cbn. do 3 f_equal. by rewrite <- !app_assoc.
    + apply is_dir_after_mkdir_self.
    + intros j. apply (Hpng (out_dir ++ [page_file_name j])).
      rewrite page_png_in_snoc. apply page_file_name_glob.
  - apply stale_files_NoDup.
  - intros p [Hs Hp]%stale_files_spec. split; [done|]. by apply Hpng.
Qed.

End PageNameFacts.

Section ScreenshotClaims.

Import Fs Stage View.


(** C6.  When the file at [pdf_path] is a PDF of [n] pages, the screenshot
    stage at the default 110 dpi completes and leaves, for every page
    number [k + 1] from 1 to [n], the file [page_<k+1 on two digits>.png]
    in the output directory, holding that page rasterized with the scaling
    matrix of zoom 110/72 on both axes; the stage saves exactly [n] files,
    the [k]-th save being the one of page [k + 1]. *)
Theorem C6_one_png_per_page (w : world) (pdf_path out_dir : path)
    (d : Pdf.document) :
  files w !! pdf_path = Some (FPdf d) →
  screenshot_ready w pdf_path out_dir = true →
  ∃ (w' : world) (zoom : Q) (saves : list op),
    screenshot_pages pdf_path out_dir DEFAULT_DPI w = Ok (tt, w') ∧
    DEFAULT_DPI = 110 ∧
    (zoom == 110 / 72)%Q ∧
    (∀ (k : nat) (pg : Pdf.page), d !! k = Some pg →
       files w' !!
         (out_dir ++ ["page_" +:+ Fmt.zfill 2 (pretty (Z.of_nat k + 1)) +:+ ".png"])
       = Some (FPng (Pdf.Pixmap (Pdf.mkMatrix zoom 0 0 zoom 0 0) pg))) ∧
    log w' = log w ++ [OpMkdir out_dir] ++
             (OpUnlink <$> stale_files w out_dir) ++ saves ∧
    length saves = length d ∧
    (∀ (k : nat) (pg : Pdf.page), d !! k = Some pg →
       saves !! k =
       Some (OpSave
               (out_dir ++ ["page_" +:+ Fmt.zfill 2 (pretty (Z.of_nat k + 1)) +:+ ".png"])
               (FPng (Pdf.Pixmap (Pdf.mkMatrix zoom 0 0 zoom 0 0) pg)))).
Proof.
  intros Hf Hr.
  exists (screenshot_result w out_dir DEFAULT_DPI d),
         (inject_Z DEFAULT_DPI / 72)%Q,
         (shots_log (Pdf.Matrix (inject_Z DEFAULT_DPI / 72)
                                (inject_Z DEFAULT_DPI / 72)) out_dir 0 d).
  split; [by apply screenshot_pages_run|].
  split; [done|]. split; [reflexivity|].
  split; [|split; [done|split]].
  - intros k pg Hk. cbn [screenshot_result files].
    by apply (shots_files_page _ out_dir d 0 _ k pg).
  - apply shots_log_length.
  - intros k pg Hk. by apply (shots_log_lookup _ out_dir 0 d k pg).
Qed.


End ScreenshotClaims.

Lemma C6_witness :
  ∃ w', Stage.screenshot_pages Sample.pdf Sample.out Stage.DEFAULT_DPI Sample.w0
        = Fs.Ok (tt, w') ∧
        is_Some (Fs.files w' !! ["out"; "page_01.png"]) ∧
        is_Some (Fs.files w' !! ["out"; "page_02.png"]).
Proof.
  destruct (C6_one_png_per_page Sample.w0 Sample.pdf Sample.out
              [Sample.pg0; Sample.pg0]) as (w' & zoom & saves & H1 & _ & _ & H2 & _).
  - vm_compute. reflexivity.
  - vm_compute. reflexivity.
  - exists w'. split; [exact H1|]. split.
    + eexists. exact (H2 0%nat Sample.pg0 eq_refl).
    + eexists. exact (H2 1%nat Sample.pg0 eq_refl).
Defined.


Lemma C7_witness :
  ∃ counts w',
    Stage.render_stage Sample.base Sample.prepare Sample.js_eval Sample.render
                       Sample.w_src = Fs.Ok (counts, w') ∧
    is_Some (Fs.files w' !! Stage.OUTPUT_PATH Sample.base).
Proof.
  destruct (C7_fixed_export_options Sample.base Sample.prepare Sample.js_eval
              Sample.render Sample.w_src Sample.html)
    as (counts & w' & printed & o & H1 & _ & H2 & _).
  - vm_compute. reflexivity.
  - vm_compute. reflexivity.
  - vm_compute. reflexivity.
  - exists counts, w'. split; [exact H1|]. eexists. exact H2.
Defined.

(** ** Temporary file and replace *)

Section AtomicReplace.

Import Fs Stage View.

Variable BASE_DIR : path.
Variable helv_advance : ascii → Q.
Variable prepare : Dom.node → Dom.node.
Variable js_eval : string → option (gmap string Script.entry).
Variable render : Dom.node → pdf_options → Pdf.document.


End AtomicReplace.


(** ** The version stamp *)

Section ClockFacts.

Import Fmt Clock.



Lemma zeros_length (k : nat) : String.length (zeros k) = k.
Proof. induction k as [|k IH]; simpl; [done|]. by rewrite IH. Qed.

Lemma zfill_length (k : nat) (s : string) :
  (String.length s ≤ k)%nat → String.length (zfill k s) = k.
Proof.
  intros H. unfold zfill. rewrite string_app_length, zeros_length. lia.
Qed.





Lemma fmt_02d_length (n : Z) : 0 <= n < 100 → String.length (fmt_02d n) = 2%nat.
Proof.
  intros Hn. apply zfill_length.
  apply (pretty_length_le 2); [lia|]. by change (10 ^ Z.of_nat 2) with 100.
Qed.

Lemma year_length (y : Z) :
  0 <= y < 10000 → String.length (zfill 4 (pretty y)) = 4%nat.
Proof.
  intros Hy. apply zfill_length.
  apply (pretty_length_le 4); [lia|]. by change (10 ^ Z.of_nat 4) with 10000.
Qed.

Lemma hour12_range (h : Z) : 0 <= h <= 23 → 1 <= hour12 h <= 12.
Proof.
  intros Hh. unfold hour12.
  destruct (Z.eqb_spec (h mod 12) 0); [lia|].
  pose proof (Z.mod_pos_bound h 12). lia.
Qed.


Lemma month_name_length (m : Z) : (String.length (month_name m) ≤ 9)%nat.
Proof.
  destruct m as [|p|p]; try (simpl; lia).
  do 4 (destruct p as [p|p|]; try (simpl; lia)).
Qed.


Lemma stamp_tail_length (d : datetime) :
  valid d → String.length (stamp_tail d) = 21%nat.
Proof.
  intros (Hy & Hm & Hd & Hh & Hmi & _). unfold stamp_tail.
  pose proof (hour12_range _ Hh).
  rewrite !string_app_length, !fmt_02d_length, year_length by lia.
  unfold am_pm. by destruct (hour d <? 12).
Qed.

Lemma strftime_version_length (d : datetime) :
  valid d → (String.length (strftime_version d) ≤ 30)%nat.
Proof.
  intros Hv. change (strftime_version d) with (month_name (month d) +:+ stamp_tail d).
  rewrite string_app_length, stamp_tail_length by done.
  pose proof (month_name_length (month d)). lia.
Qed.


End ClockFacts.

(** ** Footer geometry *)

Section FooterText.

Import Fmt Clock Pdf.

Lemma all_chars_app (p : ascii → bool) (a b : string) :
  all_chars p (a +:+ b) = all_chars p a && all_chars p b.
Proof.
  induction a as [|x a IH]; [done|].
  change (p x && all_chars p (a +:+ b) = p x && all_chars p a && all_chars p b).
  rewrite IH. by rewrite andb_assoc.
Qed.

Lemma all_chars_impl (p q : ascii → bool) (s : string) :
  (∀ c, p c = true → q c = true) →
  all_chars p s = true → all_chars q s = true.
Proof.
  intros Hpq. induction s as [|x s IH]; [done|]. simpl.
  intros [Hx Hs]%andb_true_iff. by rewrite (Hpq _ Hx), IH.
Qed.

Lemma digit_footer_char (c : ascii) : is_digit c = true → footer_char c = true.
Proof. intros H. unfold footer_char. by rewrite H. Qed.

Lemma zeros_chars (k : nat) : all_chars footer_char (zeros k) = true.
Proof. induction k as [|k IH]; [done|]. simpl. by rewrite IH. Qed.

Lemma zfill_pretty_chars (k : nat) (n : Z) :
  0 <= n → all_chars footer_char (zfill k (pretty n)) = true.
Proof.
  intros Hn. unfold zfill. rewrite all_chars_app, zeros_chars. simpl.
  apply (all_chars_impl is_digit); [apply digit_footer_char|].
  by apply pretty_digits.
Qed.

Lemma pretty_chars (n : Z) : 0 <= n → all_chars footer_char (pretty n) = true.
Proof.
  intros Hn. apply (all_chars_impl is_digit); [apply digit_footer_char|].
  by apply pretty_digits.
Qed.

Lemma month_name_chars (m : Z) : all_chars footer_char (month_name m) = true.
Proof.
  destruct m as [|p|p]; try done.
  do 4 (destruct p as [p|p|]; try done).
Qed.

Lemma strftime_version_chars (d : datetime) :
  valid d → all_chars footer_char (strftime_version d) = true.
Proof.
  intros (Hy & Hm & Hd & Hh & Hmi & _). unfold strftime_version, fmt_02d.
  pose proof (hour12_range _ Hh).
  rewrite !all_chars_app, month_name_chars, !zfill_pretty_chars by lia.
  unfold am_pm. by destruct (hour d <? 12).
Qed.

Lemma footer_prefix_chars (d : datetime) :
  valid d → all_chars footer_char (footer_prefix d) = true.
Proof.
  intros Hv. unfold footer_prefix.
  by rewrite !all_chars_app, strftime_version_chars.
Qed.

Lemma footer_pgtxt_chars (i total : Z) :
  0 <= i → 0 <= total → all_chars footer_char (footer_pgtxt i total) = true.
Proof.
  intros Hi Ht. unfold footer_pgtxt.
  by rewrite !all_chars_app, !pretty_chars by lia.
Qed.

Lemma footer_prefix_length (d : datetime) :
  valid d → (String.length (footer_prefix d) ≤ 44)%nat.
Proof.
  intros Hv. unfold footer_prefix. rewrite !string_app_length.
  pose proof (strftime_version_length d Hv). simpl. lia.
Qed.

Lemma footer_pgtxt_length (i total : Z) :
  0 <= i < total → total < 2 ^ 31 →
  (String.length (footer_pgtxt i total) ≤ 29)%nat.
Proof.
  intros Hi Ht. unfold footer_pgtxt. rewrite !string_app_length.
  assert (String.length (pretty (i + 1)%Z) ≤ 10)%nat.
  { apply (pretty_length_le 10); [lia|].
    change (10 ^ Z.of_nat 10) with 10000000000. lia. }
  assert (String.length (pretty total) ≤ 10)%nat.
  { apply (pretty_length_le 10); [lia|].
    change (10 ^ Z.of_nat 10) with 10000000000. lia. }
  simpl. lia.
Qed.

Section Advance.

Variable helv_advance : ascii → Q.
Hypothesis advance_bounds :
  ∀ c, footer_char c = true → (0 <= helv_advance c <= 1)%Q.

Lemma advance_sum_bounds (s : string) :
  all_chars footer_char s = true →
  (0 <= advance_sum helv_advance s <=
   inject_Z (Z.of_nat (String.length s)))%Q.
Proof.
  induction s as [|c s IH]; intros Hs.
  - simpl. split; apply Qle_refl.
  - simpl in Hs. apply andb_true_iff in Hs as [Hc Hs].
    destruct (IH Hs) as [IH1 IH2]. destruct (advance_bounds c Hc) as [Hc1 Hc2].
    cbn [advance_sum String.length].
    rewrite Nat2Z.inj_succ. unfold Z.succ. rewrite inject_Z_plus.
    change (inject_Z 1) with 1%Q. split; lra.
Qed.

Lemma text_length_bounds (s : string) (k : nat) :
  all_chars footer_char s = true → (String.length s ≤ k)%nat →
  (0 <= get_text_length helv_advance s 6.5 <=
   inject_Z (Z.of_nat k) * 6.5)%Q.
Proof.
  intros Hs Hk. destruct (advance_sum_bounds s Hs) as [H1 H2].
  assert (inject_Z (Z.of_nat (String.length s)) <= inject_Z (Z.of_nat k))%Q
    as H3 by (rewrite <- Zle_Qle; lia).
  unfold get_text_length. split; nra.
Qed.

End Advance.

End FooterText.

Section FooterBounds.

Import Fmt Clock Pdf.

Variable helv_advance : ascii → Q.

(** C8.  On a page of 612 by 1008 points every footer text is inserted
    inside the strip [Rect(0, height - FOOTER_H_PT, width, height)]: the
    left text at x = 28; the right-hand text at
    [rx = width - 28 - pw - gw], which is not negative and lies to the
    right of 28, its second part starting at [rx + pw]; and all of them on
    the baseline [height - FOOTER_H_PT / 2 + 2], strictly between the top
    of the strip and the bottom of the page.  This holds for a font whose
    glyphs for the footer's characters are between 0 and 1 font size wide,
    for a clock reading in the range of [datetime], and for a page count
    that fits the PDF library's 32-bit integer.  The last three bounds say
    by how much: none of the inequalities is closer than 12 points. *)
Theorem C8_footer_text_within_strip (pg : page) (now : datetime)
    (i total : Z) :
  (∀ c, footer_char c = true → (0 <= helv_advance c <= 1)%Q) →
  valid now →
  0 <= i < total → total < 2 ^ 31 →
  (width (page_rect pg) == 612)%Q →
  (height (page_rect pg) == 1008)%Q →
  let r := page_rect pg in
  let strip := mkRect 0 (height r - FOOTER_H_PT)%Q (width r) (height r) in
  let pw := get_text_length helv_advance (footer_prefix now) 6.5%Q in
  let gw := get_text_length helv_advance (footer_pgtxt i total) 6.5%Q in
  let rx := (width r - 28 - pw - gw)%Q in
  let cy := (height r - FOOTER_H_PT / 2 + 2)%Q in
  contents (footer_page helv_advance now i total pg) =
    contents pg ++
    [ DrawRect strip None (Some BLACK);
      InsertText (mkPoint 28 cy) left_txt "helv" 6.5%Q GREY_MED;
      InsertText (mkPoint rx cy) (footer_prefix now) "helv" 6.5%Q GREY_MED;
      InsertText (mkPoint (rx + pw)%Q cy) (footer_pgtxt i total) "helv" 6.5%Q
                 CERULEAN ] ∧
  (x0 strip <= 28 <= x1 strip)%Q ∧
  (x0 strip <= rx <= x1 strip)%Q ∧
  (x0 strip <= rx + pw <= x1 strip)%Q ∧
  (0 <= rx)%Q ∧ (28 < rx)%Q ∧
  (y0 strip < cy < y1 strip)%Q ∧
  (109 <= rx)%Q ∧ (rx + pw <= x1 strip - 28)%Q ∧
  (y0 strip + 16 <= cy <= y1 strip - 12)%Q.
Proof.
  intros Hadv Hnow Hi Htotal Hw Hh. cbv zeta. split; [done|].
  cbn [x0 x1 y0 y1].
  destruct (text_length_bounds helv_advance Hadv (footer_prefix now) 44)
    as [Hp1 Hp2];
    [by apply footer_prefix_chars|by apply footer_prefix_length|].
  destruct (text_length_bounds helv_advance Hadv (footer_pgtxt i total) 29)
    as [Hg1 Hg2];
    [apply footer_pgtxt_chars; lia|by apply footer_pgtxt_length|].
  change (inject_Z (Z.of_nat 44)) with 44%Q in Hp2.
  change (inject_Z (Z.of_nat 29)) with 29%Q in Hg2.
  assert (28 < FOOTER_H_PT)%Q as HF1 by reflexivity.
  assert (FOOTER_H_PT < 29)%Q as HF2 by reflexivity.
  assert (FOOTER_H_PT / 2 == FOOTER_H_PT * (1 # 2))%Q as HF3 by reflexivity.
  revert Hp1 Hp2 Hg1 Hg2.
  generalize (get_text_length helv_advance (footer_prefix now) 6.5).
  generalize (get_text_length helv_advance (footer_pgtxt i total) 6.5).
  intros gw pw Hp1 Hp2 Hg1 Hg2.
  rewrite HF3, Hw, Hh.
  repeat split; lra.
Qed.

End FooterBounds.

Lemma C8_witness :
  (28 < Pdf.footer_rx Sample.adv Sample.r0 Sample.t0 0 2)%Q.
Proof.
  pose proof (C8_footer_text_within_strip Sample.adv Sample.pg0 Sample.t0 0 2)
    as H.
  cbv zeta in H.
  destruct H as (_ & _ & _ & _ & _ & H & _).
  - intros c _. unfold Sample.adv. split; vm_compute; discriminate.
  - unfold Clock.valid. vm_compute. intuition discriminate.
  - lia.
  - reflexivity.
  - reflexivity.
  - reflexivity.
  - exact H.
Defined.

(** ** The clock and the footer *)

Section ClockClaims.

Import Fs Stage View Clock Pdf.

Variable helv_advance : ascii → Q.






End ClockClaims.



(** ** The document tree *)

Section DomFacts.

Import Dom.

(** Induction over the tree, with the hypothesis for every child. *)
Lemma node_ind (P : node → Prop) :
  (∀ t a cs k, Forall P k → P (Elem t a cs k)) →
  (∀ s, P (Text s)) →
  ∀ n, P n.
Proof.
  intros HE HT. fix IH 1. intros [t a cs k|s]; [|apply HT].
  apply HE. induction k as [|x k IHk]; constructor; [apply IH|apply IHk].
Qed.

Lemma select_Elem (sel : node → bool) t a cs k :
  select sel (Elem t a cs k) =
  (if sel (Elem t a cs k) then [[]] else []) ++ select_kids sel 0 k.
Proof.
  cbn [select]. f_equal. generalize 0%nat.
  induction k as [|x k IH]; intros i; [done|].
  cbn [select_kids]. by rewrite IH.
Qed.

Lemma select_kids_elem (sel : node → bool) (i : nat) (k : list node) (p : path) :
  p ∈ select_kids sel i k ↔
  ∃ (j : nat) (x : node) (p' : path),
    p = (i + j)%nat :: p' ∧ k !! j = Some x ∧ p' ∈ select sel x.
Proof.
  revert i. induction k as [|x k IH]; intros i.
  - cbn [select_kids]. split; [by intros ?%elem_of_nil|].
    by intros (j & y & p' & _ & ? & _).
  - cbn [select_kids]. rewrite elem_of_app, list_elem_of_fmap, IH. split.
    + intros [(p' & -> & Hp')|(j & y & p' & -> & Hj & Hp')].
      * exists 0%nat, x, p'. by rewrite Nat.add_0_r.
      * exists (S j), y, p'. split; [f_equal; lia|done].
    + intros (j & y & p' & -> & Hj & Hp'). destruct j as [|j].
      * left. exists p'. rewrite Nat.add_0_r. simpl in Hj. by simplify_eq.
      * right. exists j, y, p'. split; [f_equal; lia|done].
Qed.

(** What [select] returns are the addresses of the matching elements. *)
Lemma select_valid (sel : node → bool) (n : node) (p : path) :
  p ∈ select sel n → ∃ m, lookup n p = Some m ∧ sel m = true.
Proof.
  revert p. induction n as [t a cs k IH|s] using node_ind; intros p Hp.
  - rewrite select_Elem, elem_of_app in Hp. destruct Hp as [Hp|Hp].
    + destruct (sel (Elem t a cs k)) eqn:Hs; [|by apply elem_of_nil in Hp].
      apply list_elem_of_singleton in Hp as ->. eauto.
    + apply select_kids_elem in Hp as (j & x & p' & -> & Hj & Hp').
      rewrite Forall_forall in IH.
      destruct (IH x) with (p := p') as (m & Hm & Hsel); [|done|].
      { by eapply list_elem_of_lookup_2. }
      exists m. split; [|done]. cbn [lookup kids_of]. simpl. by rewrite Hj.
  - by apply elem_of_nil in Hp.
Qed.



Lemma lookup_app (n : node) (p q : path) :
  lookup n (p ++ q) = lookup n p ≫= λ m, lookup m q.
Proof.
  revert n. induction p as [|i p IH]; intros n; [done|].
  cbn [app lookup]. destruct (kids_of n !! i) as [x|]; [|done].
  simpl. apply IH.
Qed.

Lemma lookup_update (p : path) (f : node → node) (n : node) :
  lookup (update p f n) p = f <$> lookup n p.
Proof.
  revert n. induction p as [|i p IH]; intros n; [done|].
  destruct n as [t a cs k|s]; [|by destruct i].
  cbn [update lookup kids_of]. rewrite list_lookup_alter_eq.
  destruct (k !! i) as [x|]; simpl; [apply IH|done].
Qed.

Lemma apart_cons (i j : nat) (p q : path) :
  apart (i :: p) (j :: q) = true → i ≠ j ∨ (i = j ∧ apart p q = true).
Proof.
  unfold apart. rewrite !andb_true_iff, !negb_true_iff, !bool_decide_eq_false.
  intros [H1 H2]. destruct (decide (i = j)) as [->|]; [right|by left].
  split; [done|]. split; intros Hp; [apply H1|apply H2]; by apply prefix_cons.
Qed.

Lemma apart_nonempty (p q : path) : apart p q = true → p ≠ [] ∧ q ≠ [].
Proof.
  unfold apart. rewrite !andb_true_iff, !negb_true_iff, !bool_decide_eq_false.
  intros [H1 H2]. split; intros ->; [apply H1|apply H2]; apply prefix_nil.
Qed.

(** An update in one subtree is not seen in another. *)
Lemma lookup_update_apart (p q : path) (f : node → node) (n : node) :
  apart p q = true → lookup (update p f n) q = lookup n q.
Proof.
  revert q n. induction p as [|i p IH]; intros q n Hpq.
  { by apply apart_nonempty in Hpq as [? _]. }
  destruct q as [|j q]; [by apply apart_nonempty in Hpq as [_ ?]|].
  destruct n as [t a cs k|s]; [|by destruct i].
  cbn [update lookup kids_of].
  apply apart_cons in Hpq as [Hne|[-> Hpq]].
  - by rewrite list_lookup_alter_ne.
  - rewrite list_lookup_alter_eq. destruct (k !! j) as [x|]; simpl; [|done].
    by apply IH.
Qed.

Lemma list_alter_at {A} (g h : A → A) (i : nat) (k : list A) :
  (∀ x, k !! i = Some x → g x = h x) → alter g i k = alter h i k.
Proof.
  revert i. induction k as [|y k IH]; intros i H; [done|].
  destruct i as [|i]; simpl.
  - f_equal. by apply H.
  - f_equal. apply IH. intros x Hx. by apply H.
Qed.

Lemma list_alter_same {A} (g : A → A) (i : nat) (k : list A) :
  (∀ x, k !! i = Some x → g x = x) → alter g i k = k.
Proof.
  revert i. induction k as [|y k IH]; intros i H; [done|].
  destruct i as [|i]; simpl.
  - f_equal. by apply H.
  - f_equal. apply IH. intros x Hx. by apply H.
Qed.

(** [update] only looks at the node it reaches. *)
Lemma update_at (p : path) (f g : node → node) (n : node) :
  (∀ m, lookup n p = Some m → f m = g m) → update p f n = update p g n.
Proof.
  revert n. induction p as [|i p IH]; intros n H; [by apply H|].
  destruct n as [t a cs k|s]; [|by destruct i].
  cbn [update]. f_equal. apply list_alter_at. intros x Hx. apply IH.
  intros m Hm. apply H. simpl. by rewrite Hx.
Qed.

Lemma update_same (p : path) (f : node → node) (n : node) :
  (∀ m, lookup n p = Some m → f m = m) → update p f n = n.
Proof.
  revert n. induction p as [|i p IH]; intros n H; [by apply H|].
  destruct n as [t a cs k|s]; [|by destruct i].
  cbn [update]. f_equal. apply list_alter_same. intros x Hx. apply IH.
  intros m Hm. apply H. simpl. by rewrite Hx.
Qed.

(** Two updates along one address are one update. *)
Lemma update_update (p q : path) (g h : node → node) (n : node) :
  update (p ++ q) g (update p h n) = update p (λ c, update q g (h c)) n.
Proof.
  revert n. induction p as [|i p IH]; intros n; [done|].
  destruct n as [t a cs k|s]; [|by destruct i].
  cbn [app update]. f_equal. rewrite list_alter_alter_eq.
  apply list_alter_at. intros x _. apply IH.
Qed.

End DomFacts.

(** ** The card script *)

Section CardFacts.

Import Dom Script.

Lemma apart_sym (p q : path) : apart p q = apart q p.
Proof. unfold apart. apply andb_comm. Qed.

(** The callback is a change of the card's own subtree. *)
Lemma expand_card_update (tbl : gmap string entry) (st : node * Z) (cp : path)
    (card : node) :
  lookup st.1 cp = Some card →
  expand_card tbl st cp =
  (update cp (enrich_card tbl) st.1, st.2 + enrich_count tbl card).
Proof.
  intros Hc. destruct st as [root count]. simpl in Hc |- *.
  unfold expand_card. cbn [fst snd]. rewrite Hc.
  assert (∀ f, (f card = enrich_card tbl card) →
               update cp f root = update cp (enrich_card tbl) root) as Hup.
  { intros f Hf. apply update_at. intros m Hm. congruence. }
  assert (enrich_card tbl card = card →
          root = update cp (enrich_card tbl) root) as Hid.
  { intros Hf. symmetry. apply update_same. intros m Hm. congruence. }
  unfold enrich_count. unfold enrich_card in Hup, Hid. unfold card_entry in *.
  destruct (query_selector_in (sel_class "portfolio-name") card) as [np|];
    cbn [mbind option_bind] in *.
  - destruct (tbl !! trim (default "" (text_content <$> lookup card np)))
      as [data|].
    + destruct (query_selector_in (sel_class "portfolio-info") card) as [ip|].
      * rewrite update_update. f_equal. by apply Hup.
      * rewrite Z.add_0_r. f_equal. by apply Hup.
    + rewrite Z.add_0_r. f_equal. by apply Hid.
  - rewrite Z.add_0_r. f_equal. by apply Hid.
Qed.

Lemma expanded_total_ext tbl root1 root2 cards :
  (∀ cp, cp ∈ cards → lookup root1 cp = lookup root2 cp) →
  expanded_total tbl root1 cards = expanded_total tbl root2 cards.
Proof.
  induction cards as [|c rest IH]; intros H; [done|].
  simpl. rewrite (H c) by left. f_equal. apply IH. intros cp Hcp. apply H.
  by right.
Qed.

Lemma expand_fold (tbl : gmap string entry) (cards : list path)
    (st : node * Z) :
  all_apart cards = true →
  (∀ cp, cp ∈ cards → is_Some (lookup st.1 cp)) →
  (∀ q, (∀ cp, cp ∈ cards → apart cp q = true) →
        lookup (foldl (expand_card tbl) st cards).1 q = lookup st.1 q) ∧
  (∀ cp card, cp ∈ cards → lookup st.1 cp = Some card →
        lookup (foldl (expand_card tbl) st cards).1 cp =
        Some (enrich_card tbl card)) ∧
  (foldl (expand_card tbl) st cards).2 =
  st.2 + expanded_total tbl st.1 cards.
Proof.
  revert st. induction cards as [|c rest IH]; intros st Hap Hval.
  { simpl. split; [done|]. split; [by intros ?? ?%elem_of_nil|lia]. }
  cbn [all_apart] in Hap. apply andb_true_iff in Hap as [Hc Hrest].
  rewrite forallb_elem_of in Hc.
  destruct (Hval c) as [card Hcard]; [by left|].
  cbn [foldl]. rewrite (expand_card_update tbl st c card Hcard).
  set (st1 := (update c (enrich_card tbl) st.1, st.2 + enrich_count tbl card)).
  assert (∀ cp, cp ∈ rest → lookup st1.1 cp = lookup st.1 cp) as Hsame.
  { intros cp Hcp. apply lookup_update_apart. by apply Hc. }
  destruct (IH st1 Hrest) as (IH1 & IH2 & IH3).
  { intros cp Hcp. rewrite Hsame by done. apply Hval. by right. }
  split; [|split].
  - intros q Hq. rewrite IH1.
    + apply lookup_update_apart. apply Hq. by left.
    + intros cp Hcp. apply Hq. by right.
  - intros cp card' [->|Hcp]%elem_of_cons Hl.
    + rewrite IH1.
      * cbn [st1 fst]. rewrite lookup_update, Hl. done.
      * intros cp Hcp. rewrite apart_sym. by apply Hc.
    + apply IH2; [done|]. by rewrite Hsame.
  - rewrite IH3. cbn [st1 fst snd expanded_total foldr]. rewrite Hcard.
    cbn [from_option].
    rewrite (expanded_total_ext tbl _ st.1 rest) by done.
    unfold expanded_total. lia.
Qed.

End CardFacts.

(** ** Recovering the table *)

Section TableFacts.

Import Script View.

Lemma index_ge (n m : nat) (s1 s2 : string) :
  String.index n s1 s2 = Some m → (n ≤ m)%nat.
Proof.
  revert n m. induction s2 as [|b s2 IH]; intros n m H.
  - destruct n; simpl in H; [|done]. destruct s1; simplify_eq. lia.
  - destruct n as [|n]; [lia|]. cbn [String.index] in H.
    destruct (String.index n s1 s2) as [k|] eqn:Hk; [|done].
    apply IH in Hk. simplify_eq. lia.
Qed.

Lemma substring_length (n m : nat) (s : string) :
  String.length (String.substring n m s) = (m `min` (String.length s - n))%nat.
Proof.
  revert n m. induction s as [|c s IH]; intros n m.
  - destruct n, m; simpl; lia.
  - destruct n as [|n].
    + destruct m as [|m]; [done|]. cbn [String.substring String.length].
      rewrite IH. lia.
    + cbn [String.substring String.length]. rewrite IH. lia.
Qed.

Lemma string_drop_cons (n : nat) (c : ascii) (s : string) :
  string_drop (S n) (String c s) = string_drop n s.
Proof. done. Qed.

Lemma substring_drop (n m : nat) (s : string) :
  String.substring 0 m (string_drop n s) = String.substring n m s.
Proof.
  revert n m. induction s as [|c s IH]; intros n m.
  - by destruct n, m.
  - destruct n as [|n].
    + unfold string_drop. by rewrite Nat.sub_0_r, substring_all.
    + rewrite string_drop_cons. cbn [String.substring]. apply IH.
Qed.

Lemma string_drop_length (n : nat) (s : string) :
  String.length (string_drop n s) = (String.length s - n)%nat.
Proof. unfold string_drop. rewrite substring_length. lia. Qed.

(** The loop stops at the first index at which the braces seen since its
    start, added to the initial count, balance. *)
Lemma scan_braces_spec (rest : string) (i : nat) (bc : Z) (e : nat) :
  scan_braces rest i bc = Some e ↔
  ∃ k : nat,
    e = (i + k)%nat ∧ (k < String.length rest)%nat ∧
    bc + brace_balance (String.substring 0 (S k) rest) = 0 ∧
    ∀ k' : nat, (k' < k)%nat →
      bc + brace_balance (String.substring 0 (S k') rest) ≠ 0.
Proof.
  revert i bc. induction rest as [|c rest IH]; intros i bc.
  { split; [done|]. intros (k & _ & Hk & _). simpl in Hk. lia. }
  cbn [scan_braces].
  set (bc2 := if Ascii.eqb c "}" then (if Ascii.eqb c "{" then bc + 1 else bc) - 1
              else (if Ascii.eqb c "{" then bc + 1 else bc)).
  assert (bc2 = bc + ((if Ascii.eqb c "{" then 1 else 0) -
                      (if Ascii.eqb c "}" then 1 else 0))) as Hbc2.
  { unfold bc2. destruct (Ascii.eqb c "{"), (Ascii.eqb c "}"); lia. }
  assert (∀ k, bc + brace_balance (String.substring 0 (S k) (String c rest)) =
               bc2 + brace_balance (String.substring 0 k rest)) as Hstep.
  { intros k. cbn [String.substring brace_balance]. lia. }
  destruct (Z.eqb_spec bc2 0) as [H0|H0].
  - split.
    + intros [= <-]. exists 0%nat. split; [lia|]. split; [simpl; lia|].
      split; [|lia]. rewrite Hstep. destruct rest; simpl; lia.
    + intros (k & -> & _ & _ & Hmin). destruct k as [|k]; [f_equal; lia|].
      exfalso. apply (Hmin 0%nat); [lia|].
      rewrite Hstep. destruct rest; simpl; lia.
  - rewrite IH. split.
    + intros (k & -> & Hk & Hb & Hmin). exists (S k).
      split; [lia|]. split; [simpl; lia|]. split; [by rewrite Hstep|].
      intros k' Hk'. rewrite Hstep. destruct k' as [|k'].
      * destruct rest; simpl; lia.
      * apply Hmin. lia.
    + intros (k & -> & Hk & Hb & Hmin). destruct k as [|k].
      { rewrite Hstep in Hb. exfalso. destruct rest; simpl in Hb; lia. }
      exists k. split; [lia|]. split; [simpl in Hk; lia|].
      split; [by rewrite <- Hstep|].
      intros k' Hk'. rewrite <- Hstep. apply Hmin. lia.
Qed.


(** When the braces never balance, [objStr] is the opening brace alone. *)
Lemma object_source_unbalanced (txt : string) (idx a : nat) :
  String.index idx "{" txt = Some a →
  (∀ e : nat, (a ≤ e < String.length txt)%nat →
     brace_balance (slice txt a e) ≠ 0) →
  object_source txt idx = slice txt a a.
Proof.
  intros Ha Hnone. unfold object_source, end_index. rewrite Ha.
  destruct (scan_braces (string_drop a txt) a 0) as [e|] eqn:He; [|done].
  exfalso. apply scan_braces_spec in He as (k & -> & Hk & Hb & _).
  rewrite string_drop_length in Hk. rewrite substring_drop in Hb.
  apply (Hnone (a + k)%nat); [lia|]. unfold slice.
  replace (a + k + 1 - a)%nat with (S k) by lia. lia.
Qed.

Section Eval.

Variable js_eval : string → option (gmap string entry).



End Eval.

End TableFacts.

(** ** Marking sections *)

Section MarkFacts.

Import Dom Script View.

Lemma sel_id_attr_only (id : string) : attr_only (sel_id id).
Proof. by intros t a cs cs' k k'. Qed.

Lemma sel_gradient_attr_only : attr_only sel_gradient_section.
Proof. by intros t a cs cs' k k'. Qed.

Lemma select_kids_alter (sel : node → bool) (g : node → node) (i j : nat)
    (k : list node) :
  (∀ x, select sel (g x) = select sel x) →
  select_kids sel j (alter g i k) = select_kids sel j k.
Proof.
  intros Hg. revert i j. induction k as [|x k IH]; intros i j; [done|].
  destruct i as [|i]; cbn [alter list_alter select_kids].
  - by rewrite Hg.
  - by rewrite IH.
Qed.

(** Adding a class does not change what such a selector finds. *)
Lemma select_add_class (sel : node → bool) (p : path) (c : string) (n : node) :
  attr_only sel → select sel (update p (add_class c) n) = select sel n.
Proof.
  intros Hsel. revert n. induction p as [|i p IH]; intros n.
  - destruct n as [t a cs k|s]; [|done]. cbn [update add_class].
    rewrite !select_Elem. f_equal. by rewrite (Hsel t a _ cs k k).
  - destruct n as [t a cs k|s]; [|done]. cbn [update].
    rewrite !select_Elem. f_equal.
    + by rewrite (Hsel t a cs cs _ k).
    + by apply select_kids_alter.
Qed.

Lemma mark_id_keeps_ids (st : node * Z) (id id' : string) :
  get_element_by_id id (mark_id st id').1 = get_element_by_id id st.1.
Proof.
  unfold mark_id. destruct (get_element_by_id id' st.1) as [p|]; [|done].
  cbn [fst]. unfold get_element_by_id, query_selector.
  by rewrite select_add_class by apply sel_id_attr_only.
Qed.

Lemma mark_id_absent (st : node * Z) (id : string) :
  get_element_by_id id st.1 = None → mark_id st id = st.
Proof. intros H. unfold mark_id. by rewrite H. Qed.

Lemma mark_gradient_absent (st : node * Z) :
  query_selector sel_gradient_section st.1 = None → mark_gradient st = st.
Proof. intros H. unfold mark_gradient. by rewrite H. Qed.

Lemma mark_gradient_count (st : node * Z) :
  (mark_gradient st).2 = st.2 ∨ (mark_gradient st).2 = st.2 + 1.
Proof.
  unfold mark_gradient.
  destruct (query_selector sel_gradient_section st.1) as [p|]; [|by left].
  destruct (lookup st.1 p) as [el|]; [|by left].
  destruct (has_class BREAK el); [by left|by right].
Qed.

(** The loop over the IDs counts those that name an element. *)
Lemma mark_ids_count (ids : list string) (st : node * Z) :
  (foldl mark_id st ids).2 =
  st.2 + Z.of_nat (length (filter (λ id, is_Some (get_element_by_id id st.1)) ids)).
Proof.
  revert st. induction ids as [|id ids IH]; intros st; [simpl; lia|].
  cbn [foldl]. rewrite IH.
  rewrite (list_filter_iff _ (λ id, is_Some (get_element_by_id id st.1))).
  2: { intros x. by rewrite mark_id_keeps_ids. }
  rewrite filter_cons. unfold mark_id at 1.
  destruct (get_element_by_id id st.1) as [p|] eqn:Hp.
  - rewrite decide_True by eauto. cbn [snd length]. lia.
  - rewrite decide_False by (by intros [? ?]). lia.
Qed.

End MarkFacts.

Section ScriptClaims.

Import Dom Script Fs Stage View.

Variable BASE_DIR : Fs.path.
Variable prepare : Dom.node → Dom.node.
Variable js_eval : string → option (gmap string Script.entry).
Variable render : Dom.node → pdf_options → Pdf.document.

(** C2, as amended.  A missing element raises nothing.  Whatever the
    document holds, the render stage completes and exports the PDF: a
    break-section ID that names no element is passed over and not counted
    (the loop counts exactly the IDs that are present), a missing gradient
    section is passed over, a card without [.portfolio-name] is left as it
    is, and a card without [.portfolio-info] receives the class
    [pdf-expanded] only and is not counted.  A missing HTML file, by
    contrast, does end the stage with the error raised. *)
Theorem C2_missing_elements_are_skipped (w : world) (root : node) :
  files w !! HTML_PATH BASE_DIR = Some (FHtml root) →
  is_dir w BASE_DIR = true →
  is_dir w (OUTPUT_PATH BASE_DIR) = false →
  ∃ (marked expanded : Z) (w' : world),
    render_stage BASE_DIR prepare js_eval render w = Ok ((marked, expanded), w') ∧
    is_Some (files w' !! OUTPUT_PATH BASE_DIR) ∧
    (let after_ids := foldl mark_id (prepare root, 0) breakIds in
     after_ids.2 = Z.of_nat (length (present_ids (prepare root))) ∧
     (marked = after_ids.2 ∨ marked = after_ids.2 + 1) ∧
     (query_selector sel_gradient_section after_ids.1 = None →
      marked = after_ids.2)) ∧
    (∀ (st : node * Z) (id : string),
       get_element_by_id id st.1 = None → mark_id st id = st) ∧
    (∀ st : node * Z,
       query_selector sel_gradient_section st.1 = None →
       mark_gradient st = st) ∧
    (∀ (tbl : gmap string entry) (st : node * Z) (cp : Dom.path) (card : node),
       lookup st.1 cp = Some card →
       query_selector_in (sel_class "portfolio-name") card = None →
       expand_card tbl st cp = st) ∧
    (∀ (tbl : gmap string entry) (st : node * Z) (cp : Dom.path) (card : node),
       lookup st.1 cp = Some card →
       is_Some (card_entry tbl card) →
       query_selector_in (sel_class "portfolio-info") card = None →
       expand_card tbl st cp =
       (update cp (add_class "pdf-expanded") st.1, st.2)) ∧
    (∀ w0 : world,
       files w0 !! HTML_PATH BASE_DIR = None →
       render_stage BASE_DIR prepare js_eval render w0 =
       Raise (FileNotFoundError (HTML_PATH BASE_DIR))).
Proof.
  intros Hf Hd Ho.
  exists (render_counts prepare js_eval root).1,
         (render_counts prepare js_eval root).2.
  eexists. split.
  { rewrite (render_stage_run _ _ _ _ _ _ Hf Hd Ho).
    by destruct (render_counts prepare js_eval root). }
  split. { cbn [set_files files]. rewrite lookup_insert_eq. eauto. }
  split; [|split; [|split; [|split; [|split]]]].
  - cbv zeta. split; [|split].
    + rewrite mark_ids_count. simpl. done.
    + unfold render_counts, mark_sections. cbn [fst]. apply mark_gradient_count.
    + intros Hnone. unfold render_counts, mark_sections. cbn [fst].
      by rewrite mark_gradient_absent.
  - apply mark_id_absent.
  - apply mark_gradient_absent.
  - intros tbl st cp card Hc Hn. unfold expand_card. by rewrite Hc, Hn.
  - intros tbl st cp card Hc [data Hdata] Hi. unfold expand_card.
    rewrite Hc. unfold card_entry in Hdata.
    destruct (query_selector_in (sel_class "portfolio-name") card) as [np|];
      [|done].
    cbn [mbind option_bind] in Hdata. by rewrite Hdata, Hi.
  - intros w0 H0. unfold render_stage, mbind, M_bind, bind, goto at 1.
    by rewrite H0.
Qed.

End ScriptClaims.

Lemma C2_witness :
  ∃ marked expanded w',
    Stage.render_stage Sample.base Sample.prepare Sample.js_eval
                       Sample.render Sample.w_src
    = Fs.Ok ((marked, expanded), w') ∧
    is_Some (Fs.files w' !! Stage.OUTPUT_PATH Sample.base).
Proof.
  destruct (C2_missing_elements_are_skipped Sample.base Sample.prepare
              Sample.js_eval Sample.render Sample.w_src Sample.html)
    as (marked & expanded & w' & H1 & H2 & _).
  - vm_compute. reflexivity.
  - vm_compute. reflexivity.
  - vm_compute. reflexivity.
  - exists marked, expanded, w'. split; [exact H1|exact H2].
Defined.

(** C2, as the specification states it, fails.  In [bare] all eight
    section IDs and the gradient section are missing, and in
    [Sample.html] seven IDs are missing and the second card has no
    [.portfolio-info]; the render stage raises nothing on either and
    exports the PDF. *)
Lemma C2_counterexample :
  Forall (λ id, Dom.get_element_by_id id Sample.bare = None)
         Script.breakIds ∧
  Dom.query_selector Dom.sel_gradient_section Sample.bare = None ∧
  match Stage.render_stage Sample.base Sample.prepare Sample.js_eval
                           Sample.render Sample.w_bare with
  | Fs.Ok (counts, w') =>
      counts = (0, 0) ∧ is_Some (Fs.files w' !! Stage.OUTPUT_PATH Sample.base)
  | Fs.Raise _ => False
  end ∧
  match Stage.render_stage Sample.base Sample.prepare Sample.js_eval
                           Sample.render Sample.w_src with
  | Fs.Ok (counts, w') =>
      counts = (2, 1) ∧ is_Some (Fs.files w' !! Stage.OUTPUT_PATH Sample.base)
  | Fs.Raise _ => False
  end.
Proof.
  split; [by repeat constructor|]. split; [done|].
  split; vm_compute; (split; [reflexivity|eexists; reflexivity]).
Qed.

Section MarkerFacts.

Import Script View.

Lemma substring_empty (n m : nat) : String.substring n m "" = "".
Proof. by destruct n, m. Qed.

Lemma substring_substring (s : string) (n m j k : nat) :
  (j + k ≤ m)%nat →
  String.substring j k (String.substring n m s) = String.substring (n + j) k s.
Proof.
  revert n m j k. induction s as [|c s IH]; intros n m j k H.
  { by rewrite !substring_empty. }
  destruct n as [|n]; [|cbn [String.substring Nat.add]; by apply IH].
  destruct m as [|m].
  { assert (j = 0 ∧ k = 0)%nat as [-> ->] by lia. done. }
  cbn [String.substring Nat.add]. destruct j as [|j].
  - destruct k as [|k]; [done|]. cbn [String.substring]. f_equal.
    rewrite (IH 0%nat m 0%nat k) by lia. done.
  - cbn [String.substring]. rewrite (IH 0%nat m j k) by lia. done.
Qed.

Lemma index_not_none (n m : nat) (s1 s2 : string) :
  s1 ≠ "" → (n ≤ m)%nat → String.substring m (String.length s1) s2 = s1 →
  is_Some (String.index n s1 s2).
Proof.
  intros Hs Hnm Hsub. destruct (String.index n s1 s2) as [a|] eqn:Ha; [eauto|].
  exfalso. by apply (index_correct3 n m s1 s2 Ha Hs Hnm).
Qed.

(** Where the marker is found, an opening brace follows: the marker's own. *)
Lemma marker_brace (txt : string) (idx : nat) :
  String.index 0 marker txt = Some idx →
  ∃ a, String.index idx "{" txt = Some a ∧ (idx ≤ a ≤ idx + 22)%nat.
Proof.
  intros Hidx. apply index_correct1 in Hidx.
  assert (String.substring (idx + 22) 1 txt = "{") as Hb.
  { rewrite <- (substring_substring txt idx (String.length marker)) by (simpl; lia).
    by rewrite Hidx. }
  destruct (index_not_none idx (idx + 22) "{" txt) as [a Ha]; [done|lia|done|].
  exists a. split; [done|]. split; [by eapply index_ge|].
  destruct (decide (a ≤ idx + 22)%nat) as [|Hgt]; [done|].
  exfalso. apply (index_correct2 idx a "{" txt Ha (idx + 22)%nat); [lia|lia|done].
Qed.

End MarkerFacts.

Section CardClaims.

Import Dom Script View.

Variable js_eval : string → option (gmap string entry).


End CardClaims.


(** The sample document after the card script: the first card, whose name
    is a key, is enriched; the second, which has no [.portfolio-info], only
    receives the class. *)
Example expand_cards_sample :
  Script.expand_cards Sample.js_eval Sample.html =
  (Dom.Elem "html" [] []
     [ Dom.Elem "head" [] [] [];
       Dom.Elem "body" [] []
         [ Dom.Elem "section" [("id", "ia")] [] [];
           Dom.Elem "section" [("style", "background: linear-gradient(135deg)")]
                    [] [];
           Dom.Elem "div" [] ["portfolio-card"; "pdf-expanded"]
             [ Dom.Elem "h3" [] ["portfolio-name"] [Dom.Text " Brock "];
               Dom.Elem "div" [] ["portfolio-info"]
                 [ Dom.Text "About";
                   Dom.Elem "div" [] ["pdf-narrative"]
                            [Dom.Text "A university site."];
                   Dom.Elem "div" [] ["pdf-relevance-label"]
                            [Dom.Text "Relevance to RHF Project"];
                   Dom.Elem "div" [] ["pdf-relevance"] [Dom.Text "Same scale."];
                   Dom.Elem "div" [] ["pdf-refs"]
                     [ Dom.Elem "span" [] ["pdf-ref-tag"] [Dom.Text "R1"];
                       Dom.Elem "span" [] ["pdf-ref-tag"] [Dom.Text "R2"] ] ] ];
           Dom.Elem "div" [] ["portfolio-card"; "pdf-expanded"]
             [ Dom.Elem "h3" [] ["portfolio-name"] [Dom.Text "Brock"] ];
           Dom.Elem "script" [] [] [Dom.Text Sample.script_text] ] ],
   1).
Proof. vm_compute. reflexivity. Qed.

Example object_source_sample :
  String.index 0 Script.marker Sample.script_text = Some 13%nat ∧
  Script.object_source Sample.script_text 13 = Sample.table_text.
Proof. split; vm_compute; reflexivity. Qed.

(** ** The whole pipeline on the sample *)

(** From the HTML source alone the three stages run through: the export
    saves the PDF, the footer stage saves the temporary file and replaces
    the PDF with it, and the screenshot stage creates its directory and
    saves one image per page. *)
Example generate_pdf_sample :
  match Stage.generate_pdf Sample.base Sample.adv Sample.prepare
                           Sample.js_eval Sample.render Sample.w_src with
  | Fs.Ok (_, w') =>
      View.is_save <$> Fs.log w' = [true; true; false; false; true; true] ∧
      View.is_replace <$> Fs.log w' = [false; false; true; false; false; false] ∧
      Fs.ticks w' = 2%nat
  | Fs.Raise _ => False
  end.
Proof. vm_compute. repeat split. Qed.

(** ** The whole pipeline *)

Section PipelineFacts.

Import Fs Stage View Whole.

Variable BASE_DIR : path.
Variable helv_advance : ascii → Q.
Variable prepare : Dom.node → Dom.node.
Variable js_eval : string → option (gmap string Script.entry).
Variable render : Dom.node → pdf_options → Pdf.document.

#[local] Abbreviation OUT := (OUTPUT_PATH BASE_DIR).
#[local] Abbreviation TMP := (with_suffix (OUTPUT_PATH BASE_DIR) ".tmp").
#[local] Abbreviation HTML := (HTML_PATH BASE_DIR).

Lemma page_png_in_named (d base : path) (name : string) :
  glob_page_png name = false → page_png_in d (base ++ [name]) = false.
Proof.
  intros H. unfold page_png_in. rewrite last_snoc, H. apply andb_false_r.
Qed.

Lemma output_not_png (d : path) : page_png_in d OUT = false.
Proof. by apply page_png_in_named. Qed.

Lemma tmp_path : TMP = BASE_DIR ++ ["Inkline-RHF-Website-Consolidation-Proposal.pdf.tmp"].
Proof. unfold with_suffix, OUTPUT_PATH. by rewrite last_snoc, parent_snoc. Qed.

Lemma tmp_not_png (d : path) : page_png_in d TMP = false.
Proof. rewrite tmp_path. by apply page_png_in_named. Qed.

Lemma html_not_png (d : path) : page_png_in d HTML = false.
Proof. by apply page_png_in_named. Qed.

Lemma html_ne_output : HTML ≠ OUT.
Proof. intros H%snoc_name_inj. done. Qed.

Lemma html_ne_tmp : HTML ≠ TMP.
Proof. rewrite tmp_path. intros H%snoc_name_inj. done. Qed.

Lemma tmp_ne_output : TMP ≠ OUT.
Proof. by apply with_suffix_ne. Qed.

Lemma output_not_above_screenshots : OUT ∉ prefixes SCREENSHOT_DIR.
Proof.
  intros H. apply list_elem_of_fmap in H as (k & Hk & Hin).
  apply (f_equal last) in Hk. unfold OUTPUT_PATH in Hk. rewrite last_snoc in Hk.
  apply elem_of_seq in Hin. simpl in Hin.
  assert (k = 1 ∨ k = 2 ∨ k = 3)%nat as [->|[->| ->]] by lia; done.
Qed.

Lemma after_footer_lookup (w : world) (root : Dom.node) (p : path) :
  files (after_footer BASE_DIR helv_advance prepare js_eval render w root) !! p =
  if decide (p = OUT)
  then Some (FPdf (footered BASE_DIR helv_advance prepare js_eval render w root))
  else if decide (p = TMP) then None else files w !! p.
Proof.
  unfold after_footer, footer_result, after_render, footered.
  cbn [files set_files clock ticks].
  destruct (decide (p = OUT)) as [->|Hne]; [apply lookup_insert_eq|].
  rewrite lookup_insert_ne by done.
  destruct (decide (p = TMP)) as [->|Hne2]; [apply lookup_delete_eq|].
  by rewrite lookup_delete_ne, !lookup_insert_ne by done.
Qed.

Lemma after_footer_ready (w : world) (root : Dom.node) :
  pipeline_ready BASE_DIR w = true →
  screenshot_ready (after_footer BASE_DIR helv_advance prepare js_eval render w root)
                   OUT SCREENSHOT_DIR = true.
Proof.
  unfold pipeline_ready, screenshot_ready.
  intros [_ [[H1 H2]%andb_true_iff H3]%andb_true_iff]%andb_true_iff.
  rewrite H1. cbn [andb]. apply andb_true_iff. split; [|exact H3].
  rewrite forallb_elem_of in H2. apply forallb_elem_of. intros q Hq.
  apply bool_decide_eq_true. rewrite after_footer_lookup.
  destruct (decide (q = OUT)) as [->|_].
  { by apply output_not_above_screenshots in Hq. }
  destruct (decide (q = TMP)); [done|].
  specialize (H2 q Hq). by apply bool_decide_eq_true in H2.
Qed.

(** The three stages in a row. *)
Lemma generate_pdf_run (w : world) (root : Dom.node) :
  files w !! HTML = Some (FHtml root) →
  pipeline_ready BASE_DIR w = true →
  generate_pdf BASE_DIR helv_advance prepare js_eval render w =
  Ok (tt, after_screenshots BASE_DIR helv_advance prepare js_eval render w root).
Proof.
  intros Hf Hr. pose proof Hr as Hr'. unfold pipeline_ready in Hr'.
  apply andb_true_iff in Hr' as [Hfr Hsr].
  pose proof Hfr as Hfr'. unfold footer_ready in Hfr'.
  apply andb_true_iff in Hfr' as [[Hpar Hnd]%andb_true_iff _].
  unfold OUTPUT_PATH in Hpar at 1. rewrite parent_snoc in Hpar.
  apply negb_true_iff in Hnd.
  unfold generate_pdf, mbind, M_bind, bind.
  rewrite (render_stage_run _ _ _ _ _ _ Hf Hpar Hnd).
  fold (rendered BASE_DIR prepare js_eval render root).
  fold (after_render BASE_DIR prepare js_eval render w root).
  rewrite (add_branded_footer_run helv_advance _ _
             (rendered BASE_DIR prepare js_eval render root)).
  - fold (after_footer BASE_DIR helv_advance prepare js_eval render w root).
    rewrite (screenshot_pages_run _ _ _ _
               (footered BASE_DIR helv_advance prepare js_eval render w root)).
    + done.
    + rewrite after_footer_lookup. by rewrite decide_True.
    + by apply after_footer_ready.
  - apply lookup_insert_eq.
  - exact Hfr.
Qed.

End PipelineFacts.

Section ScreenshotResult.

Import Fs Stage View.

Lemma filter_nothing {A} (f : A → bool) (l : list A) :
  Forall (λ x, f x = false) l → List.filter f l = [].
Proof. induction 1 as [|x l Hx _ IH]; [done|]. simpl. by rewrite Hx. Qed.

(** Three readings of the files the screenshot stage leaves. *)
Lemma screenshot_result_page (w : world) (out : path) (dpi : Z)
    (d : Pdf.document) (k : nat) (pg : Pdf.page) :
  d !! k = Some pg →
  files (screenshot_result w out dpi d) !! (out ++ [page_file_name (Z.of_nat k)]) =
  Some (FPng (Pdf.Pixmap (Pdf.Matrix (inject_Z dpi / 72) (inject_Z dpi / 72)) pg)).
Proof.
  intros Hk. cbn [screenshot_result files].
  rewrite <- (Z.add_0_l (Z.of_nat k)). by apply shots_files_page.
Qed.

Lemma screenshot_result_frame (w : world) (out : path) (dpi : Z)
    (d : Pdf.document) (p : path) :
  page_png_in out p = false →
  files (screenshot_result w out dpi d) !! p = files w !! p.
Proof.
  intros Hp. cbn [screenshot_result files]. rewrite shots_files_other.
  - rewrite delete_all_lookup.
    destruct (decide (p ∈ stale_files w out)) as [Hin|]; [|done].
    apply stale_files_spec in Hin as [_ Hin]. congruence.
  - intros k _ ->. by rewrite page_png_in_snoc, page_file_name_glob in Hp.
Qed.


End ScreenshotResult.

Section PipelineClaims.

Import Fs Stage View Whole.

Variable BASE_DIR : path.
Variable helv_advance : ascii → Q.
Variable prepare : Dom.node → Dom.node.
Variable js_eval : string → option (gmap string Script.entry).
Variable render : Dom.node → pdf_options → Pdf.document.

#[local] Abbreviation OUT := (OUTPUT_PATH BASE_DIR).
#[local] Abbreviation TMP := (with_suffix (OUTPUT_PATH BASE_DIR) ".tmp").
#[local] Abbreviation HTML := (HTML_PATH BASE_DIR).
#[local] Abbreviation run := (generate_pdf BASE_DIR helv_advance prepare js_eval render).
#[local] Abbreviation final := (after_screenshots BASE_DIR helv_advance prepare js_eval render).
#[local] Abbreviation pages0 := (rendered BASE_DIR prepare js_eval render).
#[local] Abbreviation pages1 := (footered BASE_DIR helv_advance prepare js_eval render).

Lemma final_lookup_output (w : world) (root : Dom.node) :
  files (final w root) !! OUT = Some (FPdf (pages1 w root)).
Proof.
  unfold after_screenshots.
  rewrite screenshot_result_frame by apply output_not_png.
  rewrite after_footer_lookup. by rewrite decide_True.
Qed.

(** X1.  Given the HTML file, a writable place for the outputs and an
    export of at least one page, [generate_pdf] runs through its three
    stages: the PDF it leaves at [OUTPUT_PATH] has one page per page the
    export produced, page [k] being the exported page [k] with the footer
    for page [k + 1] stamped with the [k]-th clock reading of the run, and
    the clock has been read exactly once per page.  (The closing report of
    the function only reads the PDF; it needs the first page to exist.) *)
Theorem generate_pdf_final_pdf (w : world) (root : Dom.node) :
  files w !! HTML = Some (FHtml root) →
  pipeline_ready BASE_DIR w = true →
  pages0 root ≠ [] →
  ∃ (w' : world) (d' : Pdf.document),
    run w = Ok (tt, w') ∧
    files w' !! OUT = Some (FPdf d') ∧
    length d' = length (pages0 root) ∧
    ticks w' = (ticks w + length (pages0 root))%nat ∧
    ∀ (k : nat) (pg : Pdf.page), pages0 root !! k = Some pg →
      d' !! k =
      Some (Pdf.footer_page helv_advance (clock w (ticks w + k)%nat)
                            (Z.of_nat k) (Z.of_nat (length (pages0 root))) pg).
Proof.
  intros Hf Hr _. exists (final w root), (pages1 w root).
  split; [by apply generate_pdf_run|].
  split; [apply final_lookup_output|].
  split; [apply footer_pages_length|].
  split; [done|].
  intros k pg Hk. unfold footered.
  by rewrite (footer_pages_lookup _ _ _ _ _ _ _ _ Hk), Z.add_0_l.
Qed.

(** X2.  The screenshots are taken after the footer stage: when
    [generate_pdf] has run (under the conditions of X1), [page_<k+1>.png]
    in the screenshot directory is the rasterization, at zoom 110/72, of
    page [k] of the final PDF, whose content is that of the exported page
    followed by the four footer drawing operations. *)
Theorem generate_pdf_screenshots_show_footer (w : world) (root : Dom.node) :
  files w !! HTML = Some (FHtml root) →
  pipeline_ready BASE_DIR w = true →
  pages0 root ≠ [] →
  ∃ (w' : world) (d' : Pdf.document),
    run w = Ok (tt, w') ∧
    files w' !! OUT = Some (FPdf d') ∧
    ∀ (k : nat) (pg' : Pdf.page), d' !! k = Some pg' →
      files w' !! (SCREENSHOT_DIR ++ [page_file_name (Z.of_nat k)]) =
        Some (FPng (Pdf.Pixmap (Pdf.Matrix (110 / 72) (110 / 72)) pg')) ∧
      ∃ pg : Pdf.page,
        pages0 root !! k = Some pg ∧
        Pdf.contents pg' =
        Pdf.contents pg ++
        Pdf.footer_ops helv_advance (Pdf.page_rect pg)
                       (clock w (ticks w + k)%nat) (Z.of_nat k)
                       (Z.of_nat (length (pages0 root))).
Proof.
  intros Hf Hr _. exists (final w root), (pages1 w root).
  split; [by apply generate_pdf_run|].
  split; [apply final_lookup_output|].
  intros k pg' Hk. split.
  - unfold after_screenshots. by apply screenshot_result_page.
  - assert (k < length (pages0 root))%nat as Hlt.
    { apply lookup_lt_Some in Hk. unfold footered in Hk.
      by rewrite footer_pages_length in Hk. }
    destruct (lookup_lt_is_Some_2 _ _ Hlt) as [pg Hpg].
    exists pg. split; [done|]. unfold footered in Hk.
    rewrite (footer_pages_lookup _ _ _ _ _ _ _ _ Hpg), Z.add_0_l in Hk.
    by injection Hk as <-.
Qed.

(** X3.  [generate_pdf] touches only its outputs: after a run (under the
    conditions of X1) the HTML file is as it was, no temporary file is
    left, the directories are those that existed and the screenshot
    directory with its ancestors, and a file is as before unless it is the
    PDF, the temporary file or a [page_*.png] entry of the screenshot
    directory. *)
Theorem generate_pdf_frame (w : world) (root : Dom.node) :
  files w !! HTML = Some (FHtml root) →
  pipeline_ready BASE_DIR w = true →
  pages0 root ≠ [] →
  ∃ w' : world,
    run w = Ok (tt, w') ∧
    files w' !! HTML = Some (FHtml root) ∧
    files w' !! TMP = None ∧
    dirs w' = dirs w ∪ list_to_set (prefixes SCREENSHOT_DIR) ∧
    ∀ p : path,
      p ≠ OUT → p ≠ TMP → page_png_in SCREENSHOT_DIR p = false →
      files w' !! p = files w !! p.
Proof.
  intros Hf Hr _. exists (final w root).
  split; [by apply generate_pdf_run|].
  assert (∀ p, page_png_in SCREENSHOT_DIR p = false →
               files (final w root) !! p =
               if decide (p = OUT) then Some (FPdf (pages1 w root))
               else if decide (p = TMP) then None else files w !! p) as Hl.
  { intros p Hp. unfold after_screenshots.
    rewrite screenshot_result_frame by done. apply after_footer_lookup. }
  split; [|split; [|split]].
  - rewrite Hl by apply html_not_png.
    rewrite decide_False by apply html_ne_output.
    by rewrite decide_False by apply html_ne_tmp.
  - rewrite Hl by apply tmp_not_png.
    rewrite decide_False by apply tmp_ne_output.
    by rewrite decide_True.
  - done.
  - intros p H1 H2 H3. rewrite Hl by done.
    by rewrite !decide_False by done.
Qed.


(** X5.  The file-system calls of a run (under the conditions of X1), in
    order: the export saves the PDF; the footer stage saves the temporary
    file and replaces the PDF with it, the only replace of the run; the
    screenshot stage creates its directory, unlinks each [page_*.png] file
    found there once, and saves one image per page under the names
    [page_01.png], [page_02.png], and so on. *)
Theorem generate_pdf_log (w : world) (root : Dom.node) :
  files w !! HTML = Some (FHtml root) →
  pipeline_ready BASE_DIR w = true →
  pages0 root ≠ [] →
  ∃ (w' : world) (d' : Pdf.document) (stale : list path) (saves : list op),
    run w = Ok (tt, w') ∧
    log w' = log w ++
             [ OpSave OUT (FPdf (pages0 root)); OpSave TMP (FPdf d');
               OpReplace TMP OUT; OpMkdir SCREENSHOT_DIR ] ++
             (OpUnlink <$> stale) ++ saves ∧
    NoDup stale ∧
    (∀ p : path, p ∈ stale ↔
       is_Some (files w !! p) ∧ page_png_in SCREENSHOT_DIR p = true) ∧
    length saves = length (pages0 root) ∧
    (∀ (k : nat) (o : op), saves !! k = Some o →
       ∃ pix, o = OpSave (SCREENSHOT_DIR ++ [page_file_name (Z.of_nat k)])
                         (FPng pix)) ∧
    count_ops_log is_replace (drop (length (log w)) (log w')) = 1%nat.
Proof.
  intros Hf Hr _.
  set (w2 := after_footer BASE_DIR helv_advance prepare js_eval render w root).
  set (mat := Pdf.Matrix (inject_Z DEFAULT_DPI / 72) (inject_Z DEFAULT_DPI / 72)).
  exists (final w root), (pages1 w root), (stale_files w2 SCREENSHOT_DIR),
    (shots_log mat SCREENSHOT_DIR 0 (pages1 w root)).
  split; [by apply generate_pdf_run|].
  assert (log (final w root) = log w ++
    [ OpSave OUT (FPdf (pages0 root)); OpSave TMP (FPdf (pages1 w root));
      OpReplace TMP OUT; OpMkdir SCREENSHOT_DIR ] ++
    (OpUnlink <$> stale_files w2 SCREENSHOT_DIR) ++
    shots_log mat SCREENSHOT_DIR 0 (pages1 w root)) as Hlog.
  { unfold after_screenshots, screenshot_result. cbn [log].
    unfold after_footer, footer_result, after_render. cbn [log set_files].
    by rewrite <- !app_assoc. }
  split; [exact Hlog|].
  split; [apply stale_files_NoDup|].
  split.
  { intros p. rewrite stale_files_spec. unfold w2.
    rewrite after_footer_lookup. split.
    - intros [Hs Hp]. split; [|done].
      destruct (decide (p = OUT)) as [->|_].
      { by rewrite output_not_png in Hp. }
      destruct (decide (p = TMP)) as [->|_]; [|done].
      by rewrite tmp_not_png in Hp.
    - intros [Hs Hp]. split; [|done].
      destruct (decide (p = OUT)) as [->|_].
      { by rewrite output_not_png in Hp. }
      destruct (decide (p = TMP)) as [->|_]; [|done].
      by rewrite tmp_not_png in Hp. }
  split.
  { rewrite shots_log_length. apply footer_pages_length. }
  split.
  { intros k o Hk.
    assert (k < length (pages1 w root))%nat as Hlt.
    { apply lookup_lt_Some in Hk. by rewrite shots_log_length in Hk. }
    destruct (lookup_lt_is_Some_2 _ _ Hlt) as [pg Hpg].
    rewrite (shots_log_lookup _ _ _ _ _ _ Hpg), Z.add_0_l in Hk.
    injection Hk as <-. eauto. }
  rewrite Hlog, drop_app_length. unfold count_ops_log.
  rewrite !List.filter_app.
  rewrite (filter_nothing is_replace (OpUnlink <$> _))
    by (apply Forall_fmap, Forall_true; done).
  rewrite (filter_nothing is_replace (shots_log _ _ _ _)).
  - done.
  - eapply Forall_impl; [apply shots_log_saves|]. by intros [].
Qed.

End PipelineClaims.

Lemma generate_pdf_final_pdf_witness :
  ∃ w' d',
    Stage.generate_pdf Sample.base Sample.adv Sample.prepare Sample.js_eval
                       Sample.render Sample.w_src = Fs.Ok (tt, w') ∧
    Fs.files w' !! Stage.OUTPUT_PATH Sample.base = Some (Fs.FPdf d') ∧
    length d' = 2%nat.
Proof.
  destruct (generate_pdf_final_pdf Sample.base Sample.adv Sample.prepare
              Sample.js_eval Sample.render Sample.w_src Sample.html)
    as (w' & d' & H1 & H2 & H3 & _).
  - vm_compute. reflexivity.
  - vm_compute. reflexivity.
  - vm_compute. discriminate.
  - exists w', d'. split; [exact H1|]. split; [exact H2|exact H3].
Defined.

Lemma generate_pdf_screenshots_show_footer_witness :
  ∃ w' d',
    Stage.generate_pdf Sample.base Sample.adv Sample.prepare Sample.js_eval
                       Sample.render Sample.w_src = Fs.Ok (tt, w') ∧
    Fs.files w' !! Stage.OUTPUT_PATH Sample.base = Some (Fs.FPdf d').
Proof.
  destruct (generate_pdf_screenshots_show_footer Sample.base Sample.adv
              Sample.prepare Sample.js_eval Sample.render Sample.w_src
              Sample.html) as (w' & d' & H1 & H2 & _).
  - vm_compute. reflexivity.
  - vm_compute. reflexivity.
  - vm_compute. discriminate.
  - exists w', d'. split; [exact H1|exact H2].
Defined.

Lemma generate_pdf_frame_witness :
  ∃ w',
    Stage.generate_pdf Sample.base Sample.adv Sample.prepare Sample.js_eval
                       Sample.render SampleRun.w_old = Fs.Ok (tt, w') ∧
    Fs.files w' !! Stage.HTML_PATH Sample.base = Some (Fs.FHtml Sample.html) ∧
    Fs.files w' !! Stage.with_suffix (Stage.OUTPUT_PATH Sample.base) ".tmp"
    = None.
Proof.
  destruct (generate_pdf_frame Sample.base Sample.adv Sample.prepare
              Sample.js_eval Sample.render SampleRun.w_old Sample.html)
    as (w' & H1 & H2 & H3 & _).
  - vm_compute. reflexivity.
  - vm_compute. reflexivity.
  - vm_compute. discriminate.
  - exists w'. split; [exact H1|]. split; [exact H2|exact H3].
Defined.


Lemma generate_pdf_log_witness :
  ∃ (w' : Fs.world) (stale : list Fs.path) (saves : list Fs.op),
    Stage.generate_pdf Sample.base Sample.adv Sample.prepare Sample.js_eval
                       Sample.render SampleRun.w_old = Fs.Ok (tt, w') ∧
    NoDup stale ∧ length saves = 2%nat.
Proof.
  destruct (generate_pdf_log Sample.base Sample.adv Sample.prepare
              Sample.js_eval Sample.render SampleRun.w_old Sample.html)
    as (w' & d' & stale & saves & H1 & H2 & H3 & H4 & H5 & _).
  - vm_compute. reflexivity.
  - vm_compute. reflexivity.
  - vm_compute. discriminate.
  - exists w', stale, saves. split; [exact H1|]. split; [exact H3|exact H5].
Defined.

(** ** The footer stage, further *)

Section FooterMore.

Import Fs Stage View Fmt Clock Pdf.

Variable helv_advance : ascii → Q.

Lemma footer_ready_dirs (w1 w2 : world) (p : path) :
  dirs w1 = dirs w2 → footer_ready w1 p = footer_ready w2 p.
Proof. intros H. unfold footer_ready, is_dir. by rewrite H. Qed.

(** X6.  The footer stage is not idempotent: run on its own output (a
    PDF of at least one page) it reads the clock anew and draws a second
    footer after the first, so that after two runs every page carries its
    original content followed by the four operations of the first run and
    the four of the second, that is two rectangles and six texts more; the
    page count stays what it was and the clock has been read twice per
    page. *)
Theorem add_branded_footer_twice (w : world) (pdf_path : path) (d : document) :
  files w !! pdf_path = Some (FPdf d) →
  footer_ready w pdf_path = true →
  d ≠ [] →
  ∃ (w2 : world) (d2 : document),
    (add_branded_footer helv_advance pdf_path;;
     add_branded_footer helv_advance pdf_path) w = Ok (tt, w2) ∧
    files w2 !! pdf_path = Some (FPdf d2) ∧
    length d2 = length d ∧
    ticks w2 = (ticks w + 2 * length d)%nat ∧
    ∀ (k : nat) (pg : page), d !! k = Some pg →
      ∃ pg2 : page,
        d2 !! k = Some pg2 ∧
        page_rect pg2 = page_rect pg ∧
        contents pg2 =
          contents pg ++
          footer_ops helv_advance (page_rect pg) (clock w (ticks w + k)%nat)
                     (Z.of_nat k) (Z.of_nat (length d)) ++
          footer_ops helv_advance (page_rect pg)
                     (clock w (ticks w + length d + k)%nat)
                     (Z.of_nat k) (Z.of_nat (length d)) ∧
        count_ops is_rect_op (contents pg2) =
          (count_ops is_rect_op (contents pg) + 2)%nat ∧
        count_ops is_text_op (contents pg2) =
          (count_ops is_text_op (contents pg) + 6)%nat.
Proof.
  intros Hf Hr _.
  set (d1 := footer_pages helv_advance (clock w) (ticks w) 0
                          (Z.of_nat (length d)) d).
  set (w1 := footer_result helv_advance w pdf_path d).
  assert (files w1 !! pdf_path = Some (FPdf d1)) as Hf1
    by apply lookup_insert_eq.
  assert (footer_ready w1 pdf_path = true) as Hr1
    by by rewrite (footer_ready_dirs w1 w).
  assert (length d1 = length d) as Hlen by apply footer_pages_length.
  exists (footer_result helv_advance w1 pdf_path d1),
    (footer_pages helv_advance (clock w1) (ticks w1) 0
                  (Z.of_nat (length d1)) d1).
  split.
  { unfold mbind, M_bind, bind.
    rewrite (add_branded_footer_run _ _ _ _ Hf Hr).
    by rewrite (add_branded_footer_run _ _ _ _ Hf1 Hr1). }
  split; [apply lookup_insert_eq|].
  split; [by rewrite footer_pages_length|].
  split. { cbn [footer_result ticks w1]. rewrite Hlen. lia. }
  intros k pg Hk.
  pose proof (footer_pages_lookup helv_advance (clock w) (ticks w) 0
                (Z.of_nat (length d)) d k pg Hk) as H1.
  fold d1 in H1. rewrite Z.add_0_l in H1.
  eexists. split.
  { rewrite (footer_pages_lookup _ _ _ _ _ _ _ _ H1), Z.add_0_l. reflexivity. }
  split; [done|]. cbn [footer_page contents page_rect].
  rewrite Hlen. cbn [w1 footer_result clock ticks].
  split; [by rewrite <- app_assoc|].
  unfold count_ops. rewrite !List.filter_app, !length_app. cbn. lia.
Qed.

(** X7.  On a page of any size the footer strip is [FOOTER_H_PT] high and
    ends at the page bottom; it lies inside the bottom margin of
    [FOOTER_H_MM + 4] millimetres that the export reserves, its top edge
    more than 11 points below the margin's; the baseline of the texts is at
    least 16 points below the strip's top and 12 above its bottom; and the
    right-hand text ends 28 points from the right edge and begins no more
    than 502.5 points before that, so that on every page at least 531
    points wide (A4 and Letter are) it begins right of the left text's
    start.  This holds for a font whose footer glyphs are at most one em
    wide, a valid date and fewer than [2 ^ 31] pages. *)
Theorem footer_fits_any_page (r : rect) (now : datetime) (i total : Z) :
  (∀ c, footer_char c = true → (0 <= helv_advance c <= 1)%Q) →
  valid now →
  0 <= i < total → total < 2 ^ 31 →
  let strip := footer_rect r in
  let pw := footer_pw helv_advance now in
  let gw := footer_gw helv_advance i total in
  let rx := footer_rx helv_advance r now i total in
  let cy := footer_cy r in
  let margin_bottom_pt := (inject_Z (FOOTER_H_MM + 4) * 72 / 25.4)%Q in
  MARGIN_BOTTOM = pretty (FOOTER_H_MM + 4) +:+ "mm" ∧
  (y1 strip - y0 strip == FOOTER_H_PT)%Q ∧
  (y1 strip == height r)%Q ∧
  (height r - margin_bottom_pt + 11 < y0 strip)%Q ∧
  (y0 strip + 16 <= cy <= y1 strip - 12)%Q ∧
  (rx + pw + gw == width r - 28)%Q ∧
  (width r - 28 - (5025 # 10) <= rx <= width r - 28)%Q ∧
  ((531 <= width r)%Q → (28 < rx)%Q).
Proof.
  intros Hadv Hnow Hi Htotal. cbv zeta.
  destruct (text_length_bounds helv_advance Hadv (footer_prefix now) 44)
    as [Hp1 Hp2];
    [by apply footer_prefix_chars|by apply footer_prefix_length|].
  destruct (text_length_bounds helv_advance Hadv (footer_pgtxt i total) 29)
    as [Hg1 Hg2];
    [apply footer_pgtxt_chars; lia|by apply footer_pgtxt_length|].
  change (inject_Z (Z.of_nat 44)) with 44%Q in Hp2.
  change (inject_Z (Z.of_nat 29)) with 29%Q in Hg2.
  assert (FOOTER_H_PT == 3600 # 127)%Q as HF by reflexivity.
  assert (FOOTER_H_PT / 2 == 1800 # 127)%Q as HF2 by reflexivity.
  assert (inject_Z (FOOTER_H_MM + 4) * 72 / 25.4 == 5040 # 127)%Q as HM
    by reflexivity.
  unfold footer_rx, footer_pw, footer_gw, footer_cy, footer_rect.
  cbn [x0 x1 y0 y1].
  revert Hp1 Hp2 Hg1 Hg2.
  generalize (get_text_length helv_advance (footer_prefix now) 6.5).
  generalize (get_text_length helv_advance (footer_pgtxt i total) 6.5).
  intros gw pw Hp1 Hp2 Hg1 Hg2.
  split; [done|]. rewrite HM, HF2, HF.
  repeat split; try lra.
Qed.

End FooterMore.

Lemma add_branded_footer_twice_witness :
  ∃ w2 d2,
    (Stage.add_branded_footer Sample.adv Sample.pdf;;
     Stage.add_branded_footer Sample.adv Sample.pdf) Sample.w0 = Fs.Ok (tt, w2) ∧
    Fs.files w2 !! Sample.pdf = Some (Fs.FPdf d2) ∧
    Fs.ticks w2 = 4%nat.
Proof.
  destruct (add_branded_footer_twice Sample.adv Sample.w0 Sample.pdf
              [Sample.pg0; Sample.pg0]) as (w2 & d2 & H1 & H2 & _ & H3 & _).
  - vm_compute. reflexivity.
  - vm_compute. reflexivity.
  - discriminate.
  - exists w2, d2. split; [exact H1|]. split; [exact H2|exact H3].
Defined.

Lemma footer_fits_any_page_witness :
  (595 - 28 - (5025 # 10) <=
   Pdf.footer_rx Sample.adv (Pdf.mkRect 0 0 595 842) Sample.t0 6 12)%Q.
Proof.
  pose proof (footer_fits_any_page Sample.adv (Pdf.mkRect 0 0 595 842)
                Sample.t0 6 12) as H.
  cbv zeta in H.
  destruct H as (_ & _ & _ & _ & _ & _ & [H _] & _).
  - intros c _. unfold Sample.adv. split; vm_compute; discriminate.
  - unfold Clock.valid. vm_compute. intuition discriminate.
  - lia.
  - reflexivity.
  - unfold Pdf.width in H. cbn [Pdf.x0 Pdf.x1] in H.
    assert (595 - 0 == 595)%Q as E by reflexivity.
    by rewrite E in H.
Defined.

(** ** The screenshot stage, further *)

Section ScreenshotMore.

Import Fs Stage View Whole.

Lemma prefix_not_png (out q : path) :
  q ∈ prefixes out → page_png_in out q = false.
Proof.
  intros Hq. destruct (page_png_in out q) eqn:Hp; [|done].
  apply page_png_in_inv in Hp as (name & -> & _).
  apply prefixes_length in Hq. rewrite length_app in Hq. simpl in Hq. lia.
Qed.



(** The first three steps of the stage (create the directory, list the
    matching entries, delete them) when they go through. *)
Lemma screenshot_cleanup_run (w : world) (out_dir : path) :
  cleanup_ready w out_dir = true →
  (mkdir_parents out_dir;; stale ← glob out_dir; for_each unlink stale) w =
  Ok (tt, mkWorld (dirs w ∪ list_to_set (prefixes out_dir))
                  (delete_all (stale_files w out_dir) (files w))
                  (clock w) (ticks w)
                  (log w ++ [OpMkdir out_dir] ++
                   (OpUnlink <$> stale_files w out_dir))).
Proof.
  intros Hr. unfold cleanup_ready in Hr.
  apply andb_true_iff in Hr as [Hpre Hdirs].
  assert (∀ q, q ∈ dirs w → page_png_in out_dir q = false) as Hnd.
  { intros q Hq. rewrite forallb_elem_of in Hdirs.
    apply negb_true_iff, Hdirs. by apply elem_of_elements. }
  unfold mbind, M_bind, bind.
  rewrite (mkdir_parents_run _ _ Hpre).
  set (w1 := mkWorld _ _ _ _ _).
  assert (∀ p, page_png_in out_dir p = true → is_dir w1 p = false) as Hpng.
  { intros p Hp. by apply is_dir_after_mkdir_png. }
  assert (∀ q, q ∈ dirs w1 → page_png_in out_dir q = false) as Hnd1.
  { intros q Hq. destruct (page_png_in out_dir q) eqn:Hp; [|done].
    apply Hpng in Hp. unfold is_dir in Hp.
    apply bool_decide_eq_false in Hp. exfalso. apply Hp. by right. }
  rewrite (glob_run _ _ Hnd1).
  change (stale_files w1 out_dir) with (stale_files w out_dir).
  rewrite for_each_unlink_run.
  - cbn [w1 dirs files clock ticks log]. by rewrite <- app_assoc.
  - apply stale_files_NoDup.
  - intros p [Hs Hp]%stale_files_spec. split; [done|]. by apply Hpng.
Qed.

(** X9.  The stage deletes before it opens: when the PDF it is asked to
    rasterize is itself an entry of the output directory whose name
    matches [page_*.png], the stage unlinks it with the other matching
    files and then fails to open it. *)
Theorem screenshot_pages_deletes_matching_input (w : world)
    (pdf_path out_dir : path) (dpi : Z) (f : file) :
  files w !! pdf_path = Some f →
  page_png_in out_dir pdf_path = true →
  cleanup_ready w out_dir = true →
  screenshot_pages pdf_path out_dir dpi w = Raise (FileNotFoundError pdf_path) ∧
  pdf_path ∈ stale_files w out_dir.
Proof.
  intros Hf Hp Hr.
  assert (pdf_path ∈ stale_files w out_dir) as Hin
    by (apply stale_files_spec; eauto).
  split; [|done].
  pose proof (screenshot_cleanup_run w out_dir Hr) as Hrun.
  unfold screenshot_pages. unfold mbind, M_bind, bind in *.
  destruct (mkdir_parents out_dir w) as [[[] w1]|e]; [|done].
  destruct (glob out_dir w1) as [[stale w2]|e]; [|done].
  rewrite Hrun. unfold open_pdf. cbn [files].
  rewrite delete_all_lookup. by rewrite decide_True.
Qed.

Lemma for_each_app {A} (body : A → M unit) (l1 l2 : list A) (w : world) :
  for_each body (l1 ++ l2) w =
  match for_each body l1 w with
  | Ok (_, w') => for_each body l2 w'
  | Raise e => Raise e
  end.
Proof.
  revert w. induction l1 as [|x l1 IH]; intros w; [done|].
  cbn [for_each app]. unfold mbind, M_bind, bind.
  destruct (body x w) as [[[] w']|e]; [apply IH|done].
Qed.

Lemma for_each_unlink_files (ps : list path) (w : world) :
  NoDup ps →
  (∀ p, p ∈ ps → is_Some (files w !! p)) →
  (∃ q, q ∈ ps ∧ is_dir w q = true ∧
        for_each unlink ps w = Raise (IsADirectoryError q)) ∨
  (∃ w', for_each unlink ps w = Ok (tt, w') ∧ dirs w' = dirs w).
Proof.
  revert w. induction ps as [|p ps IH]; intros w Hnd Hfs.
  { right. by exists w. }
  apply NoDup_cons in Hnd as [Hp Hnd].
  cbn [for_each]. unfold mbind, M_bind, bind. unfold unlink at 1 3.
  destruct (is_dir w p) eqn:Hd.
  { left. exists p. split; [left|done]. }
  destruct (Hfs p) as [f Hf]; [left|]. rewrite Hf.
  set (w1 := set_files _ _ _).
  destruct (IH w1 Hnd) as [(q & Hq & Hqd & Hrun)|(w' & Hrun & Hdirs)].
  - intros p' Hp'. cbn [w1 set_files files].
    rewrite lookup_delete_ne by (intros ->; done). apply Hfs. by right.
  - left. exists q. split; [by right|]. split; [exact Hqd|exact Hrun].
  - right. exists w'. split; [exact Hrun|exact Hdirs].
Qed.

(** X10.  A directory of the output directory whose name matches
    [page_*.png] stops the stage: the directory listing returns it with
    the files, and unlinking a directory fails. *)
Theorem screenshot_pages_matching_directory (w : world)
    (pdf_path out_dir q : path) (dpi : Z) :
  forallb (λ q, bool_decide (files w !! q = None)) (prefixes out_dir) = true →
  q ∈ dirs w →
  page_png_in out_dir q = true →
  ∃ q' : path,
    q' ∈ dirs w ∧ page_png_in out_dir q' = true ∧
    screenshot_pages pdf_path out_dir dpi w = Raise (IsADirectoryError q').
Proof.
  intros Hpre Hq Hp.
  unfold screenshot_pages, mbind, M_bind, bind.
  rewrite (mkdir_parents_run _ _ Hpre).
  set (w1 := mkWorld _ _ _ _ _). unfold glob at 1.
  set (l1 := filter _ (map_to_list (files w1)).*1).
  set (l2 := filter _ (elements (dirs w1))).
  assert (∀ p, page_png_in out_dir p = true → is_dir w1 p = true → p ∈ dirs w)
    as Hback.
  { intros p Hpp Hd. apply bool_decide_eq_true in Hd as [->|Hd]; [done|].
    cbn [w1 dirs] in Hd. apply elem_of_union in Hd as [Hd|Hd]; [done|].
    apply elem_of_list_to_set in Hd.
    by rewrite (prefix_not_png _ _ Hd) in Hpp. }
  rewrite for_each_app.
  destruct (for_each_unlink_files l1 w1)
    as [(q' & Hq' & Hd & Hrun)|(w' & Hrun & Hdirs)].
  - apply NoDup_filter, NoDup_fst_map_to_list.
  - intros p [_ Hin]%list_elem_of_filter.
    apply list_elem_of_fmap in Hin as ([p' f] & -> & Hin).
    apply elem_of_map_to_list in Hin. by exists f.
  - rewrite Hrun. exists q'. apply list_elem_of_filter in Hq' as [Hq' _]. eauto.
  - rewrite Hrun. assert (q ∈ l2) as Hq2.
    { apply list_elem_of_filter. split; [done|].
      apply elem_of_elements. cbn [w1 dirs]. apply elem_of_union. by left. }
    destruct l2 as [|q' l2'] eqn:El2; [by apply elem_of_nil in Hq2|].
    assert (q' ∈ l2) as Hq'2 by (rewrite El2; left).
    apply list_elem_of_filter in Hq'2 as [Hq'p Hq'd].
    apply elem_of_elements in Hq'd.
    assert (is_dir w' q' = true) as Hd.
    { unfold is_dir. apply bool_decide_eq_true. right. by rewrite Hdirs. }
    exists q'. split; [|split; [done|]].
    + apply Hback; [done|]. apply bool_decide_eq_true. by right.
    + cbn [for_each]. unfold mbind, M_bind, bind, unlink. by rewrite Hd.
Qed.

(** X11.  When the output directory's path names an existing file (and
    its ancestors are no files), creating the directory fails and the
    stage stops there. *)
Theorem screenshot_pages_directory_is_file (w : world)
    (pdf_path out_dir : path) (dpi : Z) (f : file) :
  out_dir ≠ [] →
  files w !! out_dir = Some f →
  (∀ q, q ∈ prefixes out_dir → q ≠ out_dir → files w !! q = None) →
  screenshot_pages pdf_path out_dir dpi w = Raise (FileExistsError out_dir).
Proof.
  intros Hne Hf Hanc.
  unfold screenshot_pages, mbind, M_bind, bind, mkdir_parents.
  destruct (List.find _ (prefixes out_dir)) as [q|] eqn:Hfind.
  - apply List.find_some in Hfind as [Hin Hq].
    apply bool_decide_eq_true in Hq as [g Hg].
    destruct (decide (q = out_dir)) as [->|Hneq]; [done|].
    rewrite Hanc in Hg; [done| |done]. by apply list_elem_of_In.
  - pose proof (List.find_none _ _ Hfind out_dir) as Hnone.
    cbv beta in Hnone. rewrite bool_decide_eq_false in Hnone.
    exfalso. apply Hnone; [|by exists f].
    apply list_elem_of_In. by apply prefixes_self.
Qed.

End ScreenshotMore.


Lemma screenshot_pages_deletes_matching_input_witness :
  Stage.screenshot_pages ["out"; "page_00.png"] ["out"] 110 SampleRun.w_self =
  Fs.Raise (Fs.FileNotFoundError ["out"; "page_00.png"]).
Proof.
  apply (screenshot_pages_deletes_matching_input SampleRun.w_self
           ["out"; "page_00.png"] ["out"] 110 (Fs.FPdf [Sample.pg0])).
  - vm_compute. reflexivity.
  - vm_compute. reflexivity.
  - vm_compute. reflexivity.
Defined.

Lemma screenshot_pages_matching_directory_witness :
  ∃ q', Stage.screenshot_pages Sample.pdf ["out"] 110 SampleRun.w_dir =
        Fs.Raise (Fs.IsADirectoryError q').
Proof.
  destruct (screenshot_pages_matching_directory SampleRun.w_dir Sample.pdf
              ["out"] ["out"; "page_old.png"] 110) as (q' & _ & _ & H).
  - vm_compute. reflexivity.
  - unfold SampleRun.w_dir. cbn [Fs.dirs]. rewrite !elem_of_union.
    right. by apply elem_of_singleton.
  - vm_compute. reflexivity.
  - exists q'. exact H.
Defined.

Lemma screenshot_pages_directory_is_file_witness :
  Stage.screenshot_pages Sample.pdf ["out"] 110 SampleRun.w_file =
  Fs.Raise (Fs.FileExistsError ["out"]).
Proof.
  apply (screenshot_pages_directory_is_file SampleRun.w_file Sample.pdf
           ["out"] 110 (Fs.FData "notes")).
  - discriminate.
  - vm_compute. reflexivity.
  - intros q Hq Hne. apply list_elem_of_singleton in Hq. done.
Defined.

(** ** The screenshot names *)

Section PageNames.

Import Stage.

(** X12.  The two-digit page number makes the code-point order of the
    screenshot names the page order for the first 99 pages, and no further:
    the name of page 100 sorts before the name of page 11. *)
Theorem page_file_names_sorted (i j : Z) :
  0 <= i → i < j → j < 99 →
  String.ltb (page_file_name i) (page_file_name j) = true ∧
  String.ltb (page_file_name 99) (page_file_name 10) = true.
Proof.
  intros Hi Hij Hj. split; [|by vm_compute].
  assert (forallb (λ a, forallb (λ b,
            implb (a <? b)%nat
                  (String.ltb (page_file_name (Z.of_nat a))
                              (page_file_name (Z.of_nat b))))
            (seq 0 99)) (seq 0 99) = true) as Hall by (vm_compute; reflexivity).
  rewrite forallb_elem_of in Hall.
  assert (Z.to_nat i ∈ seq 0 99) as Ha by (apply elem_of_seq; lia).
  assert (Z.to_nat j ∈ seq 0 99) as Hb by (apply elem_of_seq; lia).
  specialize (Hall _ Ha). rewrite forallb_elem_of in Hall.
  specialize (Hall _ Hb). rewrite !Z2Nat.id in Hall by lia.
  replace (Z.to_nat i <? Z.to_nat j)%nat with true in Hall; [done|].
  symmetry. apply Nat.ltb_lt. lia.
Qed.

End PageNames.

Lemma page_file_names_sorted_witness :
  String.ltb (Stage.page_file_name 8) (Stage.page_file_name 9) = true.
Proof. apply (page_file_names_sorted 8 9); lia. Defined.

(** ** What the scripts leave alone *)

Section GrowFacts.

Import Dom Script Tree.

Lemma grows_Elem t a cs k t' a' cs' k' :
  grows (Elem t a cs k) (Elem t' a' cs' k') =
  bool_decide (t = t') && bool_decide (a = a') &&
  bool_decide (cs `prefix_of` cs') && grows_kids k k'.
Proof.
  reflexivity.
Qed.

Lemma grows_kids_spec (k k' : list node) :
  grows_kids k k' = true ↔
  ∃ k1 new, k' = k1 ++ new ∧ Forall2 (λ x x', grows x x' = true) k k1.
Proof.
  revert k'. induction k as [|x k IH]; intros k'; cbn [grows_kids].
  { split; [|done]. intros _. exists [], k'. split; [done|constructor]. }
  destruct k' as [|x' k'].
  { split; [done|]. intros (k1 & new & Heq & HF).
    apply Forall2_cons_inv_l in HF as (y & k1' & _ & _ & ->). done. }
  rewrite andb_true_iff, IH. split.
  - intros [Hx (k1 & new & -> & HF)]. exists (x' :: k1), new.
    split; [done|]. by constructor.
  - intros (k1 & new & Heq & HF).
    apply Forall2_cons_inv_l in HF as (y & k1' & Hy & HF & ->).
    injection Heq as -> ->. split; [done|]. by exists k1', new.
Qed.

Lemma grows_refl (n : node) : grows n n = true.
Proof.
  induction n as [t a cs k IH|s] using node_ind.
  - rewrite grows_Elem, !bool_decide_eq_true_2 by done. cbn [andb].
    induction IH as [|x k Hx _ IHk]; [done|]. cbn [grows_kids].
    by rewrite Hx, IHk.
  - cbn. by apply bool_decide_eq_true.
Qed.

Lemma grows_trans (n1 n2 n3 : node) :
  grows n1 n2 = true → grows n2 n3 = true → grows n1 n3 = true.
Proof.
  revert n2 n3. induction n1 as [t a cs k IH|s] using node_ind;
    intros [t2 a2 cs2 k2|s2] [t3 a3 cs3 k3|s3]; try done.
  - rewrite !grows_Elem, !andb_true_iff, !bool_decide_eq_true.
    intros [[[-> ->] Hc] Hk] [[[-> ->] Hc'] Hk'].
    repeat split; [by etrans|].
    clear Hc Hc'. revert k2 k3 Hk Hk'.
    induction IH as [|x k Hx _ IHk]; intros k2 k3 Hk Hk'; [done|].
    destruct k2 as [|x2 k2]; [done|]. destruct k3 as [|x3 k3]; [done|].
    cbn [grows_kids] in *.
    apply andb_true_iff in Hk as [H1 H2], Hk' as [H3 H4].
    apply andb_true_iff. split; [by eapply Hx|by eapply IHk].
  - cbn. rewrite !bool_decide_eq_true. congruence.
Qed.

Lemma grows_kids_refl (k : list node) : grows_kids k k = true.
Proof.
  induction k as [|x k IH]; [done|]. cbn. by rewrite grows_refl, IH.
Qed.

Lemma grows_kids_alter (g : node → node) (i : nat) (k : list node) :
  (∀ x, k !! i = Some x → grows x (g x) = true) →
  grows_kids k (alter g i k) = true.
Proof.
  revert i. induction k as [|x k IH]; intros i Hg; [done|].
  destruct i as [|i]; cbn.
  - rewrite (Hg x eq_refl). apply grows_kids_refl.
  - rewrite grows_refl. apply IH. intros y Hy. by apply Hg.
Qed.

Lemma grows_kids_app (k new : list node) : grows_kids k (k ++ new) = true.
Proof.
  induction k as [|x k IH]; [done|]. cbn. by rewrite grows_refl, IH.
Qed.

(** An update by a growing function grows the tree. *)
Lemma grows_update (p : path) (f : node → node) (n : node) :
  (∀ m, grows m (f m) = true) → grows n (update p f n) = true.
Proof.
  intros Hf. revert n. induction p as [|i p IH]; intros n; [apply Hf|].
  destruct n as [t a cs k|s]; cbn [update]; [|apply grows_refl].
  rewrite grows_Elem, !bool_decide_eq_true_2 by done. cbn [andb].
  apply grows_kids_alter. intros x _. apply IH.
Qed.

Lemma grows_add_class (c : string) (n : node) : grows n (add_class c n) = true.
Proof.
  destruct n as [t a cs k|s]; cbn [add_class]; [|apply grows_refl].
  rewrite grows_Elem, !bool_decide_eq_true_2 by done. cbn [andb].
  rewrite grows_kids_refl, andb_true_r. apply bool_decide_eq_true.
  destruct (bool_decide (c ∈ cs)); [done|]. by apply prefix_app_r.
Qed.

Lemma grows_append_children (new : list node) (n : node) :
  grows n (append_children new n) = true.
Proof.
  destruct n as [t a cs k|s]; cbn [append_children]; [|apply grows_refl].
  rewrite grows_Elem, !bool_decide_eq_true_2 by done. cbn [andb].
  apply grows_kids_app.
Qed.

Lemma grows_foldl {A} (step : node * Z → A → node * Z) (xs : list A)
    (st : node * Z) :
  (∀ st x, grows st.1 (step st x).1 = true) →
  grows st.1 (foldl step st xs).1 = true.
Proof.
  intros Hstep. revert st.
  induction xs as [|x xs IH]; intros st; [apply grows_refl|].
  cbn [foldl]. eapply grows_trans; [apply Hstep|apply IH].
Qed.

Lemma grows_mark_id (st : node * Z) (id : string) :
  grows st.1 (mark_id st id).1 = true.
Proof.
  unfold mark_id. destruct (get_element_by_id id st.1); [|apply grows_refl].
  apply grows_update, grows_add_class.
Qed.

Lemma grows_mark_gradient (st : node * Z) :
  grows st.1 (mark_gradient st).1 = true.
Proof.
  unfold mark_gradient.
  destruct (query_selector _ _) as [p|]; [|apply grows_refl].
  destruct (lookup _ _) as [el|]; [|apply grows_refl].
  destruct (has_class _ _); [apply grows_refl|].
  apply grows_update, grows_add_class.
Qed.

Lemma grows_expand_card (tbl : gmap string entry) (st : node * Z) (cp : path) :
  grows st.1 (expand_card tbl st cp).1 = true.
Proof.
  unfold expand_card.
  destruct (lookup _ _) as [card|]; [|apply grows_refl].
  destruct (query_selector_in _ _) as [np|]; [|apply grows_refl].
  destruct (tbl !! _) as [data|]; [|apply grows_refl].
  destruct (query_selector_in _ _) as [ip|]; cbn [fst].
  - eapply grows_trans; [apply grows_update, grows_add_class|].
    apply grows_update, grows_append_children.
  - apply grows_update, grows_add_class.
Qed.

(** What growing keeps: every address stays valid, and the node it names
    keeps its tag, its attributes and, when it is a text, its content. *)
Lemma grows_lookup (n n' : node) (p : path) (m : node) :
  grows n n' = true → lookup n p = Some m →
  ∃ m', lookup n' p = Some m' ∧ grows m m' = true.
Proof.
  revert n n'. induction p as [|i p IH]; intros n n' Hg Hl.
  { injection Hl as <-. by exists n'. }
  destruct n as [t a cs k|s]; [|done]. destruct n' as [t' a' cs' k'|s']; [|done].
  rewrite grows_Elem in Hg. apply andb_true_iff in Hg as [_ Hk].
  cbn [lookup kids_of] in *.
  destruct (k !! i) as [x|] eqn:Hx; [|done]. cbn in Hl.
  apply grows_kids_spec in Hk as (k1 & new & -> & HF).
  destruct (Forall2_lookup_l _ _ _ _ _ HF Hx) as (x' & Hx' & Hxx).
  rewrite (lookup_app_l_Some _ _ _ _ Hx'). cbn. by apply (IH x).
Qed.

Lemma grows_same (m m' : node) :
  grows m m' = true →
  tag_of m' = tag_of m ∧
  (∀ name, attr_of name m' = attr_of name m) ∧
  classes_of m `prefix_of` classes_of m' ∧
  (∀ s, m = Text s → m' = Text s).
Proof.
  destruct m as [t a cs k|s], m' as [t' a' cs' k'|s']; try done.
  - rewrite grows_Elem, !andb_true_iff, !bool_decide_eq_true.
    intros [[[-> ->] Hc] _]. done.
  - cbn. rewrite bool_decide_eq_true. intros ->. repeat split; try done.
Qed.

End GrowFacts.

Section GrowClaims.

Import Dom Script Stage Tree.

Variable prepare : node → node.
Variable js_eval : string → option (gmap string entry).

(** X13.  The two document scripts only add: the document the export
    prints is the prepared one with classes added at the end of class lists
    and nodes appended at the end of child lists.  So every address of the
    prepared document is still an address of the printed one, and the node
    there has the same tag and attributes, a class list that extends the
    old one, and, if it is a text, the same text. *)
Theorem scripts_only_add (root : node) :
  let before := prepare root in
  let after := printed_dom prepare js_eval root in
  grows before (mark_sections before).1 = true ∧
  grows (mark_sections before).1 after = true ∧
  grows before after = true ∧
  ∀ (p : path) (m : node), lookup before p = Some m →
    ∃ m' : node,
      lookup after p = Some m' ∧
      tag_of m' = tag_of m ∧
      (∀ name, attr_of name m' = attr_of name m) ∧
      classes_of m `prefix_of` classes_of m' ∧
      (∀ s, m = Text s → m' = Text s).
Proof.
  cbv zeta.
  assert (grows (prepare root) (mark_sections (prepare root)).1 = true) as H1.
  { unfold mark_sections.
    eapply grows_trans; [|apply grows_mark_gradient].
    apply (grows_foldl mark_id breakIds (prepare root, 0)), grows_mark_id. }
  assert (∀ n, grows n (expand_cards js_eval n).1 = true) as H2.
  { intros n. unfold expand_cards.
    destruct (find_table _ _) as [tbl|]; [|apply grows_refl].
    apply (grows_foldl (expand_card tbl) _ (n, 0)), grows_expand_card. }
  assert (grows (prepare root) (printed_dom prepare js_eval root) = true) as H3
    by (eapply grows_trans; [apply H1|apply H2]).
  split; [exact H1|]. split; [apply H2|]. split; [exact H3|].
  intros p m Hm.
  destruct (grows_lookup _ _ _ _ H3 Hm) as (m' & Hm' & Hg).
  exists m'. split; [exact Hm'|]. by apply grows_same.
Qed.

End GrowClaims.

(** ** The section-marking script, exactly *)

Section MarkMore.

Import Dom Script View Tree.

Lemma select_foldl_mark (sel : node → bool) (ps : list path) (n : node) :
  attr_only sel → select sel (foldl mark_at n ps) = select sel n.
Proof.
  intros Hsel. revert n. induction ps as [|p ps IH]; intros n; [done|].
  cbn [foldl]. rewrite IH. by apply select_add_class.
Qed.

Lemma omap_ext_all {A B} (f g : A → option B) (l : list A) :
  (∀ x, f x = g x) → omap f l = omap g l.
Proof.
  intros Hfg. induction l as [|x l IH]; [done|]. cbn. by rewrite Hfg, IH.
Qed.

Lemma add_class_has (c : string) (m : node) :
  has_class c m = true → add_class c m = m.
Proof.
  destruct m as [t a cs k|s]; [|done]. unfold has_class. cbn.
  by intros ->.
Qed.

Lemma has_class_add (c : string) (m : node) :
  is_Some (tag_of m) → has_class c (add_class c m) = true.
Proof.
  destruct m as [t a cs k|s]; [|by intros [? ?]]. intros _.
  unfold has_class. cbn. apply bool_decide_eq_true.
  destruct (bool_decide (c ∈ cs)) eqn:Hc.
  - by apply bool_decide_eq_true in Hc.
  - apply elem_of_app. right. by left.
Qed.

Lemma has_class_grows (c : string) (m m' : node) :
  grows m m' = true → has_class c m = true → has_class c m' = true.
Proof.
  intros (_ & _ & [l Hl] & _)%grows_same. unfold has_class.
  rewrite !bool_decide_eq_true, Hl. intros Hc. apply elem_of_app. by left.
Qed.

Lemma grows_mark_at (n : node) (p : path) : grows n (mark_at n p) = true.
Proof. apply grows_update, grows_add_class. Qed.

Lemma grows_foldl_mark (ps : list path) (n : node) :
  grows n (foldl mark_at n ps) = true.
Proof.
  revert n. induction ps as [|p ps IH]; intros n; [apply grows_refl|].
  cbn [foldl]. eapply grows_trans; [apply grows_mark_at|apply IH].
Qed.

(** The loop over the IDs adds the class at the elements the IDs name in
    the document as loaded. *)
Lemma mark_ids_dom (ids : list string) (st : node * Z) :
  (foldl mark_id st ids).1 =
  foldl mark_at st.1 (omap (λ id, get_element_by_id id st.1) ids).
Proof.
  revert st. induction ids as [|id ids IH]; intros st; [done|].
  cbn [foldl omap]. rewrite IH.
  rewrite (omap_ext_all (λ id0, get_element_by_id id0 (mark_id st id).1)
                        (λ id0, get_element_by_id id0 st.1))
    by (intros id0; apply mark_id_keeps_ids).
  cbn [list_omap]. unfold mark_id.
  by destruct (get_element_by_id id st.1).
Qed.

Lemma mark_sections_dom (root : node) :
  (mark_sections root).1 = foldl mark_at root (targets root).
Proof.
  unfold mark_sections, targets. rewrite foldl_app.
  pose proof (mark_ids_dom breakIds (root, 0)) as Hst. cbn [fst] in Hst.
  fold (id_targets root) in Hst.
  set (st := foldl mark_id (root, 0) breakIds) in *.
  assert (query_selector sel_gradient_section st.1 = gradient_target root)
    as Hg.
  { unfold gradient_target, query_selector.
    by rewrite Hst, (select_foldl_mark _ _ _ sel_gradient_attr_only). }
  unfold mark_gradient. rewrite Hg, <- Hst.
  destruct (gradient_target root) as [p|]; [|done].
  cbn [option_list foldl]. unfold mark_at.
  destruct (lookup st.1 p) as [el|] eqn:Hel.
  - destruct (has_class BREAK el) eqn:Hc; [|done].
    symmetry. apply update_same. intros m Hm.
    apply add_class_has. congruence.
  - symmetry. apply update_same. intros m Hm. congruence.
Qed.

Lemma erase_add_class (c : string) (m : node) :
  erase c (add_class c m) = erase c m.
Proof.
  destruct m as [t a cs k|s]; [|done]. cbn.
  destruct (bool_decide (c ∈ cs)); [done|].
  rewrite filter_app. f_equal.
  rewrite filter_cons_False by (intros H; by apply H).
  by rewrite app_nil_r.
Qed.

Lemma erase_mark_at (n : node) (p : path) :
  erase BREAK (mark_at n p) = erase BREAK n.
Proof.
  unfold mark_at. revert n. induction p as [|i p IH]; intros n.
  { apply erase_add_class. }
  destruct n as [t a cs k|s]; [|done]. cbn [update erase]. f_equal.
  apply list_eq. intros j. rewrite !list_lookup_fmap.
  destruct (decide (i = j)) as [->|Hne].
  - rewrite list_lookup_alter_eq. destruct (k !! j) as [x|]; [|done].
    cbn. by rewrite IH.
  - by rewrite list_lookup_alter_ne.
Qed.

Lemma classes_mark_at_other (n : node) (p q : path) :
  q ≠ p →
  classes_of <$> lookup (mark_at n p) q = classes_of <$> lookup n q.
Proof.
  unfold mark_at. revert n q. induction p as [|i p IH]; intros n q Hne.
  { destruct q as [|j q]; [done|]. by destruct n as [t a cs k|s]. }
  destruct n as [t a cs k|s]; [|done]. cbn [update].
  destruct q as [|j q]; [done|]. cbn [lookup kids_of].
  destruct (decide (i = j)) as [->|Hij].
  - rewrite list_lookup_alter_eq. destruct (k !! j) as [x|]; [|done].
    cbn. apply IH. congruence.
  - by rewrite list_lookup_alter_ne.
Qed.

Lemma lookup_mark_at (n : node) (p : path) (m : node) :
  lookup n p = Some m → is_Some (tag_of m) →
  ∃ m', lookup (mark_at n p) p = Some m' ∧ has_class BREAK m' = true.
Proof.
  intros Hm Ht. exists (add_class BREAK m). split.
  - unfold mark_at. by rewrite lookup_update, Hm.
  - by apply has_class_add.
Qed.

(** After a sequence of markings every marked element carries the class,
    every other node has the class list it had, and nothing but class lists
    has changed. *)
Lemma foldl_mark_targets (ps : list path) (n : node) (p : path) (m : node) :
  p ∈ ps → lookup n p = Some m → is_Some (tag_of m) →
  ∃ m', lookup (foldl mark_at n ps) p = Some m' ∧ has_class BREAK m' = true.
Proof.
  revert n m. induction ps as [|p0 ps IH]; intros n m Hin Hm Ht.
  { by apply elem_of_nil in Hin. }
  cbn [foldl]. destruct (decide (p = p0)) as [->|Hne].
  - destruct (lookup_mark_at _ _ _ Hm Ht) as (m1 & Hm1 & Hc).
    destruct (grows_lookup _ _ _ _ (grows_foldl_mark ps (mark_at n p0)) Hm1)
      as (m' & Hm' & Hg).
    exists m'. split; [done|]. by apply (has_class_grows _ m1).
  - apply elem_of_cons in Hin as [?|Hin]; [done|].
    destruct (grows_lookup _ _ _ _ (grows_mark_at n p0) Hm) as (m1 & Hm1 & Hg).
    apply (IH _ m1); [done|done|].
    apply grows_same in Hg as [-> _]. done.
Qed.

Lemma foldl_mark_others (ps : list path) (n : node) (q : path) :
  q ∉ ps →
  classes_of <$> lookup (foldl mark_at n ps) q = classes_of <$> lookup n q.
Proof.
  revert n. induction ps as [|p ps IH]; intros n Hq; [done|].
  apply not_elem_of_cons in Hq as [Hne Hq]. cbn [foldl].
  rewrite IH by done. by apply classes_mark_at_other.
Qed.

Lemma foldl_mark_erase (ps : list path) (n : node) :
  erase BREAK (foldl mark_at n ps) = erase BREAK n.
Proof.
  revert n. induction ps as [|p ps IH]; intros n; [done|].
  cbn [foldl]. by rewrite IH, erase_mark_at.
Qed.

Lemma foldl_mark_done (ps : list path) (n : node) :
  (∀ p m, p ∈ ps → lookup n p = Some m → has_class BREAK m = true) →
  foldl mark_at n ps = n.
Proof.
  induction ps as [|p ps IH]; intros H; [done|]. cbn [foldl].
  assert (mark_at n p = n) as ->.
  { apply update_same. intros m Hm. apply add_class_has.
    apply (H p); [left|done]. }
  apply IH. intros q m Hq. apply H. by right.
Qed.

(** The elements the script looks up are elements of the document. *)
Lemma targets_valid (root : node) (p : path) :
  p ∈ targets root →
  ∃ m, lookup root p = Some m ∧ is_Some (tag_of m).
Proof.
  assert (∀ sel, (∀ m, sel m = true → is_Some (tag_of m)) →
                 query_selector sel root = Some p →
                 ∃ m, lookup root p = Some m ∧ is_Some (tag_of m)) as Hq.
  { intros sel Hsel Hp. unfold query_selector in Hp.
    destruct (select sel root) as [|p' l] eqn:Hs; [done|].
    injection Hp as ->.
    destruct (select_valid sel root p) as (m & Hm & Hsm);
      [rewrite Hs; left|]. eauto. }
  unfold targets, id_targets, gradient_target.
  rewrite elem_of_app. intros [Hid|Hg].
  - apply list_elem_of_omap in Hid as (id & _ & Hid).
    apply (Hq (sel_id id)); [|done]. intros [t a cs k|s]; [by eexists|done].
  - destruct (query_selector sel_gradient_section root) as [p'|] eqn:E;
      [|by apply elem_of_nil in Hg].
    apply list_elem_of_singleton in Hg as ->.
    apply (Hq sel_gradient_section); [|done].
    intros [t a cs k|s]; [by eexists|done].
Qed.

Lemma classes_add_class (c : string) (m : node) :
  classes_of (add_class c m) = classes_of m ∨
  ((c ∉ classes_of m) ∧ classes_of (add_class c m) = classes_of m ++ [c]).
Proof.
  destruct m as [t a cs k|s]; [|by left]. cbn.
  destruct (bool_decide (c ∈ cs)) eqn:Hc; [by left|].
  right. by apply bool_decide_eq_false in Hc.
Qed.

Lemma foldl_mark_classes (ps : list path) (n : node) (p : path) (m : node) :
  lookup n p = Some m →
  ∃ m', lookup (foldl mark_at n ps) p = Some m' ∧
        (classes_of m' = classes_of m ∨
         ((BREAK ∉ classes_of m) ∧ classes_of m' = classes_of m ++ [BREAK])).
Proof.
  revert n m. induction ps as [|p0 ps IH]; intros n m Hm.
  { exists m. split; [done|by left]. }
  cbn [foldl].
  assert (∃ m1, lookup (mark_at n p0) p = Some m1 ∧
                (classes_of m1 = classes_of m ∨
                 ((BREAK ∉ classes_of m) ∧
                  classes_of m1 = classes_of m ++ [BREAK]))) as (m1 & Hm1 & H1).
  { destruct (decide (p = p0)) as [->|Hne].
    - exists (add_class BREAK m). split; [|apply classes_add_class].
      unfold mark_at. by rewrite lookup_update, Hm.
    - pose proof (classes_mark_at_other n p0 p Hne) as Hc. rewrite Hm in Hc.
      destruct (lookup (mark_at n p0) p) as [m1|]; [|done].
      exists m1. split; [done|]. left. by injection Hc. }
  destruct (IH _ _ Hm1) as (m' & Hm' & H2). exists m'. split; [done|].
  destruct H1 as [E1|[Hn1 E1]], H2 as [E2|[Hn2 E2]].
  - left. congruence.
  - right. rewrite <- E1. done.
  - right. split; [done|]. congruence.
  - exfalso. apply Hn2. rewrite E1. apply elem_of_app. right. by left.
Qed.

Lemma targets_marked (root : node) :
  targets (mark_sections root).1 = targets root.
Proof.
  rewrite mark_sections_dom. unfold targets, id_targets, gradient_target.
  f_equal.
  - apply omap_ext_all. intros id. unfold get_element_by_id, query_selector.
    by rewrite (select_foldl_mark _ _ _ (sel_id_attr_only id)).
  - unfold query_selector.
    by rewrite (select_foldl_mark _ _ _ sel_gradient_attr_only).
Qed.

(** X14.  What the section-marking script does to the document: the
    elements it looks up (those the eight IDs name and the first gradient
    section) carry the class [pdf-section-break] afterwards, every other
    node has exactly the class list it had, and apart from that class the
    document is unchanged; the class is never added twice. *)
Theorem mark_sections_marks_targets_only (root : node) :
  let after := (mark_sections root).1 in
  (∀ p : path, p ∈ targets root →
     ∃ m' : node, lookup after p = Some m' ∧ has_class BREAK m' = true) ∧
  (∀ q : path, q ∉ targets root →
     classes_of <$> lookup after q = classes_of <$> lookup root q) ∧
  erase BREAK after = erase BREAK root ∧
  (∀ (p : path) (m m' : node),
     lookup root p = Some m → lookup after p = Some m' →
     classes_of m' = classes_of m ∨
     ((BREAK ∉ classes_of m) ∧ classes_of m' = classes_of m ++ [BREAK])).
Proof.
  cbv zeta. rewrite mark_sections_dom.
  split; [|split; [|split]].
  - intros p Hp. destruct (targets_valid root p Hp) as (m & Hm & Ht).
    by apply (foldl_mark_targets _ _ _ m).
  - intros q Hq. by apply foldl_mark_others.
  - apply foldl_mark_erase.
  - intros p m m' Hm Hm'.
    destruct (foldl_mark_classes (targets root) root p m Hm) as (m2 & Hm2 & H).
    by replace m' with m2 by congruence.
Qed.

Lemma get_element_by_id_marked (id : string) (ps : list path) (n : node) :
  get_element_by_id id (foldl mark_at n ps) = get_element_by_id id n.
Proof.
  unfold get_element_by_id, query_selector.
  by rewrite (select_foldl_mark _ _ _ (sel_id_attr_only id)).
Qed.

Lemma gradient_target_marked (ps : list path) (n : node) :
  gradient_target (foldl mark_at n ps) = gradient_target n.
Proof.
  unfold gradient_target, query_selector.
  by rewrite (select_foldl_mark _ _ _ sel_gradient_attr_only).
Qed.

Lemma present_ids_marked (root : node) :
  present_ids (mark_sections root).1 = present_ids root.
Proof.
  rewrite mark_sections_dom. unfold present_ids.
  induction breakIds as [|id ids IH]; [done|].
  rewrite !filter_cons, IH, get_element_by_id_marked.
  by destruct (decide _).
Qed.

Lemma present_ids_bound (root : node) : (length (present_ids root) ≤ 8)%nat.
Proof. unfold present_ids. by rewrite length_filter. Qed.

(** The count the script returns. *)
Lemma mark_sections_count_eq (root : node) :
  (mark_sections root).2 =
  Z.of_nat (length (present_ids root)) +
  (if gradient_counted root then 1 else 0).
Proof.
  unfold mark_sections.
  pose proof (mark_ids_dom breakIds (root, 0)) as Hst.
  pose proof (mark_ids_count breakIds (root, 0)) as Hcnt.
  cbn [fst snd] in Hst, Hcnt. fold (id_targets root) in Hst.
  fold (present_ids root) in Hcnt.
  set (st := foldl mark_id (root, 0) breakIds) in *.
  assert (query_selector sel_gradient_section st.1 = gradient_target root)
    as Hg by (rewrite Hst; apply gradient_target_marked).
  unfold mark_gradient, gradient_counted. rewrite Hg.
  destruct (gradient_target root) as [p|] eqn:Hp; [|lia].
  destruct (targets_valid root p) as (m & Hm & Ht).
  { unfold targets. rewrite Hp. apply elem_of_app. right. by left. }
  rewrite Hm. cbn [from_option].
  destruct (decide (p ∈ id_targets root)) as [Hin|Hout].
  - rewrite (bool_decide_eq_true_2 _ Hin). cbn [negb andb].
    destruct (foldl_mark_targets _ _ _ _ Hin Hm Ht) as (m' & Hm' & Hc).
    rewrite Hst, Hm', Hc. lia.
  - rewrite (bool_decide_eq_false_2 _ Hout). cbn [negb andb].
    pose proof (foldl_mark_others _ root _ Hout) as Hcl.
    rewrite <- Hst, Hm in Hcl.
    destruct (lookup st.1 p) as [el|]; [|done].
    injection Hcl as Hcl. unfold has_class at 1. rewrite Hcl.
    unfold has_class.
    destruct (bool_decide (BREAK ∈ classes_of m)); cbn [snd negb]; lia.
Qed.

(** X15.  The number the script reports is the number of break-section
    IDs that name an element, plus one when there is a gradient section
    that is none of those elements and did not carry the class already; it
    lies between 0 and 9, and it is 9 only when all eight IDs name an
    element and the gradient section is yet another element. *)
Theorem mark_sections_count (root : node) :
  let marked := (mark_sections root).2 in
  marked = Z.of_nat (length (present_ids root)) +
           (if gradient_counted root then 1 else 0) ∧
  length (present_ids root) = length (id_targets root) ∧
  0 <= marked <= 9 ∧
  (marked = 9 →
   Forall (λ id, is_Some (get_element_by_id id root)) breakIds ∧
   ∃ p : path, gradient_target root = Some p ∧ p ∉ id_targets root).
Proof.
  cbv zeta. rewrite mark_sections_count_eq.
  pose proof (present_ids_bound root) as Hb.
  split; [done|]. split.
  { unfold present_ids, id_targets.
    induction breakIds as [|id ids IH]; [done|].
    rewrite filter_cons. cbn [omap list_omap].
    destruct (get_element_by_id id root) as [p|] eqn:E.
    - rewrite decide_True by by eexists. cbn. by rewrite IH.
    - rewrite decide_False by by intros [? ?]. done. }
  split; [destruct (gradient_counted root); lia|].
  intros H9.
  assert (length (present_ids root) = 8%nat ∧ gradient_counted root = true)
    as [H8 Hg] by (destruct (gradient_counted root); split; (done || lia)).
  split.
  - unfold present_ids in H8.
    apply Forall_forall. intros id Hid.
    destruct (decide (is_Some (get_element_by_id id root))) as [|Hno]; [done|].
    exfalso.
    assert (length (filter (λ id, is_Some (get_element_by_id id root)) breakIds)
            < length breakIds)%nat as Hlt;
      [|change (length breakIds) with 8%nat in Hlt; lia].
    clear H8 H9 Hb Hg. revert Hid.
    induction breakIds as [|id' ids IH]; intros Hid.
    { by apply elem_of_nil in Hid. }
    rewrite filter_cons. apply elem_of_cons in Hid as [->|Hid].
    + rewrite decide_False by done. cbn.
      pose proof (length_filter (λ id, is_Some (get_element_by_id id root)) ids).
      lia.
    + specialize (IH Hid). destruct (decide _); cbn; lia.
  - unfold gradient_counted in Hg.
    destruct (gradient_target root) as [p|]; [|done].
    exists p. split; [done|].
    apply andb_true_iff in Hg as [Hg _].
    apply negb_true_iff in Hg. by apply bool_decide_eq_false in Hg.
Qed.

(** X16.  The script is idempotent on the document but not on its count:
    run again on its own result it changes nothing, yet it reports every
    break-section ID that names an element once more (and the gradient
    section not again). *)
Theorem mark_sections_twice (root : node) :
  let first := mark_sections root in
  mark_sections first.1 = (first.1, Z.of_nat (length (present_ids root))).
Proof.
  cbv zeta.
  assert (∀ p m, p ∈ targets root →
            lookup (mark_sections root).1 p = Some m →
            has_class BREAK m = true) as Hall.
  { intros p m Hp Hm. rewrite mark_sections_dom in Hm.
    destruct (targets_valid root p Hp) as (m0 & Hm0 & Ht).
    destruct (foldl_mark_targets _ _ _ _ Hp Hm0 Ht) as (m' & Hm' & Hc).
    congruence. }
  apply injective_projections.
  - cbn [fst]. rewrite mark_sections_dom, targets_marked.
    by apply foldl_mark_done.
  - cbn [snd]. rewrite mark_sections_count_eq, present_ids_marked.
    assert (gradient_counted (mark_sections root).1 = false) as ->; [|lia].
    unfold gradient_counted.
    assert (gradient_target (mark_sections root).1 = gradient_target root)
      as -> by (rewrite mark_sections_dom; apply gradient_target_marked).
    destruct (gradient_target root) as [p|] eqn:Hp; [|done].
    destruct (targets_valid root p) as (m0 & Hm0 & Ht).
    { unfold targets. rewrite Hp. apply elem_of_app. right. by left. }
    destruct (grows_lookup _ _ p m0 (grows_foldl_mark (targets root) root) Hm0)
      as (m & Hm & _).
    rewrite <- mark_sections_dom in Hm. rewrite Hm. cbn [from_option].
    rewrite (Hall p m); [by rewrite andb_false_r| |done].
    unfold targets. rewrite Hp. apply elem_of_app. right. by left.
Qed.

End MarkMore.

(** ** The card script, counted *)

Section CardCount.

Import Dom Script View Tree.

Variable js_eval : string → option (gmap string entry).

Lemma enrich_count_bool (tbl : gmap string entry) (card : node) :
  enrich_count tbl card =
  if bool_decide (is_Some (card_entry tbl card)) &&
     bool_decide (is_Some (query_selector_in (sel_class "portfolio-info") card))
  then 1 else 0.
Proof.
  unfold enrich_count.
  by destruct (card_entry tbl card),
       (query_selector_in (sel_class "portfolio-info") card).
Qed.

Lemma enrich_count_counted (tbl : gmap string entry) (root : node) (cp : path) :
  from_option (enrich_count tbl) 0 (lookup root cp) =
  if card_counted tbl root cp then 1 else 0.
Proof.
  unfold card_counted.
  destruct (lookup root cp) as [card|]; [apply enrich_count_bool|done].
Qed.

Lemma expanded_total_filter (tbl : gmap string entry) (root : node)
    (cards : list path) :
  expanded_total tbl root cards =
  Z.of_nat (length (filter (λ cp, card_counted tbl root cp = true) cards)).
Proof.
  unfold expanded_total. induction cards as [|cp cards IH]; [done|].
  cbn [foldr]. rewrite IH, filter_cons, enrich_count_counted.
  destruct (card_counted tbl root cp);
    [rewrite decide_True by reflexivity|rewrite decide_False by discriminate];
    cbn [length]; lia.
Qed.

Lemma expand_cards_count_eq (root : node) (tbl : gmap string entry) :
  find_table js_eval (script_texts root) = Some tbl →
  all_apart (query_selector_all (sel_class "portfolio-card") root) = true →
  (expand_cards js_eval root).2 =
  Z.of_nat (length (filter (λ cp, card_counted tbl root cp = true)
                           (query_selector_all (sel_class "portfolio-card") root))).
Proof.
  intros Ht Hap. unfold expand_cards. rewrite Ht.
  destruct (expand_fold tbl (query_selector_all (sel_class "portfolio-card") root)
              (root, 0) Hap) as (_ & _ & Hcount).
  { intros cp Hcp. destruct (select_valid _ _ _ Hcp) as (m & Hm & _).
    by exists m. }
  rewrite Hcount. cbn [fst snd]. by rewrite expanded_total_filter, Z.add_0_l.
Qed.


End CardCount.

(** ** The brace scanner, always *)

Section ScannerShape.

Import Script View.

Lemma substring_zero (s : string) : String.substring 0 0 s = "".
Proof. by destruct s. Qed.

Lemma string_app_snoc (c : ascii) (body : string) :
  String c (body +:+ "}") = String c body +:+ "}".
Proof. done. Qed.

(** Started with a positive count, the loop keeps the count positive until
    it stops, and it stops on a closing brace. *)
Lemma scan_braces_open (rest : string) (i : nat) (bc : Z) :
  0 < bc →
  match scan_braces rest i bc with
  | Some e =>
      (i ≤ e)%nat ∧ (e - i < String.length rest)%nat ∧
      (∃ body, String.substring 0 (S (e - i)) rest = body +:+ "}") ∧
      bc + brace_balance (String.substring 0 (S (e - i)) rest) = 0 ∧
      ∀ k', (k' < e - i)%nat →
            0 < bc + brace_balance (String.substring 0 (S k') rest)
  | None =>
      ∀ k', (k' < String.length rest)%nat →
            0 < bc + brace_balance (String.substring 0 (S k') rest)
  end.
Proof.
  revert i bc. induction rest as [|c rest IH]; intros i bc Hbc.
  { cbn. intros k' Hk'. lia. }
  cbn [scan_braces].
  set (d := (if Ascii.eqb c "{" then 1 else 0) -
            (if Ascii.eqb c "}" then 1 else 0)).
  assert ((if Ascii.eqb c "}"
           then (if Ascii.eqb c "{" then bc + 1 else bc) - 1
           else if Ascii.eqb c "{" then bc + 1 else bc) = bc + d) as ->.
  { unfold d. destruct (Ascii.eqb c "{"), (Ascii.eqb c "}"); lia. }
  assert (∀ k, brace_balance (String.substring 0 (S k) (String c rest)) =
               d + brace_balance (String.substring 0 k rest)) as Hstep.
  { intros k. reflexivity. }
  destruct (bc + d =? 0) eqn:Hz.
  - apply Z.eqb_eq in Hz. replace (i - i)%nat with 0%nat by lia.
    split; [done|]. split; [cbn; lia|].
    assert (Ascii.eqb c "}" = true) as Hc.
    { unfold d in Hz. destruct (Ascii.eqb c "{"), (Ascii.eqb c "}"); (done || lia). }
    apply Ascii.eqb_eq in Hc as ->.
    split; [exists ""; cbn; by rewrite substring_zero|].
    split; [rewrite Hstep, substring_zero; cbn; lia|]. intros k' Hk'. lia.
  - apply Z.eqb_neq in Hz.
    assert (0 < bc + d) as Hpos.
    { unfold d in *. destruct (Ascii.eqb c "{"), (Ascii.eqb c "}"); lia. }
    specialize (IH (S i) (bc + d) Hpos).
    destruct (scan_braces rest (S i) (bc + d)) as [e|].
    + destruct IH as (Hie & Hlen & [body Hbody] & Hbal & Hmin).
      replace (e - i)%nat with (S (e - S i)) by lia.
      split; [lia|]. split; [cbn; lia|].
      split.
      { exists (String c body). cbn [String.substring].
        replace (String.substring 0 (S (e - S i)) rest) with (body +:+ "}").
        done. }
      split; [rewrite Hstep; lia|].
      intros [|k'] Hk'.
      * rewrite Hstep, substring_zero. cbn. lia.
      * rewrite Hstep. specialize (Hmin k'). lia.
    + intros [|k'] Hk'.
      * rewrite Hstep, substring_zero. cbn. lia.
      * rewrite Hstep. cbn in Hk'. specialize (IH k'). lia.
Qed.

(** X18.  Whatever the script text holds after the marker, [objStr] has
    one of two shapes.  Either the braces balance somewhere: then [objStr]
    runs from the marker's opening brace to the first closing brace at
    which they do, it begins with an opening and ends with a closing brace,
    and the count was positive all the way.  Or they never balance: then
    [objStr] is the opening brace alone. *)
Theorem object_source_shape (txt : string) (idx : nat) :
  String.index 0 marker txt = Some idx →
  ∃ a : nat,
    String.index idx "{" txt = Some a ∧ (idx ≤ a ≤ idx + 22)%nat ∧
    ((∃ (e : nat) (body : string),
        (a < e < String.length txt)%nat ∧
        object_source txt idx = slice txt a e ∧
        object_source txt idx = "{" +:+ body +:+ "}" ∧
        brace_balance (object_source txt idx) = 0 ∧
        ∀ e' : nat, (a ≤ e' < e)%nat → 0 < brace_balance (slice txt a e')) ∨
     (object_source txt idx = "{" ∧
      ∀ e : nat, (a ≤ e < String.length txt)%nat →
                 0 < brace_balance (slice txt a e))).
Proof.
  intros Hidx. destruct (marker_brace txt idx Hidx) as (a & Ha & Hrange).
  exists a. split; [done|]. split; [done|].
  pose proof (index_correct1 _ _ _ _ Ha) as Hbrace. cbn [String.length] in Hbrace.
  set (rest := string_drop a txt).
  assert (∀ m, String.substring 0 m rest = String.substring a m txt) as Hsub
    by (intros m; apply substring_drop).
  assert (String.length rest = (String.length txt - a)%nat) as Hlen
    by apply string_drop_length.
  assert (∃ rest', rest = String "{" rest') as [rest' Hrest].
  { pose proof (Hsub 1%nat) as H1. rewrite Hbrace in H1.
    destruct rest as [|c rest']; [done|]. cbn in H1.
    rewrite substring_zero in H1. injection H1 as ->. by exists rest'. }
  assert (∀ k, slice txt a (a + k) = String.substring 0 (S k) rest) as Hslice.
  { intros k. unfold slice. rewrite Hsub. f_equal. lia. }
  assert (∀ k, brace_balance (String.substring 0 (S k) rest) =
               1 + brace_balance (String.substring 0 k rest')) as Hstep.
  { intros k. rewrite Hrest. reflexivity. }
  unfold object_source, end_index. rewrite Ha. fold rest.
  assert (scan_braces rest a 0 = scan_braces rest' (S a) 1) as ->
    by (rewrite Hrest; reflexivity).
  pose proof (scan_braces_open rest' (S a) 1 ltac:(lia)) as Hscan.
  assert (String.length rest = S (String.length rest')) as Hlen'
    by (rewrite Hrest; reflexivity).
  destruct (scan_braces rest' (S a) 1) as [e|]; cbn [default from_option id].
  - left. destruct Hscan as (Hae & Hel & [body Hbody] & Hbal & Hmin).
    exists e, body.
    assert (String.substring a (e + 1 - a) txt = slice txt a e) as Hobj by done.
    rewrite Hobj.
    assert (slice txt a e = String.substring 0 (S (S (e - S a))) rest) as He
      by (rewrite <- Hslice; f_equal; lia).
    split; [lia|]. split; [done|]. rewrite He.
    split.
    { rewrite Hrest. cbn [String.substring]. by rewrite Hbody. }
    split; [rewrite Hstep; lia|].
    intros e' He'. replace e' with (a + (e' - a))%nat by lia.
    rewrite Hslice, Hstep.
    destruct (e' - a)%nat as [|k'] eqn:Ek.
    + rewrite substring_zero. cbn. lia.
    + specialize (Hmin k'). lia.
  - right. split.
    + replace (a + 1 - a)%nat with 1%nat by lia. exact Hbrace.
    + intros e He. replace e with (a + (e - a))%nat by lia.
      rewrite Hslice, Hstep.
      destruct (e - a)%nat as [|k'] eqn:Ek.
      * rewrite substring_zero. cbn. lia.
      * specialize (Hscan k'). lia.
Qed.

End ScannerShape.

Lemma scripts_only_add_witness :
  ∃ m' : Dom.node,
    Dom.lookup (Stage.printed_dom Sample.prepare Sample.js_eval Sample.html)
               [1; 2]%nat = Some m' ∧
    Dom.tag_of m' = Some "div" ∧
    ["portfolio-card"] `prefix_of` Dom.classes_of m'.
Proof.
  destruct (scripts_only_add Sample.prepare Sample.js_eval Sample.html)
    as (_ & _ & _ & H).
  destruct (H [1; 2]%nat _ eq_refl) as (m' & H1 & H2 & _ & H3 & _).
  exists m'. split; [exact H1|]. split; [exact H2|exact H3].
Defined.

Lemma mark_sections_marks_targets_only_witness :
  ∃ m' : Dom.node,
    Dom.lookup (Script.mark_sections Sample.html).1 [1; 0]%nat = Some m' ∧
    Dom.has_class Script.BREAK m' = true.
Proof.
  destruct (mark_sections_marks_targets_only Sample.html) as (H & _).
  apply (H [1; 0]%nat). vm_compute. left.
Defined.

Lemma mark_sections_count_witness :
  Forall (λ id, is_Some (Dom.get_element_by_id id Tree.all_sections))
         Script.breakIds.
Proof.
  destruct (mark_sections_count Tree.all_sections) as (_ & _ & _ & H).
  apply H. vm_compute. reflexivity.
Defined.


Lemma object_source_shape_witness :
  ∃ a : nat,
    String.index 13 "{" Sample.script_text = Some a ∧ (13 ≤ a ≤ 13 + 22)%nat.
Proof.
  destruct (object_source_shape Sample.script_text 13) as (a & H1 & H2 & _).
  - vm_compute. reflexivity.
  - exists a. split; [exact H1|exact H2].
Defined.

(** ** The card name *)

Section CardName.

Import Dom Script Fmt.

Lemma trim_start_space (l : string) :
  all_chars is_space l = true → trim_start l = "".
Proof.
  induction l as [|c l IH]; [done|]. cbn [all_chars trim_start].
  intros [Hc Hl]%andb_true_iff. rewrite Hc. by apply IH.
Qed.

Lemma trim_start_app_space (l s : string) :
  all_chars is_space l = true → trim_start (l +:+ s) = trim_start s.
Proof.
  induction l as [|c l IH]; [done|]. cbn [all_chars].
  intros [Hc Hl]%andb_true_iff.
  change (String c l +:+ s) with (String c (l +:+ s)).
  cbn [trim_start]. rewrite Hc. by apply IH.
Qed.

Lemma trim_start_app (s r : string) :
  trim_start (s +:+ r) =
  if all_chars is_space s then trim_start r else trim_start s +:+ r.
Proof.
  induction s as [|c s IH]; [done|].
  change (String c s +:+ r) with (String c (s +:+ r)).
  cbn [trim_start all_chars].
  destruct (is_space c); [exact IH|done].
Qed.

Lemma trim_end_space (r : string) :
  all_chars is_space r = true → trim_end r = "".
Proof.
  induction r as [|c r IH]; [done|]. cbn [all_chars trim_end].
  intros [Hc Hr]%andb_true_iff. rewrite (IH Hr), Hc.
  by rewrite bool_decide_eq_true_2.
Qed.

Lemma trim_end_app_space (s r : string) :
  all_chars is_space r = true → trim_end (s +:+ r) = trim_end s.
Proof.
  intros Hr. induction s as [|c s IH].
  - by apply trim_end_space.
  - change (String c s +:+ r) with (String c (s +:+ r)).
    cbn [trim_end]. by rewrite IH.
Qed.

Lemma trim_app_space (l s r : string) :
  all_chars is_space l = true → all_chars is_space r = true →
  trim (l +:+ s +:+ r) = trim s.
Proof.
  intros Hl Hr. unfold trim.
  rewrite (trim_start_app_space l _ Hl), trim_start_app.
  destruct (all_chars is_space s) eqn:Hs.
  - by rewrite (trim_start_space r Hr), (trim_start_space s Hs).
  - by apply trim_end_app_space.
Qed.

Lemma card_entry_name (tbl : gmap string entry) (card : node) (np : path)
    (el : node) :
  query_selector_in (sel_class "portfolio-name") card = Some np →
  lookup card np = Some el →
  card_entry tbl card = tbl !! trim (text_content el).
Proof.
  intros Hq Hel. unfold card_entry. rewrite Hq.
  change (tbl !! trim (default "" (text_content <$> lookup card np)) =
          tbl !! trim (text_content el)).
  by rewrite Hel.
Qed.

(** X19.  The table is looked up by the trimmed name: white space before
    and after the text of a card's [.portfolio-name] element does not
    change which entry the card gets. *)
Theorem card_entry_ignores_outer_space (tbl : gmap string entry)
    (card card' : node) (np np' : path) (el el' : node) (l r : string) :
  query_selector_in (sel_class "portfolio-name") card = Some np →
  query_selector_in (sel_class "portfolio-name") card' = Some np' →
  lookup card np = Some el →
  lookup card' np' = Some el' →
  all_chars is_space l = true →
  all_chars is_space r = true →
  text_content el' = l +:+ text_content el +:+ r →
  card_entry tbl card' = card_entry tbl card ∧
  card_entry tbl card = tbl !! trim (text_content el).
Proof.
  intros Hq Hq' Hel Hel' Hl Hr Ht.
  rewrite (card_entry_name tbl card np el Hq Hel).
  rewrite (card_entry_name tbl card' np' el' Hq' Hel').
  by rewrite Ht, trim_app_space.
Qed.

End CardName.

Lemma card_entry_ignores_outer_space_witness :
  ∃ card card' : Dom.node,
    Dom.lookup Sample.html [1; 3]%nat = Some card ∧
    Dom.lookup Sample.html [1; 2]%nat = Some card' ∧
    Script.card_entry {[ "Brock" := Sample.brock ]} card' =
    Script.card_entry {[ "Brock" := Sample.brock ]} card.
Proof.
  eexists _, _. split; [reflexivity|]. split; [reflexivity|].
  refine (proj1 (card_entry_ignores_outer_space {[ "Brock" := Sample.brock ]}
                   _ _ [0%nat] [0%nat] _ _ " " " " _ _ _ _ _ _ _)).
  - vm_compute. reflexivity.
  - vm_compute. reflexivity.
  - reflexivity.
  - reflexivity.
  - reflexivity.
  - reflexivity.
  - reflexivity.
Defined.

(** ** Attributes *)

Section AttrFacts.

Import Dom Prep.

Lemma get_attr_cons (name : string) (kv : string * string)
    (a : list (string * string)) :
  get_attr name (kv :: a) =
  if bool_decide (kv.1 = name) then Some kv.2 else get_attr name a.
Proof. unfold get_attr. cbn. by destruct (bool_decide (kv.1 = name)). Qed.

Lemma get_attr_remove_eq (x : string) (a : list (string * string)) :
  get_attr x (remove_attr x a) = None.
Proof.
  unfold remove_attr. induction a as [|kv a IH]; [done|].
  rewrite filter_cons. destruct (decide (kv.1 ≠ x)) as [Hne|Heq]; [|done].
  rewrite get_attr_cons. by rewrite bool_decide_eq_false_2.
Qed.

Lemma get_attr_remove_ne (name x : string) (a : list (string * string)) :
  name ≠ x → get_attr name (remove_attr x a) = get_attr name a.
Proof.
  intros Hne. unfold remove_attr. induction a as [|kv a IH]; [done|].
  rewrite filter_cons, (get_attr_cons name kv a).
  destruct (decide (kv.1 ≠ x)) as [H1|H1].
  - by rewrite get_attr_cons, IH.
  - rewrite IH. rewrite bool_decide_eq_false_2; [done|].
    intros E. apply H1. congruence.
Qed.

Lemma get_attr_app_none (name v : string) (a : list (string * string)) :
  get_attr name a = None → get_attr name (a ++ [(name, v)]) = Some v.
Proof.
  induction a as [|kv a IH]; intros Hn.
  - rewrite app_nil_l, get_attr_cons. by rewrite bool_decide_eq_true_2.
  - cbn [app]. rewrite get_attr_cons in Hn |- *.
    destruct (bool_decide (kv.1 = name)); [done|]. by apply IH.
Qed.

Lemma get_attr_app_ne (name x v : string) (a : list (string * string)) :
  name ≠ x → get_attr name (a ++ [(x, v)]) = get_attr name a.
Proof.
  intros Hne. induction a as [|kv a IH].
  - rewrite app_nil_l, get_attr_cons. by rewrite bool_decide_eq_false_2.
  - cbn [app]. rewrite !get_attr_cons. by rewrite IH.
Qed.

Lemma get_attr_fmap_set (name x v : string) (a : list (string * string)) :
  get_attr name
    ((λ kv, if bool_decide (kv.1 = x) then (x, v) else kv) <$> a) =
  if bool_decide (name = x) then (λ _, v) <$> get_attr x a
  else get_attr name a.
Proof.
  induction a as [|kv a IH].
  { by case_bool_decide. }
  cbn [fmap list_fmap]. rewrite (get_attr_cons name), IH.
  rewrite !(get_attr_cons _ kv a).
  destruct kv as [k u]. cbn [fst snd].
  repeat case_bool_decide; cbn [fst snd] in *; simplify_eq; done.
Qed.

Lemma get_attr_set_eq (x v : string) (a : list (string * string)) :
  get_attr x (set_attr x v a) = Some v.
Proof.
  unfold set_attr. destruct (get_attr x a) as [u|] eqn:E.
  - rewrite bool_decide_eq_true_2 by by eexists.
    rewrite get_attr_fmap_set, bool_decide_eq_true_2 by done. by rewrite E.
  - rewrite bool_decide_eq_false_2 by by intros [? ?].
    by apply get_attr_app_none.
Qed.

Lemma get_attr_set_ne (name x v : string) (a : list (string * string)) :
  name ≠ x → get_attr name (set_attr x v a) = get_attr name a.
Proof.
  intros Hne. unfold set_attr. destruct (bool_decide _).
  - by rewrite get_attr_fmap_set, bool_decide_eq_false_2.
  - by apply get_attr_app_ne.
Qed.

Lemma remove_set_attr (x v : string) (a : list (string * string)) :
  remove_attr x (set_attr x v a) = remove_attr x a.
Proof.
  unfold set_attr, remove_attr. destruct (bool_decide _).
  - induction a as [|kv a IH]; [done|]. cbn [fmap list_fmap].
    rewrite !filter_cons, IH.
    destruct (decide (kv.1 = x)) as [Hk|Hk].
    + rewrite (bool_decide_eq_true_2 _ Hk). cbn.
      rewrite !decide_False; [done|by intros H; apply H|by intros H; apply H].
    + rewrite (bool_decide_eq_false_2 _ Hk). by rewrite !decide_True.
  - rewrite filter_app, filter_cons, decide_False by (intros H; by apply H).
    by rewrite filter_nil, app_nil_r.
Qed.

Lemma remove_attr_comm (x y : string) (a : list (string * string)) :
  remove_attr x (remove_attr y a) = remove_attr y (remove_attr x a).
Proof.
  unfold remove_attr. induction a as [|kv a IH]; [done|].
  rewrite !filter_cons.
  destruct (decide (kv.1 ≠ y)), (decide (kv.1 ≠ x));
    rewrite ?filter_cons, ?decide_True, ?decide_False by done; by rewrite ?IH.
Qed.

Lemma remove_attr_idem (x : string) (a : list (string * string)) :
  remove_attr x (remove_attr x a) = remove_attr x a.
Proof.
  unfold remove_attr. induction a as [|kv a IH]; [done|].
  rewrite !filter_cons. destruct (decide (kv.1 ≠ x)); [|done].
  by rewrite filter_cons, decide_True, IH.
Qed.

Lemma get_attr_other (name : string) (a : list (string * string)) :
  name ≠ "loading" → name ≠ "src" →
  get_attr name (other_attrs a) = get_attr name a.
Proof.
  intros H1 H2. unfold other_attrs. by rewrite !get_attr_remove_ne.
Qed.

End AttrFacts.

(** ** Documents that differ in image attributes only *)

Section ImgEquivFacts.

Import Dom Prep.

Lemma img_equiv_Elem t a cs k t' a' cs' k' :
  img_equiv (Elem t a cs k) (Elem t' a' cs' k') =
  bool_decide (t = t') && bool_decide (cs = cs') &&
  (if bool_decide (t = "img")
   then bool_decide (other_attrs a = other_attrs a')
   else bool_decide (a = a')) &&
  img_equiv_kids k k'.
Proof. reflexivity. Qed.

Lemma img_equiv_Elem_inv t a cs k t' a' cs' k' :
  img_equiv (Elem t a cs k) (Elem t' a' cs' k') = true ↔
  t = t' ∧ cs = cs' ∧
  (if bool_decide (t = "img") then other_attrs a = other_attrs a' else a = a') ∧
  img_equiv_kids k k' = true.
Proof.
  rewrite img_equiv_Elem, !andb_true_iff, !bool_decide_eq_true.
  destruct (bool_decide (t = "img")); rewrite bool_decide_eq_true; tauto.
Qed.

Lemma img_equiv_kids_spec (k k' : list node) :
  img_equiv_kids k k' = true ↔ Forall2 (λ x x', img_equiv x x' = true) k k'.
Proof.
  revert k'. induction k as [|x k IH]; intros [|x' k']; cbn [img_equiv_kids].
  - split; [constructor|done].
  - split; [done|inversion 1].
  - split; [done|inversion 1].
  - rewrite andb_true_iff, IH. split.
    + intros [? ?]. by constructor.
    + inversion 1; subst. done.
Qed.

Lemma img_equiv_refl (n : node) : img_equiv n n = true.
Proof.
  induction n as [t a cs k IH|s] using node_ind.
  - apply img_equiv_Elem_inv. split; [done|]. split; [done|].
    split; [by destruct (bool_decide _)|].
    apply img_equiv_kids_spec. induction IH; by constructor.
  - cbn. by apply bool_decide_eq_true.
Qed.

Lemma img_equiv_sym (n n' : node) :
  img_equiv n n' = true → img_equiv n' n = true.
Proof.
  revert n'. induction n as [t a cs k IH|s] using node_ind;
    intros [t' a' cs' k'|s']; try done.
  - rewrite !img_equiv_Elem_inv. intros (-> & -> & Ha & Hk).
    split; [done|]. split; [done|].
    split; [by destruct (bool_decide _)|].
    apply img_equiv_kids_spec. apply img_equiv_kids_spec in Hk.
    revert k' Hk. induction IH as [|x k Hx _ IHk]; intros k' Hk.
    + inversion Hk. constructor.
    + inversion Hk; subst. constructor; [by apply Hx|by apply IHk].
  - cbn. rewrite !bool_decide_eq_true. congruence.
Qed.

Lemma img_equiv_trans (n1 n2 n3 : node) :
  img_equiv n1 n2 = true → img_equiv n2 n3 = true → img_equiv n1 n3 = true.
Proof.
  revert n2 n3. induction n1 as [t a cs k IH|s] using node_ind;
    intros [t2 a2 cs2 k2|s2] [t3 a3 cs3 k3|s3]; try done.
  - rewrite !img_equiv_Elem_inv.
    intros (-> & -> & Ha & Hk) (-> & -> & Ha' & Hk').
    split; [done|]. split; [done|].
    split; [destruct (bool_decide _); congruence|].
    apply img_equiv_kids_spec.
    apply img_equiv_kids_spec in Hk. apply img_equiv_kids_spec in Hk'.
    revert k2 k3 Hk Hk'. induction IH as [|x k Hx _ IHk]; intros k2 k3 Hk Hk'.
    + inversion Hk; subst. inversion Hk'. constructor.
    + inversion Hk; subst. inversion Hk'; subst.
      constructor; [by eapply Hx|by eapply IHk].
  - cbn. rewrite !bool_decide_eq_true. congruence.
Qed.

Lemma img_equiv_lookup (n n' : node) (p : path) :
  img_equiv n n' = true →
  option_Forall2 (λ m m', img_equiv m m' = true) (lookup n p) (lookup n' p).
Proof.
  revert n n'. induction p as [|i p IH]; intros n n' Hn.
  { by constructor. }
  destruct n as [t a cs k|s], n' as [t' a' cs' k'|s']; try done;
    [|constructor].
  apply img_equiv_Elem_inv in Hn as (_ & _ & _ & Hk).
  apply img_equiv_kids_spec in Hk. cbn [lookup kids_of].
  pose proof (proj1 (Forall2_lookup _ k k') Hk i) as Hi.
  destruct Hi as [x x' Hx|]; cbn; [by apply IH|constructor].
Qed.

Lemma img_equiv_same (m m' : node) :
  img_equiv m m' = true →
  tag_of m' = tag_of m ∧ classes_of m' = classes_of m ∧
  (∀ name, name ≠ "loading" → name ≠ "src" →
           attr_of name m' = attr_of name m) ∧
  (tag_of m ≠ Some "img" → ∀ name, attr_of name m' = attr_of name m).
Proof.
  destruct m as [t a cs k|s], m' as [t' a' cs' k'|s']; try done.
  rewrite img_equiv_Elem_inv. intros (-> & -> & Ha & _).
  split; [done|]. split; [done|]. cbn [attr_of tag_of].
  destruct (decide (t' = "img")) as [->|Hne].
  - rewrite bool_decide_eq_true_2 in Ha by done. split; [|done].
    intros name H1 H2.
    by rewrite <- (get_attr_other name a'), <- Ha, get_attr_other.
  - rewrite bool_decide_eq_false_2 in Ha by done. subst. done.
Qed.

(** Updates keep two such documents alike. *)
Lemma img_equiv_kids_alter (g h : node → node) (i : nat) (k k' : list node) :
  img_equiv_kids k k' = true →
  (∀ x x', k !! i = Some x → k' !! i = Some x' → img_equiv x x' = true →
           img_equiv (g x) (h x') = true) →
  img_equiv_kids (alter g i k) (alter h i k') = true.
Proof.
  rewrite !img_equiv_kids_spec. intros Hk Hg.
  apply Forall2_same_length_lookup. split.
  { rewrite !length_alter. by eapply Forall2_length. }
  intros j y y' Hy Hy'.
  destruct (decide (i = j)) as [->|Hne].
  - rewrite list_lookup_alter_eq in Hy, Hy'.
    destruct (k !! j) as [x|] eqn:Hx; [|done].
    destruct (k' !! j) as [x'|] eqn:Hx'; [|done].
    cbn in Hy, Hy'. injection Hy as <-. injection Hy' as <-.
    apply Hg; [done|done|].
    exact (Forall2_lookup_lr _ _ _ _ _ _ Hk Hx Hx').
  - rewrite list_lookup_alter_ne in Hy, Hy' by done.
    exact (Forall2_lookup_lr _ _ _ _ _ _ Hk Hy Hy').
Qed.

Lemma img_equiv_update (p : path) (f g : node → node) (n n' : node) :
  img_equiv n n' = true →
  (∀ m m', lookup n p = Some m → lookup n' p = Some m' →
           img_equiv m m' = true → img_equiv (f m) (g m') = true) →
  img_equiv (update p f n) (update p g n') = true.
Proof.
  revert n n'. induction p as [|i p IH]; intros n n' Hn Hf.
  { by apply Hf. }
  destruct n as [t a cs k|s], n' as [t' a' cs' k'|s']; try done.
  cbn [update]. apply img_equiv_Elem_inv in Hn as (-> & -> & Ha & Hk).
  apply img_equiv_Elem_inv. split; [done|]. split; [done|]. split; [done|].
  apply img_equiv_kids_alter; [done|].
  intros x x' Hx Hx' Hxx. apply IH; [done|].
  intros m m' Hm Hm'. apply Hf; cbn [lookup kids_of]; by rewrite ?Hx, ?Hx'.
Qed.

Lemma text_content_Elem t a cs (k : list node) :
  text_content (Elem t a cs k) =
  foldr (λ x acc, text_content x +:+ acc) "" k.
Proof.
  induction k as [|x k IH]; [done|]. cbn [foldr]. rewrite <- IH. reflexivity.
Qed.

Lemma text_content_img_equiv (n n' : node) :
  img_equiv n n' = true → text_content n = text_content n'.
Proof.
  revert n'. induction n as [t a cs k IH|s] using node_ind;
    intros [t' a' cs' k'|s']; try done.
  - rewrite img_equiv_Elem_inv. intros (_ & _ & _ & Hk).
    apply img_equiv_kids_spec in Hk. rewrite !text_content_Elem.
    revert k' Hk. induction IH as [|x k Hx _ IHk]; intros k' Hk.
    + by inversion Hk.
    + inversion Hk; subst. cbn [foldr]. f_equal; [by apply Hx|by apply IHk].
  - cbn. by rewrite bool_decide_eq_true.
Qed.

Lemma select_kids_img_equiv (sel : node → bool) (i : nat) (k k' : list node) :
  Forall2 (λ x x', select sel x = select sel x') k k' →
  select_kids sel i k = select_kids sel i k'.
Proof.
  intros H. revert i. induction H as [|x x' k k' Hx _ IH]; intros i; [done|].
  cbn [select_kids]. by rewrite Hx, IH.
Qed.

(** A selector that cannot tell the two documents' elements apart finds
    the same addresses in both. *)
Lemma select_img_equiv (sel : node → bool) (n n' : node) :
  img_blind sel → img_equiv n n' = true → select sel n = select sel n'.
Proof.
  intros Hsel. revert n'. induction n as [t a cs k IH|s] using node_ind;
    intros [t' a' cs' k'|s'] Hn; try done.
  rewrite !select_Elem. rewrite (Hsel _ _ Hn). f_equal.
  apply img_equiv_Elem_inv in Hn as (_ & _ & _ & Hk).
  apply img_equiv_kids_spec in Hk. apply select_kids_img_equiv.
  revert k' Hk. induction IH as [|x k Hx _ IHk]; intros k' Hk.
  - inversion Hk. constructor.
  - inversion Hk; subst. constructor; [by apply Hx|by apply IHk].
Qed.

Lemma sel_id_img_blind (id : string) : img_blind (sel_id id).
Proof.
  intros m m' (_ & _ & Ha & _)%img_equiv_same. unfold sel_id.
  by rewrite Ha.
Qed.

Lemma sel_class_img_blind (c : string) : img_blind (sel_class c).
Proof.
  intros m m' (_ & Hc & _)%img_equiv_same. unfold sel_class, has_class.
  by rewrite Hc.
Qed.

Lemma sel_gradient_img_blind : img_blind sel_gradient_section.
Proof.
  intros m m' (Ht & _ & _ & Ha)%img_equiv_same. unfold sel_gradient_section.
  rewrite Ht. destruct (decide (tag_of m = Some "section")) as [E|E].
  - rewrite Ha; [done|]. by rewrite E.
  - by rewrite !bool_decide_eq_false_2.
Qed.

Lemma sel_inline_script_img_blind : img_blind sel_inline_script.
Proof.
  intros m m' (Ht & _ & _ & Ha)%img_equiv_same. unfold sel_inline_script.
  rewrite Ht. destruct (decide (tag_of m = Some "script")) as [E|E].
  - rewrite Ha; [done|]. by rewrite E.
  - by rewrite !(bool_decide_eq_false_2 _ E).
Qed.

End ImgEquivFacts.

(** ** The lazy-loading script *)

Section LazyFacts.

Import Dom Prep.

Variable img_src : option string → string.

#[local] Abbreviation fix1 := (fix_img img_src).
#[local] Abbreviation upd := (λ (n : node) (p : path), update p (fix_img img_src) n).

Lemma fix_step_fold (ps : list path) (st : node * Z) :
  foldl (fix_step img_src) st ps =
  (foldl upd st.1 ps, st.2 + Z.of_nat (length ps)).
Proof.
  revert st. induction ps as [|p ps IH]; intros [n c].
  { cbn. f_equal. lia. }
  cbn [foldl]. rewrite IH. cbn [fix_step fst snd length]. f_equal. lia.
Qed.

Lemma foldl_upd_cons (i : nat) (ps : list path) t a cs (ks : list node) :
  foldl upd (Elem t a cs ks) (cons i <$> ps) =
  Elem t a cs (alter (λ x, foldl upd x ps) i ks).
Proof.
  revert ks. induction ps as [|p ps IH]; intros ks.
  { cbn. by rewrite list_alter_id. }
  cbn [fmap list_fmap foldl update]. rewrite IH. by rewrite list_alter_alter_eq.
Qed.

Lemma foldl_upd_kids (sel : node → bool) (F : node → node) t a cs
    (pre k : list node) :
  Forall (λ x, foldl upd x (select sel x) = F x) k →
  foldl upd (Elem t a cs (pre ++ k)) (select_kids sel (length pre) k) =
  Elem t a cs (pre ++ (F <$> k)).
Proof.
  intros Hk. revert pre. induction Hk as [|x k Hx _ IH]; intros pre; [done|].
  cbn [select_kids]. rewrite foldl_app, foldl_upd_cons.
  replace (alter (λ x0, foldl upd x0 (select sel x)) (length pre) (pre ++ x :: k))
    with ((pre ++ [F x]) ++ k).
  - replace (S (length pre)) with (length (pre ++ [F x]))
      by (rewrite length_app; cbn; lia).
    rewrite IH. by rewrite <- app_assoc.
  - rewrite <- (Nat.add_0_r (length pre)), alter_app_r. cbn.
    by rewrite Hx, <- app_assoc.
Qed.

Lemma fix_img_Elem t a cs k :
  fix1 (Elem t a cs k) =
  Elem t (set_attr "src" (img_src (get_attr "src" (remove_attr "loading" a)))
            (set_attr "src" "" (remove_attr "loading" a))) cs k.
Proof. reflexivity. Qed.

Lemma sel_lazy_img_kid_blind : kid_blind sel_lazy_img.
Proof. by intros t a cs k k'. Qed.

(** The loop over the static list is one pass over the tree. *)
Lemma foldl_upd_select (n : node) :
  foldl upd n (select sel_lazy_img n) = fix_all img_src n.
Proof.
  induction n as [t a cs k IH|s] using node_ind; [|done].
  rewrite select_Elem, foldl_app. cbn [fix_all].
  destruct (sel_lazy_img (Elem t a cs k)).
  - cbn [foldl update]. rewrite !fix_img_Elem.
    apply (foldl_upd_kids sel_lazy_img (fix_all img_src) _ _ _ [] k IH).
  - cbn [foldl].
    apply (foldl_upd_kids sel_lazy_img (fix_all img_src) _ _ _ [] k IH).
Qed.

Lemma remove_lazy_eq (root : node) :
  remove_lazy img_src root =
  (fix_all img_src root,
   Z.of_nat (length (query_selector_all sel_lazy_img root))).
Proof.
  unfold remove_lazy. rewrite fix_step_fold. cbn [fst snd].
  by rewrite foldl_upd_select.
Qed.

Lemma fix_all_lookup (n : node) (p : path) :
  lookup (fix_all img_src n) p = fix_all img_src <$> lookup n p.
Proof.
  revert n. induction p as [|i p IH]; intros n; [done|].
  destruct n as [t a cs k|s]; [|done].
  assert (kids_of (fix_all img_src (Elem t a cs k)) = fix_all img_src <$> k)
    as Hk by (cbn [fix_all]; by destruct (sel_lazy_img _)).
  cbn [lookup]. rewrite Hk. cbn [kids_of]. rewrite list_lookup_fmap.
  destruct (k !! i) as [x|]; [apply IH|done].
Qed.

Lemma attr_fixed_loading (a : list (string * string)) (v : string) :
  get_attr "loading"
    (set_attr "src" v (set_attr "src" "" (remove_attr "loading" a))) = None.
Proof. by rewrite !get_attr_set_ne, get_attr_remove_eq. Qed.

Lemma attr_fixed_other (a : list (string * string)) (v : string) :
  other_attrs (set_attr "src" v (set_attr "src" "" (remove_attr "loading" a)))
  = other_attrs a.
Proof.
  unfold other_attrs. rewrite !remove_set_attr.
  by rewrite (remove_attr_comm "src"), remove_attr_idem.
Qed.

(** What the pass makes of one node. *)
Lemma fix_all_node (m : node) :
  tag_of (fix_all img_src m) = tag_of m ∧
  classes_of (fix_all img_src m) = classes_of m ∧
  (∀ name,
     attr_of name (fix_all img_src m) =
     if sel_lazy_img m
     then (if bool_decide (name = "loading") then None
           else if bool_decide (name = "src")
                then Some (img_src (attr_of "src" m))
                else attr_of name m)
     else attr_of name m).
Proof.
  destruct m as [t a cs k|s]; [|done]. cbn [fix_all].
  destruct (sel_lazy_img (Elem t a cs k)); [|done].
  rewrite fix_img_Elem. split; [done|]. split; [done|].
  intros name. cbn [attr_of].
  destruct (decide (name = "loading")) as [->|H1].
  { by rewrite bool_decide_eq_true_2, attr_fixed_loading. }
  rewrite (bool_decide_eq_false_2 _ H1).
  destruct (decide (name = "src")) as [->|H2].
  - rewrite bool_decide_eq_true_2 by done.
    by rewrite get_attr_set_eq, get_attr_remove_ne.
  - rewrite (bool_decide_eq_false_2 _ H2).
    by rewrite !get_attr_set_ne, get_attr_remove_ne.
Qed.

Lemma fix_all_img_equiv (n : node) : img_equiv n (fix_all img_src n) = true.
Proof.
  induction n as [t a cs k IH|s] using node_ind; [|apply img_equiv_refl].
  assert (img_equiv_kids k (fix_all img_src <$> k) = true) as Hk.
  { apply img_equiv_kids_spec. induction IH; by constructor. }
  cbn [fix_all].
  destruct (sel_lazy_img (Elem t a cs k)) eqn:Hs.
  - rewrite fix_img_Elem. apply img_equiv_Elem_inv.
    apply andb_true_iff in Hs as [Ht _]. apply bool_decide_eq_true in Ht.
    injection Ht as ->. rewrite bool_decide_eq_true_2 by done.
    by rewrite attr_fixed_other.
  - apply img_equiv_Elem_inv. by destruct (bool_decide (t = "img")).
Qed.

Lemma fix_all_no_lazy (n : node) : select sel_lazy_img (fix_all img_src n) = [].
Proof.
  induction n as [t a cs k IH|s] using node_ind; [|done].
  assert (∀ i, select_kids sel_lazy_img i (fix_all img_src <$> k) = []) as Hk.
  { induction IH as [|x k Hx _ IHk]; intros i; [done|].
    cbn [fmap list_fmap select_kids]. by rewrite Hx, IHk. }
  cbn [fix_all].
  destruct (sel_lazy_img (Elem t a cs k)) eqn:Hs.
  - rewrite fix_img_Elem, select_Elem, Hk, app_nil_r.
    unfold sel_lazy_img at 1. cbn [attr_of].
    by rewrite attr_fixed_loading, andb_false_r.
  - rewrite select_Elem, Hk, app_nil_r.
    by rewrite (sel_lazy_img_kid_blind t a cs (fix_all img_src <$> k) k), Hs.
Qed.

(** X20.  The lazy-loading script counts the [img] elements whose
    [loading] attribute is [lazy].  Afterwards none is left; each of them
    has lost [loading] and has as [src] what the getter [img.src] returned;
    and nothing else has changed: the tree has the same nodes at the same
    addresses with the same tags, classes and text, and every other
    attribute of every element is as it was. *)
Theorem remove_lazy_result (root : node) :
  let after := (remove_lazy img_src root).1 in
  (remove_lazy img_src root).2 =
    Z.of_nat (length (query_selector_all sel_lazy_img root)) ∧
  query_selector_all sel_lazy_img after = [] ∧
  img_equiv root after = true ∧
  text_content after = text_content root ∧
  ∀ p : path,
    option_Forall2
      (λ m m',
         tag_of m' = tag_of m ∧ classes_of m' = classes_of m ∧
         ∀ name,
           attr_of name m' =
           if sel_lazy_img m
           then (if bool_decide (name = "loading") then None
                 else if bool_decide (name = "src")
                      then Some (img_src (attr_of "src" m))
                      else attr_of name m)
           else attr_of name m)
      (lookup root p) (lookup after p).
Proof.
  cbv zeta. rewrite remove_lazy_eq. cbn [fst snd].
  split; [done|]. split; [apply fix_all_no_lazy|].
  split; [apply fix_all_img_equiv|].
  split; [symmetry; apply text_content_img_equiv, fix_all_img_equiv|].
  intros p. rewrite fix_all_lookup.
  destruct (lookup root p) as [m|]; constructor. apply fix_all_node.
Qed.

(** X21.  The lazy-loading script is idempotent: run again on its own
    result it finds no image, changes nothing and returns 0. *)
Theorem remove_lazy_twice (root : node) :
  remove_lazy img_src (remove_lazy img_src root).1 =
  ((remove_lazy img_src root).1, 0).
Proof.
  rewrite (remove_lazy_eq root). cbn [fst].
  unfold remove_lazy, query_selector_all. by rewrite fix_all_no_lazy.
Qed.

End LazyFacts.

(** ** The later scripts do not look at image attributes *)

Section BlindFacts.

Import Dom Script View Tree Prep.

Variable js_eval : string → option (gmap string entry).

Lemma add_class_img_equiv (c : string) (m m' : node) :
  img_equiv m m' = true → img_equiv (add_class c m) (add_class c m') = true.
Proof.
  destruct m as [t a cs k|s], m' as [t' a' cs' k'|s']; try done.
  cbn [add_class]. rewrite !img_equiv_Elem_inv. intros (-> & -> & Ha & Hk).
  done.
Qed.

Lemma foldl_mark_img_equiv (ps : list path) (n n' : node) :
  img_equiv n n' = true →
  img_equiv (foldl mark_at n ps) (foldl mark_at n' ps) = true.
Proof.
  revert n n'. induction ps as [|p ps IH]; intros n n' Hn; [done|].
  cbn [foldl]. apply IH. unfold mark_at. apply img_equiv_update; [done|].
  intros m m' _ _. apply add_class_img_equiv.
Qed.

Lemma get_element_by_id_img_equiv (id : string) (n n' : node) :
  img_equiv n n' = true → get_element_by_id id n = get_element_by_id id n'.
Proof.
  intros Hn. unfold get_element_by_id, query_selector.
  by rewrite (select_img_equiv _ _ _ (sel_id_img_blind id) Hn).
Qed.

Lemma id_targets_img_equiv (n n' : node) :
  img_equiv n n' = true → id_targets n = id_targets n'.
Proof.
  intros Hn. unfold id_targets. apply omap_ext_all. intros id.
  by apply get_element_by_id_img_equiv.
Qed.

Lemma gradient_target_img_equiv (n n' : node) :
  img_equiv n n' = true → gradient_target n = gradient_target n'.
Proof.
  intros Hn. unfold gradient_target, query_selector.
  by rewrite (select_img_equiv _ _ _ sel_gradient_img_blind Hn).
Qed.

Lemma present_ids_img_equiv (n n' : node) :
  img_equiv n n' = true → present_ids n = present_ids n'.
Proof.
  intros Hn. unfold present_ids. induction breakIds as [|id ids IH]; [done|].
  rewrite !filter_cons, IH, (get_element_by_id_img_equiv id n n' Hn).
  by destruct (decide _).
Qed.

Lemma has_class_lookup_img_equiv (c : string) (n n' : node) (p : path) :
  img_equiv n n' = true →
  from_option (has_class c) false (lookup n p) =
  from_option (has_class c) false (lookup n' p).
Proof.
  intros Hn. destruct (img_equiv_lookup n n' p Hn) as [m m' Hm|]; [|done].
  cbn. apply img_equiv_same in Hm as (_ & Hc & _). unfold has_class.
  by rewrite Hc.
Qed.

Lemma gradient_counted_img_equiv (n n' : node) :
  img_equiv n n' = true → gradient_counted n = gradient_counted n'.
Proof.
  intros Hn. unfold gradient_counted.
  rewrite <- (gradient_target_img_equiv n n' Hn),
          <- (id_targets_img_equiv n n' Hn).
  destruct (gradient_target n) as [p|]; [|done].
  by rewrite (has_class_lookup_img_equiv BREAK n n' p Hn).
Qed.

Lemma script_texts_img_equiv (n n' : node) :
  img_equiv n n' = true → script_texts n = script_texts n'.
Proof.
  intros Hn. unfold script_texts, query_selector_all.
  rewrite <- (select_img_equiv _ _ _ sel_inline_script_img_blind Hn).
  apply omap_ext_all. intros p.
  destruct (img_equiv_lookup n n' p Hn) as [m m' Hm|]; [|done].
  cbn. f_equal. by apply text_content_img_equiv.
Qed.

Lemma query_selector_in_img_equiv (sel : node → bool) (m m' : node) :
  img_blind sel → img_equiv m m' = true →
  query_selector_in sel m = query_selector_in sel m'.
Proof.
  intros Hsel Hm. unfold query_selector_in. f_equal.
  destruct m as [t a cs k|s], m' as [t' a' cs' k'|s']; try done.
  apply img_equiv_Elem_inv in Hm as (_ & _ & _ & Hk).
  apply img_equiv_kids_spec in Hk. cbn [kids_of].
  apply select_kids_img_equiv.
  eapply Forall2_impl; [exact Hk|]. intros x x' Hx. by apply select_img_equiv.
Qed.

Lemma card_entry_img_equiv (tbl : gmap string entry) (m m' : node) :
  img_equiv m m' = true → card_entry tbl m = card_entry tbl m'.
Proof.
  intros Hm. unfold card_entry.
  rewrite <- (query_selector_in_img_equiv _ m m'
                (sel_class_img_blind "portfolio-name") Hm).
  destruct (query_selector_in _ m) as [np|]; [|done]. cbn.
  destruct (img_equiv_lookup m m' np Hm) as [x x' Hx|]; [|done].
  cbn. by rewrite (text_content_img_equiv x x' Hx).
Qed.

Lemma card_counted_img_equiv (tbl : gmap string entry) (n n' : node) (cp : path) :
  img_equiv n n' = true → card_counted tbl n cp = card_counted tbl n' cp.
Proof.
  intros Hn. unfold card_counted.
  destruct (img_equiv_lookup n n' cp Hn) as [m m' Hm|]; [|done].
  cbn. rewrite (card_entry_img_equiv tbl m m' Hm).
  by rewrite (query_selector_in_img_equiv _ m m'
                (sel_class_img_blind "portfolio-info") Hm).
Qed.

(** X22.  The section-marking and card scripts do not look at the
    [loading] and [src] attributes of images: on two documents that differ
    in nothing else (as a document and its lazy-fixed version do) they find
    the same elements, the same cards and the same table, the marking
    returns the same count and leaves documents that again differ in
    nothing else, and the card script returns the same count when no card
    lies inside another. *)
Theorem scripts_blind_to_image_attributes (root root' : node) :
  img_equiv root root' = true →
  let cards := query_selector_all (sel_class "portfolio-card") root in
  targets root' = targets root ∧
  (mark_sections root').2 = (mark_sections root).2 ∧
  img_equiv (mark_sections root).1 (mark_sections root').1 = true ∧
  query_selector_all (sel_class "portfolio-card") root' = cards ∧
  find_table js_eval (script_texts root') =
    find_table js_eval (script_texts root) ∧
  (all_apart cards = true →
   (expand_cards js_eval root').2 = (expand_cards js_eval root).2).
Proof.
  intros Hn. cbv zeta.
  assert (targets root' = targets root) as Ht.
  { unfold targets.
    by rewrite (id_targets_img_equiv root root' Hn),
               (gradient_target_img_equiv root root' Hn). }
  assert (query_selector_all (sel_class "portfolio-card") root' =
          query_selector_all (sel_class "portfolio-card") root) as Hc.
  { unfold query_selector_all. symmetry.
    by apply select_img_equiv; [apply sel_class_img_blind|]. }
  assert (find_table js_eval (script_texts root') =
          find_table js_eval (script_texts root)) as Hf
    by by rewrite (script_texts_img_equiv root root' Hn).
  split; [exact Ht|]. split.
  { rewrite !mark_sections_count_eq.
    by rewrite (present_ids_img_equiv root root' Hn),
               (gradient_counted_img_equiv root root' Hn). }
  split.
  { rewrite !mark_sections_dom, Ht. by apply foldl_mark_img_equiv. }
  split; [exact Hc|]. split; [exact Hf|].
  intros Hap.
  destruct (find_table js_eval (script_texts root)) as [tbl|] eqn:Htbl.
  - rewrite (expand_cards_count_eq js_eval root tbl Htbl Hap).
    rewrite (expand_cards_count_eq js_eval root' tbl Hf) by by rewrite Hc.
    rewrite Hc. f_equal. f_equal. apply list_filter_iff. intros cp.
    by rewrite (card_counted_img_equiv tbl root root' cp Hn).
  - unfold expand_cards. by rewrite Hf, Htbl.
Qed.

End BlindFacts.

(** ** The style-sheet script *)

Section InjectFacts.

Import Dom Tree Prep.

Variable parse_fragment : string → list node.

Lemma select_kids_app (sel : node → bool) (i : nat) (k new : list node) :
  select_kids sel i (k ++ new) =
  select_kids sel i k ++ select_kids sel (i + length k) new.
Proof.
  revert i. induction k as [|x k IH]; intros i.
  { cbn. by rewrite Nat.add_0_r. }
  cbn [app select_kids length]. rewrite IH, <- app_assoc.
  by replace (S i + length k)%nat with (i + S (length k))%nat by lia.
Qed.

Lemma select_kids_nothing (sel : node → bool) (i : nat) (new : list node) :
  Forall (λ x, select sel x = []) new → select_kids sel i new = [].
Proof.
  intros H. revert i. induction H as [|x new Hx _ IH]; intros i; [done|].
  cbn [select_kids]. by rewrite Hx, IH.
Qed.

(** Appending nodes a selector finds nothing in does not change what the
    selector finds, nor where. *)
Lemma select_append (sel : node → bool) (p : path) (new : list node) (n : node) :
  kid_blind sel → Forall (λ x, select sel x = []) new →
  select sel (update p (append_children new) n) = select sel n.
Proof.
  intros Hsel Hnew. revert n. induction p as [|i p IH]; intros n.
  - destruct n as [t a cs k|s]; [|done]. cbn [update append_children].
    rewrite !select_Elem, select_kids_app, (select_kids_nothing _ _ _ Hnew).
    by rewrite app_nil_r, (Hsel t a cs (k ++ new) k).
  - destruct n as [t a cs k|s]; [|done]. cbn [update].
    rewrite !select_Elem, select_kids_alter by done.
    by rewrite (Hsel t a cs (alter _ i k) k).
Qed.

Lemma document_head_spec (root : node) (p : path) :
  document_head root = Some p →
  ∃ (i : nat) (head : node),
    p = [i] ∧ tag_of root = Some "html" ∧
    lookup root p = Some head ∧ tag_of head = Some "head" ∧
    ∀ (j : nat) (x : node),
      (j < i)%nat → lookup root [j] = Some x → tag_of x ≠ Some "head".
Proof.
  destruct root as [t a cs k|s]; [|done]. cbn [document_head].
  case_bool_decide as Ht; [|done]. subst t.
  destruct (list_find _ k) as [[i head]|] eqn:Hfind; [|done].
  intros [= <-]. apply list_find_Some in Hfind as (Hi & Hh & Hmin).
  exists i, head. split; [done|]. split; [done|].
  split; [cbn; by rewrite Hi|]. split; [done|].
  intros j x Hj Hx. cbn in Hx. destruct (k !! j) as [y|] eqn:Hy; [|done].
  injection Hx as <-. by eapply Hmin.
Qed.

(** X23.  The style-sheet script appends what the browser parses from
    [css] after the last child of the document's [head] and changes nothing
    else: every address stays valid, nodes outside [head] are untouched,
    and a selector that matches nothing in the parsed nodes finds the same
    elements at the same addresses as before.  Without a [head] the call
    fails. *)
Theorem inject_css_appends (css : string) (root : node) :
  (document_head root = None →
   inject_css parse_fragment css root = None) ∧
  ∀ p : path, document_head root = Some p →
    ∃ head root' : node,
      lookup root p = Some head ∧ tag_of head = Some "head" ∧
      inject_css parse_fragment css root = Some root' ∧
      lookup root' p =
        Some (append_children (parse_fragment css) head) ∧
      kids_of (append_children (parse_fragment css) head) =
        kids_of head ++ parse_fragment css ∧
      grows root root' = true ∧
      (∀ q : path, apart p q = true → lookup root' q = lookup root q) ∧
      (∀ sel : node → bool,
         kid_blind sel →
         Forall (λ x, select sel x = []) (parse_fragment css) →
         select sel root' = select sel root).
Proof.
  split.
  { unfold inject_css. by intros ->. }
  intros p Hp.
  destruct (document_head_spec root p Hp) as (i & head & -> & _ & Hh & Ht & _).
  exists head, (update [i] (append_children (parse_fragment css)) root).
  split; [done|]. split; [done|].
  split; [unfold inject_css; by rewrite Hp|].
  split; [by rewrite lookup_update, Hh|].
  split.
  { by destruct head as [t a cs k|s]. }
  split; [apply grows_update, grows_append_children|].
  split; [intros q Hq; by apply lookup_update_apart|].
  intros sel Hsel Hnew. by apply select_append.
Qed.

End InjectFacts.

(** ** The preparatory scripts and the section count *)

Section PrepareFacts.

Import Dom Script View Tree Prep.

Variable img_src : option string → string.
Variable parse_fragment : string → list node.

Lemma sel_id_kid_blind (id : string) : kid_blind (sel_id id).
Proof. by intros t a cs k k'. Qed.

Lemma sel_gradient_kid_blind : kid_blind sel_gradient_section.
Proof. by intros t a cs k k'. Qed.

Lemma omap_ext_in {A B} (f g : A → option B) (l : list A) :
  (∀ x, x ∈ l → f x = g x) → omap f l = omap g l.
Proof.
  induction l as [|x l IH]; intros H; [done|]. cbn [omap list_omap].
  rewrite (H x) by left. rewrite IH; [done|]. intros y Hy. apply H. by right.
Qed.

Lemma filter_ext_in {A} (P Q : A → Prop) `{!∀ x, Decision (P x)}
    `{!∀ x, Decision (Q x)} (l : list A) :
  (∀ x, x ∈ l → P x ↔ Q x) → filter P l = filter Q l.
Proof.
  induction l as [|x l IH]; intros Hall; [done|]. rewrite !filter_cons.
  rewrite IH by (intros y Hy; apply Hall; by right).
  destruct (decide (P x)) as [HP|HP], (decide (Q x)) as [HQ|HQ]; try done.
  - exfalso. apply HQ, (Hall x); [left|done].
  - exfalso. apply HP, (Hall x); [left|done].
Qed.

Lemma classes_update_append (p q : path) (new : list node) (n : node) :
  is_Some (lookup n q) →
  classes_of <$> lookup (update p (append_children new) n) q =
  classes_of <$> lookup n q.
Proof.
  revert n q. induction p as [|i p IH]; intros n q Hq.
  - destruct n as [t a cs k|s]; [|done]. cbn [update append_children].
    destruct q as [|j q]; [done|]. cbn [lookup kids_of] in *.
    destruct (k !! j) as [x|] eqn:Hx; [|by destruct Hq].
    by rewrite (lookup_app_l_Some _ _ _ _ Hx).
  - destruct n as [t a cs k|s]; [|done]. cbn [update].
    destruct q as [|j q]; [done|]. cbn [lookup kids_of] in *.
    destruct (decide (i = j)) as [->|Hne].
    + rewrite list_lookup_alter_eq. destruct (k !! j) as [x|]; [|done].
      cbn in *. by apply IH.
    + by rewrite list_lookup_alter_ne.
Qed.

(** X24.  The number of marked sections is decided by the document as
    loaded: the two scripts that run before the marking (the lazy-loading
    fix and the style-sheet injection) do not change which elements the
    marking finds nor what it counts, provided the nodes parsed from the
    style sheet hold no element with one of the eight IDs and no gradient
    section. *)
Theorem marked_count_of_loaded_document (css : string) (root root2 : node) :
  inject_css parse_fragment css (remove_lazy img_src root).1 = Some root2 →
  Forall (λ x, Forall (λ id, select (sel_id id) x = []) breakIds ∧
               select sel_gradient_section x = [])
         (parse_fragment css) →
  targets root2 = targets root ∧
  (mark_sections root2).2 = (mark_sections root).2.
Proof.
  intros Hinj Hnew.
  set (root1 := (remove_lazy img_src root).1) in *.
  assert (img_equiv root root1 = true) as H1.
  { unfold root1. rewrite remove_lazy_eq. apply fix_all_img_equiv. }
  unfold inject_css in Hinj.
  destruct (document_head root1) as [p|]; [|done]. cbn in Hinj.
  injection Hinj as <-.
  set (root2 := update p (append_children (parse_fragment css)) root1).
  assert (∀ id, id ∈ breakIds →
                get_element_by_id id root2 = get_element_by_id id root) as Hid.
  { intros id Hin. rewrite (get_element_by_id_img_equiv id root root1 H1).
    unfold get_element_by_id, query_selector, root2.
    rewrite select_append; [done|apply sel_id_kid_blind|].
    eapply Forall_impl; [exact Hnew|]. intros x [Hx _].
    rewrite Forall_forall in Hx. by apply Hx. }
  assert (gradient_target root2 = gradient_target root) as Hg.
  { rewrite (gradient_target_img_equiv root root1 H1).
    unfold gradient_target, query_selector, root2.
    rewrite select_append; [done|apply sel_gradient_kid_blind|].
    eapply Forall_impl; [exact Hnew|]. by intros x [_ Hx]. }
  assert (id_targets root2 = id_targets root) as Hids
    by (unfold id_targets; by apply omap_ext_in).
  assert (present_ids root2 = present_ids root) as Hpres.
  { unfold present_ids. apply filter_ext_in. intros id Hin.
    by rewrite (Hid id Hin). }
  split.
  { unfold targets. by rewrite Hids, Hg. }
  rewrite !mark_sections_count_eq, Hpres. f_equal.
  unfold gradient_counted. rewrite Hg, Hids.
  destruct (gradient_target root) as [q|] eqn:Hq; [|done].
  f_equal. f_equal.
  rewrite (has_class_lookup_img_equiv BREAK root root1 q H1).
  destruct (targets_valid root q) as (m & Hm & _).
  { unfold targets. rewrite Hq. apply elem_of_app. right. by left. }
  assert (is_Some (lookup root1 q)) as Hs.
  { destruct (img_equiv_lookup root root1 q H1) as [x x' _|]; [by eexists|].
    done. }
  pose proof (classes_update_append p q (parse_fragment css) root1 Hs) as Hc.
  fold root2 in Hc. destruct Hs as [m1 Hm1]. rewrite Hm1 in Hc |- *.
  destruct (lookup root2 q) as [m2|]; [|done].
  injection Hc as Hc. cbn. unfold has_class. by rewrite Hc.
Qed.

End PrepareFacts.

Lemma scripts_blind_to_image_attributes_witness :
  (Script.mark_sections (Prep.remove_lazy PrepSample.file_url PrepSample.gallery).1).2 =
  (Script.mark_sections PrepSample.gallery).2.
Proof.
  destruct (scripts_blind_to_image_attributes Sample.js_eval PrepSample.gallery
              (Prep.remove_lazy PrepSample.file_url PrepSample.gallery).1)
    as (_ & H & _).
  - vm_compute. reflexivity.
  - exact H.
Defined.

Lemma inject_css_appends_witness :
  ∃ head root' : Dom.node,
    Dom.lookup PrepSample.gallery [0%nat] = Some head ∧
    Prep.inject_css PrepSample.one_style "p { margin: 0 }" PrepSample.gallery =
    Some root' ∧
    Dom.select (Dom.sel_id "scope") root' =
    Dom.select (Dom.sel_id "scope") PrepSample.gallery.
Proof.
  destruct (inject_css_appends PrepSample.one_style "p { margin: 0 }"
              PrepSample.gallery) as [_ H].
  destruct (H [0%nat]) as (head & root' & H1 & _ & H2 & _ & _ & _ & _ & H3).
  - vm_compute. reflexivity.
  - exists head, root'. split; [exact H1|]. split; [exact H2|].
    apply H3.
    + by intros t a cs k k'.
    + repeat constructor.
Defined.

Lemma marked_count_of_loaded_document_witness :
  ∃ root2 : Dom.node,
    Prep.inject_css PrepSample.one_style "p { margin: 0 }"
      (Prep.remove_lazy PrepSample.file_url PrepSample.gallery).1 = Some root2 ∧
    (Script.mark_sections root2).2 = (Script.mark_sections PrepSample.gallery).2.
Proof.
  eexists. split; [vm_compute; reflexivity|].
  refine (proj2 (marked_count_of_loaded_document PrepSample.file_url
                   PrepSample.one_style "p { margin: 0 }" PrepSample.gallery
                   _ _ _)).
  - vm_compute. reflexivity.
  - repeat constructor.
Defined.

(** The sample document after the lazy-loading script: the two lazy images
    have lost [loading] and carry the resolved [src] (the empty string for
    the image that had none); the eager image is as it was. *)
Example remove_lazy_sample :
  Prep.remove_lazy PrepSample.file_url PrepSample.gallery =
  (Dom.Elem "html" [] []
     [ Dom.Elem "head" [] [] [];
       Dom.Elem "body" [] []
         [ Dom.Elem "img" [("src", "file:///home/rhf/logo.png"); ("alt", "Logo")]
                    ["logo"] [];
           Dom.Elem "section" [("id", "scope")] []
             [ Dom.Elem "img" [("src", "")] [] [];
               Dom.Elem "img" [("src", "b.png"); ("loading", "eager")] [] [] ] ] ],
   2).
Proof. vm_compute. reflexivity. Qed.
